(** * LMModule: motion-control firmware of the three-wheeled patrol robot

    A shallow embedding of the two firmware sketches of the repository:

    - [Tracking]   : the tag-tracking sketch (the unnamed source file),
                     with the PID tag controller, the continuous holonomic
                     mapper [moveRobot] and the clamping [moveMotor];
    - [Integrated] : [ILMMCodes/integrated_movement/integrated_movement.ino],
                     with the directional interlocks, the discrete
                     maneuvers, the framed serial parser and the command
                     dispatcher.

    Modelling conventions.

    - [int] is [Z].  The only integer arithmetic of the modelled code is
      [MAX_SPEED - 5]; every other integer is compared, copied or converted,
      so no 16-bit wrap-around can occur and none is written out.
      [unsigned long] time stamps are [Z] with the 32-bit wrap-around of
      their subtraction written out in [elapsed].
    - [float] is [Q]: exact rational arithmetic stands for the rounded
      binary arithmetic of the board (no NaN, no infinity; [x / 0] is [0]).
      [(int) x] is truncation toward zero.
    - [min], [max], [abs], [constrain] are the Arduino macros, unfolded the
      way the preprocessor does.
    - Every function that touches the globals is a computation of the state
      monad [M]; next to the new state it returns the list of output events
      it performed ([analogWrite], [digitalWrite], [Serial.print]) in order.
      [MotorCall] is a call marker: it records the arguments of each
      [moveMotor] call in front of the writes of that call.
    - [millis()] is read once per modelled entry point and passed as [now]. *)

From Stdlib Require Import ZArith QArith Qabs Qround Lia Lqa List String Ascii Bool.
From stdpp Require Import base list.

Open Scope Z_scope.

(** ** Arduino core: macros, conversions, outputs *)

Module Arduino.

(** [x < y] on floats, as a test. *)
Definition Qltb (x y : Q) : bool := negb (Qle_bool y x).

(** [#define min(a,b) ((a)<(b)?(a):(b))] *)
Definition minf (a b : Q) : Q := if Qltb a b then a else b.

(** [#define max(a,b) ((a)>(b)?(a):(b))] *)
Definition maxf (a b : Q) : Q := if Qltb b a then a else b.

(** [#define abs(x) ((x)>0?(x):-(x))] *)
Definition absf (x : Q) : Q := if Qltb 0 x then x else (- x)%Q.

(** [#define constrain(amt,low,high)
       ((amt)<(low)?(low):((amt)>(high)?(high):(amt)))], on floats. *)
Definition constrainf (amt low high : Q) : Q :=
  if Qltb amt low then low else if Qltb high amt then high else amt.

(** The same macro with three [int] operands. *)
Definition constrain (amt low high : Z) : Z :=
  if amt <? low then low else if high <? amt then high else amt.

(** [#define sq(x) ((x)*(x))] *)
Definition sq (x : Q) : Q := (x * x)%Q.

(** [(int) x]: conversion of a float to an integer truncates toward zero. *)
Definition truncate (x : Q) : Z := Z.quot (Qnum x) (Z.pos (Qden x)).

(** [now - then] on [unsigned long]: subtraction modulo [2^32]. *)
Definition elapsed (now before : Z) : Z := (now - before) mod 2 ^ 32.

Inductive Direction : Set := FORWARD | BACKWARD | STOP.

(** The three global [Motor] objects; [moveMotor] tells them apart by
    address. *)
Inductive MotorId : Set := motorLeft | motorRight | motorBack.

(** The two PWM inputs of a motor driver, and its two enable inputs. *)
Inductive Channel : Set := RPWM | LPWM.
Inductive EnablePin : Set := REN | LEN.

(** What [Serial.print] is given; [AFmt] is a [sprintf] buffer, kept as its
    format and arguments. *)
Inductive Val : Type :=
| VStr (s : string)
| VInt (z : Z)
| VFloat (q : Q)
| VBool (b : bool).

Inductive Arg : Type :=
| AStr (s : string)
| AInt (z : Z)
| AFloat (q : Q)
| AFmt (fmt : string) (args : list Val).

Inductive Event : Type :=
| MotorCall (m : MotorId) (dir : Direction) (targetSpeed : Q)
| AnalogWrite (m : MotorId) (ch : Channel) (duty : Z)
| DigitalWrite (m : MotorId) (pin : EnablePin) (high : bool)
| Delay (ms : Z)
| SerialPrint (a : Arg)
| SerialPrintln (a : Arg).

Definition Direction_eqb (a b : Direction) : bool :=
  match a, b with
  | FORWARD, FORWARD | BACKWARD, BACKWARD | STOP, STOP => true
  | _, _ => false
  end.

(** *** The state-and-output monad *)

Section Monad.
Context {St : Type}.

Definition M (A : Type) : Type := St -> A * St * list Event.

Definition ret {A} (a : A) : M A := fun s => (a, s, []).

Definition bind {A B} (m : M A) (k : A -> M B) : M B :=
  fun s =>
    let '(a, s1, e1) := m s in
    let '(b, s2, e2) := k a s1 in
    (b, s2, e1 ++ e2).

Definition get : M St := fun s => (s, s, []).
Definition gets {A} (f : St -> A) : M A := fun s => (f s, s, []).
Definition modify (f : St -> St) : M unit := fun s => (tt, f s, []).
Definition emit (e : Event) : M unit := fun s => (tt, s, [e]).

(** [if (c) { m }] *)
Definition when (c : bool) (m : M unit) : M unit := if c then m else ret tt.

Definition stateOf {A} (r : A * St * list Event) : St := snd (fst r).
Definition valueOf {A} (r : A * St * list Event) : A := fst (fst r).
Definition eventsOf {A} (r : A * St * list Event) : list Event := snd r.

End Monad.

Arguments M : clear implicits.

Declare Scope monad_scope.
Delimit Scope monad_scope with monad.
Notation "x <- m ;; k" := (bind m (fun x => k))
  (at level 100, m at next level, right associativity) : monad_scope.
Notation "m ;; k" := (bind m (fun _ => k))
  (at level 100, right associativity) : monad_scope.

(** The duty cycles written by a list of events. *)
Definition duties (es : list Event) : list Z :=
  flat_map (fun e => match e with AnalogWrite _ _ d => [d] | _ => [] end) es.

(** The [moveMotor] calls among a list of events. *)
Definition motorCalls (es : list Event) : list (MotorId * Direction * Q) :=
  flat_map (fun e => match e with MotorCall m d t => [(m, d, t)] | _ => [] end) es.

(** The events that drive a wheel: calls of [moveMotor] and PWM writes. *)
Definition isActuation (e : Event) : bool :=
  match e with MotorCall _ _ _ | AnalogWrite _ _ _ => true | _ => false end.

Definition actuations (es : list Event) : list Event := filter isActuation es.

End Arduino.

(** ** The tag-tracking sketch *)

Module Tracking.
Import Arduino.
Local Open Scope monad_scope.

Definition POSITION_TOLERANCE : Q := 5.
Definition ROTATION_TOLERANCE : Q := 0.05.
Definition PID_KP : Q := 2.
Definition PID_KI : Q := 0.1.
Definition PID_KD : Q := 0.5.
Definition ACCEL_RATE : Q := 0.15.
Definition CRITICAL_DISTANCE : Q := 10.
Definition SLOW_DOWN_DISTANCE : Q := 30.
Definition SAFE_DISTANCE : Q := 50.
Definition TAG_TIMEOUT : Z := 1000.
Definition PI : Q := 3.1415926535897932384626433832795.
Definition DEADBAND : Q := 0.1.

(** [sqrt], [atan2], [cos] and [sin] come from the C library. *)
Class MathLib : Type := {
  sqrt : Q -> Q;
  atan2 : Q -> Q -> Q;
  cos : Q -> Q;
  sin : Q -> Q }.

Inductive TrackingState : Set :=
  IDLE | MOVING_TO_TAG | ALIGNING_WITH_TAG | MAINTAINING_POSITION.

(** [struct Motor]; the four pin numbers are constants and are carried by
    the [MotorId] of the output events. *)
Record Motor : Type := { currentSpeed : Q }.

(** The private fields of [class AprilTagController]. *)
Record AprilTagController : Type := {
  currentState : TrackingState;
  tagVisible : bool;
  targetX : Q; targetY : Q; targetYaw : Q;
  currentX : Q; currentY : Q; currentYaw : Q;
  integralError : Q;
  lastError : Q;
  lastPIDUpdate : Z }.

(** The globals of the sketch. *)
Record State : Type := {
  MAX_SPEED : Z;
  MIN_SPEED : Z;
  distFL : Q; distF : Q; distFR : Q;
  distBL : Q; distB : Q; distBR : Q;
  emergencyStop : bool;
  lastTagUpdate : Z;
  leftMotor : Motor;
  rightMotor : Motor;
  backMotor : Motor;
  tagController : AprilTagController }.

Definition motor (m : MotorId) (s : State) : Motor :=
  match m with
  | motorLeft => leftMotor s
  | motorRight => rightMotor s
  | motorBack => backMotor s
  end.

Definition set_motor (m : MotorId) (v : Motor) (s : State) : State :=
  {| MAX_SPEED := MAX_SPEED s; MIN_SPEED := MIN_SPEED s;
     distFL := distFL s; distF := distF s; distFR := distFR s;
     distBL := distBL s; distB := distB s; distBR := distBR s;
     emergencyStop := emergencyStop s;
     lastTagUpdate := lastTagUpdate s;
     leftMotor := match m with motorLeft => v | _ => leftMotor s end;
     rightMotor := match m with motorRight => v | _ => rightMotor s end;
     backMotor := match m with motorBack => v | _ => backMotor s end;
     tagController := tagController s |}.

Definition set_tagController (c : AprilTagController) (s : State) : State :=
  {| MAX_SPEED := MAX_SPEED s; MIN_SPEED := MIN_SPEED s;
     distFL := distFL s; distF := distF s; distFR := distFR s;
     distBL := distBL s; distB := distB s; distBR := distBR s;
     emergencyStop := emergencyStop s;
     lastTagUpdate := lastTagUpdate s;
     leftMotor := leftMotor s; rightMotor := rightMotor s;
     backMotor := backMotor s;
     tagController := c |}.

Definition set_currentState (t : TrackingState) (c : AprilTagController)
  : AprilTagController :=
  {| currentState := t; tagVisible := tagVisible c;
     targetX := targetX c; targetY := targetY c; targetYaw := targetYaw c;
     currentX := currentX c; currentY := currentY c;
     currentYaw := currentYaw c;
     integralError := integralError c; lastError := lastError c;
     lastPIDUpdate := lastPIDUpdate c |}.

Definition set_pid (integral last : Q) (t : Z) (c : AprilTagController)
  : AprilTagController :=
  {| currentState := currentState c; tagVisible := tagVisible c;
     targetX := targetX c; targetY := targetY c; targetYaw := targetYaw c;
     currentX := currentX c; currentY := currentY c;
     currentYaw := currentYaw c;
     integralError := integral; lastError := last;
     lastPIDUpdate := t |}.

(** The globals after the static initialisers have run ([reset()] stamps
    [lastPIDUpdate] with the boot time [0]). *)
Definition initState : State :=
  {| MAX_SPEED := 150; MIN_SPEED := 100;
     distFL := 0; distF := 0; distFR := 0;
     distBL := 0; distB := 0; distBR := 0;
     emergencyStop := false;
     lastTagUpdate := 0;
     leftMotor := {| currentSpeed := 0 |};
     rightMotor := {| currentSpeed := 0 |};
     backMotor := {| currentSpeed := 0 |};
     tagController :=
       {| currentState := IDLE; tagVisible := false;
          targetX := 0; targetY := 0; targetYaw := 0;
          currentX := 0; currentY := 0; currentYaw := 0;
          integralError := 0; lastError := 0; lastPIDUpdate := 0 |} |}.

(** [float calculateDynamicSpeed(float distance, float targetSpeed)] *)
Definition calculateDynamicSpeed (s : State) (distance targetSpeed : Q) : Q :=
  if Qle_bool distance CRITICAL_DISTANCE then 0%Q
  else if Qle_bool distance SLOW_DOWN_DISTANCE then
    let factor :=
      ((distance - CRITICAL_DISTANCE)
       / (SLOW_DOWN_DISTANCE - CRITICAL_DISTANCE))%Q in
    (inject_Z (MIN_SPEED s)
     + (targetSpeed - inject_Z (MIN_SPEED s)) * factor)%Q
  else targetSpeed.

(** The acceleration-limited step of [moveMotor]. *)
Definition ramp (maxSpeed : Z) (current targetSpeed : Q) : Q :=
  if Qltb current targetSpeed then
    minf targetSpeed (current + inject_Z maxSpeed * ACCEL_RATE)%Q
  else if Qltb targetSpeed current then
    maxf targetSpeed (current - inject_Z maxSpeed * ACCEL_RATE)%Q
  else current.

(** [void moveMotor(Motor &motor, Direction dir, float targetSpeed)] *)
Definition moveMotor (m : MotorId) (dir : Direction) (targetSpeed : Q)
  : M State unit :=
  emit (MotorCall m dir targetSpeed) ;;
  s <- get ;;
  let targetSpeed := constrainf targetSpeed 0 (inject_Z (MAX_SPEED s)) in
  let current := ramp (MAX_SPEED s) (currentSpeed (motor m s)) targetSpeed in
  modify (set_motor m {| currentSpeed := current |}) ;;
  let speed := truncate current in
  match dir with
  | FORWARD =>
      emit (AnalogWrite m RPWM speed) ;; emit (AnalogWrite m LPWM 0)
  | BACKWARD =>
      emit (AnalogWrite m RPWM 0) ;; emit (AnalogWrite m LPWM speed)
  | STOP =>
      emit (AnalogWrite m RPWM 0) ;; emit (AnalogWrite m LPWM 0) ;;
      modify (set_motor m {| currentSpeed := 0 |})
  end.

(** The minima of the four sensor groups, as [safeRobotMove] and [moveRobot]
    compute them. *)
Definition forwardDist (s : State) : Q := minf (minf (distFL s) (distF s)) (distFR s).
Definition backwardDist (s : State) : Q := minf (minf (distBL s) (distB s)) (distBR s).
Definition leftDist (s : State) : Q := minf (distFL s) (distBL s).
Definition rightDist (s : State) : Q := minf (distFR s) (distBR s).

(** The holonomic drive equations of [moveRobot], for the 120-degree
    arrangement: (left, right, back). *)
Definition wheelMix (vy vx omega : Q) : Q * Q * Q :=
  ((- 0.5 * vx - 0.866 * vy + omega)%Q,
   (- 0.5 * vx + 0.866 * vy + omega)%Q,
   (vx + omega)%Q).

(** [maxSpeed = max(abs(leftSpeed), max(abs(rightSpeed), abs(backSpeed)))] *)
Definition maxMagnitude (w : Q * Q * Q) : Q :=
  let '(leftSpeed, rightSpeed, backSpeed) := w in
  maxf (absf leftSpeed) (maxf (absf rightSpeed) (absf backSpeed)).

(** "Scale speeds to fit within [-1, 1]". *)
Definition scaleToUnit (w : Q * Q * Q) : Q * Q * Q :=
  let '(leftSpeed, rightSpeed, backSpeed) := w in
  let maxSpeed := maxMagnitude w in
  if Qltb 1 maxSpeed then
    ((leftSpeed / maxSpeed)%Q, (rightSpeed / maxSpeed)%Q,
     (backSpeed / maxSpeed)%Q)
  else w.

(** "Apply deadband to avoid small noisy movements". *)
Definition deadband (x : Q) : Q := if Qltb (absf x) DEADBAND then 0%Q else x.

Definition applyDeadband (w : Q * Q * Q) : Q * Q * Q :=
  let '(leftSpeed, rightSpeed, backSpeed) := w in
  (deadband leftSpeed, deadband rightSpeed, deadband backSpeed).

(** The three signed wheel speeds [moveRobot] derives from its arguments. *)
Definition wheelSpeeds (vy vx omega : Q) : Q * Q * Q :=
  let vy := constrainf vy (-1) 1 in
  let vx := constrainf vx (-1) 1 in
  let omega := constrainf omega (-1) 1 in
  applyDeadband (scaleToUnit (wheelMix vy vx omega)).

(** The obstacle-scaled duty of one wheel: [towards] is the clearance used
    when the wheel turns forward, [away] when it turns backward. *)
Definition wheelPWM (s : State) (speed towards away : Q) : Z :=
  let pwm := truncate (absf speed * inject_Z (MAX_SPEED s))%Q in
  if Qltb 0 speed then
    truncate (calculateDynamicSpeed s towards (inject_Z pwm))
  else if Qltb speed 0 then
    truncate (calculateDynamicSpeed s away (inject_Z pwm))
  else pwm.

Definition signDirection (speed : Q) : Direction :=
  if Qle_bool 0 speed then FORWARD else BACKWARD.

(** [void moveRobot(float vy, float vx, float omega)] *)
Definition moveRobot (vy vx omega : Q) : M State unit :=
  s <- get ;;
  let '(leftSpeed, rightSpeed, backSpeed) := wheelSpeeds vy vx omega in
  let leftPWM :=
    wheelPWM s leftSpeed (minf (forwardDist s) (leftDist s))
             (minf (backwardDist s) (rightDist s)) in
  let rightPWM :=
    wheelPWM s rightSpeed (minf (forwardDist s) (rightDist s))
             (minf (backwardDist s) (leftDist s)) in
  let backPWM := wheelPWM s backSpeed (rightDist s) (leftDist s) in
  moveMotor motorLeft (signDirection leftSpeed) (inject_Z leftPWM) ;;
  moveMotor motorRight (signDirection rightSpeed) (inject_Z rightPWM) ;;
  moveMotor motorBack (signDirection backSpeed) (inject_Z backPWM).

(** [void stopAllMotors()] *)
Definition stopAllMotors : M State unit :=
  moveMotor motorLeft STOP 0 ;;
  moveMotor motorRight STOP 0 ;;
  moveMotor motorBack STOP 0.

(** The two axis vetoes of [safeRobotMove]: the forward/backward component
    and the right/left component after the safety checks. *)
Definition vetoForward (s : State) (vy : Q) : Q :=
  if Qltb 0 vy && Qltb (forwardDist s) CRITICAL_DISTANCE then 0%Q
  else if Qltb vy 0 && Qltb (backwardDist s) CRITICAL_DISTANCE then 0%Q
  else vy.

Definition vetoLateral (s : State) (vx : Q) : Q :=
  if Qltb 0 vx && Qltb (rightDist s) CRITICAL_DISTANCE then 0%Q
  else if Qltb vx 0 && Qltb (leftDist s) CRITICAL_DISTANCE then 0%Q
  else vx.

(** [void AprilTagController::safeRobotMove(float vy, float vx, float omega)] *)
Definition safeRobotMove (vy vx omega : Q) : M State unit :=
  s <- get ;;
  if emergencyStop s then stopAllMotors
  else moveRobot (vetoForward s vy) (vetoLateral s vx) omega.

(** [float AprilTagController::calculatePID(float error)] *)
Definition calculatePID (now : Z) (error : Q) : M State Q :=
  s <- get ;;
  let c := tagController s in
  let dt := (inject_Z (elapsed now (lastPIDUpdate c)) / 1000)%Q in
  let integral :=
    constrainf (integralError c + error * dt)%Q
               (inject_Z (- MAX_SPEED s)) (inject_Z (MAX_SPEED s)) in
  let derivative := ((error - lastError c) / dt)%Q in
  modify (set_tagController (set_pid integral error now c)) ;;
  ret (error * PID_KP + integral * PID_KI + derivative * PID_KD)%Q.

Definition calculateRotationSpeed (now : Z) (error : Q) : M State Q :=
  calculatePID now error.

(** [while (rotationError > PI) rotationError -= 2 * PI;] and its mirror
    image; each round moves the error by more than six, so [fuel] rounds
    suffice when [fuel] exceeds the magnitude of the error. *)
Fixpoint wrapAbove (fuel : nat) (e : Q) : Q :=
  match fuel with
  | O => e
  | S k => if Qltb PI e then wrapAbove k (e - 2 * PI)%Q else e
  end.

Fixpoint wrapBelow (fuel : nat) (e : Q) : Q :=
  match fuel with
  | O => e
  | S k => if Qltb e (- PI) then wrapBelow k (e + 2 * PI)%Q else e
  end.

Definition normalizeRotation (e : Q) : Q :=
  let fuel := Z.to_nat (Qceiling (Qabs e)) in
  wrapBelow fuel (wrapAbove fuel e).

(** [constrain(calculateRotationSpeed(rotationError), -MIN_SPEED, MIN_SPEED)]:
    the macro evaluates its first operand once per occurrence. *)
Definition constrainRotationSpeed (now : Z) (error low high : Q) : M State Q :=
  a <- calculateRotationSpeed now error ;;
  if Qltb a low then ret low
  else
    b <- calculateRotationSpeed now error ;;
    if Qltb high b then ret high
    else calculateRotationSpeed now error.

Definition setTrackingState (t : TrackingState) : M State unit :=
  modify (fun s => set_tagController (set_currentState t (tagController s)) s).

(** [void AprilTagController::processMovement()] *)
Definition processMovement `{MathLib} (now : Z) : M State unit :=
  s <- get ;;
  let c := tagController s in
  if negb (tagVisible c) || (TAG_TIMEOUT <? elapsed now (lastTagUpdate s)) then
    safeRobotMove 0 0 0 ;;
    setTrackingState IDLE
  else
    let distance :=
      sqrt (sq (targetX c - currentX c) + sq (targetY c - currentY c))%Q in
    let rotationError := normalizeRotation (targetYaw c - currentYaw c)%Q in
    match currentState c with
    | MOVING_TO_TAG =>
        if Qle_bool distance POSITION_TOLERANCE then
          setTrackingState ALIGNING_WITH_TAG
        else
          let angle := atan2 (targetY c - currentY c)%Q (targetX c - currentX c)%Q in
          let reach :=
            constrainf (distance * 0.5)%Q
                       (inject_Z (MIN_SPEED s)) (inject_Z (MAX_SPEED s)) in
          let vx := (cos angle * reach)%Q in
          let vy := (sin angle * reach)%Q in
          omega <- calculateRotationSpeed now rotationError ;;
          safeRobotMove vy vx omega
    | ALIGNING_WITH_TAG =>
        if Qle_bool (absf rotationError) ROTATION_TOLERANCE then
          setTrackingState MAINTAINING_POSITION
        else
          omega <- calculateRotationSpeed now rotationError ;;
          safeRobotMove 0 0 omega
    | MAINTAINING_POSITION =>
        if Qltb POSITION_TOLERANCE distance
           || Qltb ROTATION_TOLERANCE (absf rotationError) then
          setTrackingState MOVING_TO_TAG
        else
          let low := inject_Z (- MIN_SPEED s) in
          let high := inject_Z (MIN_SPEED s) in
          let vx := constrainf (targetX c - currentX c)%Q low high in
          let vy := constrainf (targetY c - currentY c)%Q low high in
          vrot <- constrainRotationSpeed now rotationError low high ;;
          safeRobotMove vy vx vrot
    | IDLE => safeRobotMove 0 0 0
    end.

(** [void executeMovement(char direction, int speed, int tagId)], the
    handler of the [TAG:] command of this sketch. *)
Definition executeMovement (direction : ascii) (speed tagId : Z) : M State unit :=
  let isRotation := tagId =? 99 in
  let speed := inject_Z speed in
  if Ascii.eqb direction "F" then
    if negb isRotation then
      emit (SerialPrintln (AStr "Moving FORWARD")) ;;
      moveMotor motorLeft FORWARD speed ;;
      moveMotor motorRight FORWARD speed ;;
      moveMotor motorBack STOP 0
    else ret tt
  else if Ascii.eqb direction "B" then
    if negb isRotation then
      emit (SerialPrintln (AStr "Moving BACKWARD")) ;;
      moveMotor motorLeft BACKWARD speed ;;
      moveMotor motorRight BACKWARD speed ;;
      moveMotor motorBack STOP 0
    else ret tt
  else if Ascii.eqb direction "L" then
    emit (SerialPrintln
            (AStr (if isRotation then "Rotating COUNTERCLOCKWISE"
                   else "Moving LEFT"))) ;;
    moveMotor motorLeft BACKWARD speed ;;
    moveMotor motorRight FORWARD speed ;;
    moveMotor motorBack FORWARD speed
  else if Ascii.eqb direction "R" then
    emit (SerialPrintln
            (AStr (if isRotation then "Rotating CLOCKWISE"
                   else "Moving RIGHT"))) ;;
    moveMotor motorLeft FORWARD speed ;;
    moveMotor motorRight BACKWARD speed ;;
    moveMotor motorBack BACKWARD speed
  else if Ascii.eqb direction "S" then
    emit (SerialPrintln (AStr "Stopping all motors")) ;;
    stopAllMotors
  else
    emit (SerialPrintln (AStr "Unknown direction")) ;;
    stopAllMotors.

(** Placeholder C library for running examples that never reach it. *)
Definition noMath : MathLib :=
  {| sqrt := fun _ => 0%Q; atan2 := fun _ _ => 0%Q;
     cos := fun _ => 0%Q; sin := fun _ => 0%Q |}.

End Tracking.

(** ** The integrated movement controller *)

Module Integrated.
Import Arduino.
Local Open Scope monad_scope.

Definition COMMAND_BUFFER_SIZE : nat := 64.
Definition CONTROL_LOOP_INTERVAL : Z := 50.
Definition MAX_ROTATION_SPEED : Z := 65.
Definition ACCEL_RATE : Q := 0.15.
Definition CRITICAL_DISTANCE : Q := 15.
Definition SLOW_DOWN_DISTANCE : Q := 30.
Definition SAFE_DISTANCE : Q := 60.
Definition MAX_AVOIDANCE_ATTEMPTS : Z := 3.
Definition ROTATION_TIMEOUT : Z := 2000.
Definition MOVEMENT_TIMEOUT : Z := 1500.

Inductive AvoidanceState : Set :=
  IDLE | ROTATING_AWAY | MOVING_PAST | ROTATING_BACK | RETURNING_TO_PATH.

Definition isIdle (a : AvoidanceState) : bool :=
  match a with IDLE => true | _ => false end.

(** [struct Motor], without its four constant pin numbers. *)
Record Motor : Type := { currentSpeed : Q }.

(** The run-time configuration globals. *)
Record Config : Type := {
  MAX_SPEED : Z;
  MIN_SPEED : Z;
  DEBUG_MODE : bool;
  useThreeWheels : bool;
  enableObstacleAvoidance : bool }.

(** The interlock globals. *)
Record Interlocks : Type := {
  masterOverrideActive : bool;
  emergencyStop : bool;
  frontEmergencyStop : bool;
  backEmergencyStop : bool;
  leftEmergencyStop : bool;
  rightEmergencyStop : bool;
  overridePinLow : bool  (* the level read from I2C_MASTER_OVERRIDE_PIN *) }.

(** [float distFL, distF, distFR, distBL, distB, distBR;] *)
Record Distances : Type := {
  distFL : Q; distF : Q; distFR : Q;
  distBL : Q; distB : Q; distBR : Q }.

(** The obstacle-avoidance globals. *)
Record Avoidance : Type := {
  avoidanceState : AvoidanceState;
  avoidanceAttempts : Z;
  avoidanceSuccessful : bool }.

(** The three motors, the [static Direction prevDirection[3]] of
    [moveMotor], and the [extern bool decelerationActive]. *)
Record Drive : Type := {
  leftMotor : Motor;
  rightMotor : Motor;
  backMotor : Motor;
  prevLeft : Direction;
  prevRight : Direction;
  prevBack : Direction;
  decelerationActive : bool }.

Record State : Type := {
  config : Config;
  interlocks : Interlocks;
  distances : Distances;
  avoidance : Avoidance;
  drive : Drive;
  lastTagUpdate : Z;
  lastControlLoop : Z }.

Definition set_config (c : Config) (s : State) : State :=
  {| config := c; interlocks := interlocks s; distances := distances s;
     avoidance := avoidance s; drive := drive s;
     lastTagUpdate := lastTagUpdate s; lastControlLoop := lastControlLoop s |}.

Definition set_interlocks (i : Interlocks) (s : State) : State :=
  {| config := config s; interlocks := i; distances := distances s;
     avoidance := avoidance s; drive := drive s;
     lastTagUpdate := lastTagUpdate s; lastControlLoop := lastControlLoop s |}.

Definition set_distances (d : Distances) (s : State) : State :=
  {| config := config s; interlocks := interlocks s; distances := d;
     avoidance := avoidance s; drive := drive s;
     lastTagUpdate := lastTagUpdate s; lastControlLoop := lastControlLoop s |}.

Definition set_avoidance (a : Avoidance) (s : State) : State :=
  {| config := config s; interlocks := interlocks s; distances := distances s;
     avoidance := a; drive := drive s;
     lastTagUpdate := lastTagUpdate s; lastControlLoop := lastControlLoop s |}.

Definition set_drive (d : Drive) (s : State) : State :=
  {| config := config s; interlocks := interlocks s; distances := distances s;
     avoidance := avoidance s; drive := d;
     lastTagUpdate := lastTagUpdate s; lastControlLoop := lastControlLoop s |}.

Definition set_lastTagUpdate (t : Z) (s : State) : State :=
  {| config := config s; interlocks := interlocks s; distances := distances s;
     avoidance := avoidance s; drive := drive s;
     lastTagUpdate := t; lastControlLoop := lastControlLoop s |}.

Definition set_lastControlLoop (t : Z) (s : State) : State :=
  {| config := config s; interlocks := interlocks s; distances := distances s;
     avoidance := avoidance s; drive := drive s;
     lastTagUpdate := lastTagUpdate s; lastControlLoop := t |}.

Definition motor (m : MotorId) (d : Drive) : Motor :=
  match m with
  | motorLeft => leftMotor d
  | motorRight => rightMotor d
  | motorBack => backMotor d
  end.

Definition prevDirection (m : MotorId) (d : Drive) : Direction :=
  match m with
  | motorLeft => prevLeft d
  | motorRight => prevRight d
  | motorBack => prevBack d
  end.

Definition set_motor (m : MotorId) (v : Q) (d : Drive) : Drive :=
  {| leftMotor := match m with motorLeft => {| currentSpeed := v |} | _ => leftMotor d end;
     rightMotor := match m with motorRight => {| currentSpeed := v |} | _ => rightMotor d end;
     backMotor := match m with motorBack => {| currentSpeed := v |} | _ => backMotor d end;
     prevLeft := prevLeft d; prevRight := prevRight d; prevBack := prevBack d;
     decelerationActive := decelerationActive d |}.

Definition set_prevDirection (m : MotorId) (v : Direction) (d : Drive) : Drive :=
  {| leftMotor := leftMotor d; rightMotor := rightMotor d;
     backMotor := backMotor d;
     prevLeft := match m with motorLeft => v | _ => prevLeft d end;
     prevRight := match m with motorRight => v | _ => prevRight d end;
     prevBack := match m with motorBack => v | _ => prevBack d end;
     decelerationActive := decelerationActive d |}.

Definition set_speeds (maxSpeed minSpeed : Z) (c : Config) : Config :=
  {| MAX_SPEED := maxSpeed; MIN_SPEED := minSpeed;
     DEBUG_MODE := DEBUG_MODE c; useThreeWheels := useThreeWheels c;
     enableObstacleAvoidance := enableObstacleAvoidance c |}.

Definition set_DEBUG_MODE (b : bool) (c : Config) : Config :=
  {| MAX_SPEED := MAX_SPEED c; MIN_SPEED := MIN_SPEED c;
     DEBUG_MODE := b; useThreeWheels := useThreeWheels c;
     enableObstacleAvoidance := enableObstacleAvoidance c |}.

Definition set_useThreeWheels (b : bool) (c : Config) : Config :=
  {| MAX_SPEED := MAX_SPEED c; MIN_SPEED := MIN_SPEED c;
     DEBUG_MODE := DEBUG_MODE c; useThreeWheels := b;
     enableObstacleAvoidance := enableObstacleAvoidance c |}.

Definition set_enableObstacleAvoidance (b : bool) (c : Config) : Config :=
  {| MAX_SPEED := MAX_SPEED c; MIN_SPEED := MIN_SPEED c;
     DEBUG_MODE := DEBUG_MODE c; useThreeWheels := useThreeWheels c;
     enableObstacleAvoidance := b |}.

(** The values of the static initialisers. *)
Definition initState : State :=
  {| config :=
       {| MAX_SPEED := 100; MIN_SPEED := 50; DEBUG_MODE := false;
          useThreeWheels := false; enableObstacleAvoidance := false |};
     interlocks :=
       {| masterOverrideActive := false; emergencyStop := false;
          frontEmergencyStop := false; backEmergencyStop := false;
          leftEmergencyStop := false; rightEmergencyStop := false;
          overridePinLow := false |};
     distances :=
       {| distFL := 0; distF := 0; distFR := 0;
          distBL := 0; distB := 0; distBR := 0 |};
     avoidance :=
       {| avoidanceState := IDLE; avoidanceAttempts := 0;
          avoidanceSuccessful := false |};
     drive :=
       {| leftMotor := {| currentSpeed := 0 |};
          rightMotor := {| currentSpeed := 0 |};
          backMotor := {| currentSpeed := 0 |};
          prevLeft := STOP; prevRight := STOP; prevBack := STOP;
          decelerationActive := false |};
     lastTagUpdate := 0;
     lastControlLoop := 0 |}.

(** The functions this sketch declares and calls but does not define: the
    obstacle-avoidance routines (forward declarations) and the routines of
    [smooth_deceleration.ino] ([extern]). *)
Class Collaborators : Type := {
  navigateAroundObstacle : Z -> M State bool;
  continueObstacleAvoidance : M State bool;
  startSmoothDeceleration : M State unit;
  handleSmoothDeceleration : M State unit;
  emergencyStopAllMotors : M State unit }.

(** [void debugPrint(const char *message)] *)
Definition debugPrintArg (message : Arg) : M State unit :=
  s <- get ;;
  when (DEBUG_MODE (config s))
    (emit (SerialPrint (AStr "<DEBUG:")) ;;
     emit (SerialPrint message) ;;
     emit (SerialPrintln (AStr ">"))).

Definition debugPrint (message : string) : M State unit :=
  debugPrintArg (AStr message).

(** [void ensureMotorEnablePins()] *)
Definition ensureMotorEnablePins : M State unit :=
  emit (DigitalWrite motorLeft REN true) ;;
  emit (DigitalWrite motorLeft LEN true) ;;
  emit (DigitalWrite motorRight REN true) ;;
  emit (DigitalWrite motorRight LEN true) ;;
  emit (DigitalWrite motorBack REN true) ;;
  emit (DigitalWrite motorBack LEN true).

(** The acceleration-limited step of [moveMotor]. *)
Definition ramp (maxSpeed : Z) (current targetSpeed : Q) : Q :=
  if Qltb current targetSpeed then
    minf targetSpeed (current + inject_Z maxSpeed * ACCEL_RATE)%Q
  else if Qltb targetSpeed current then
    maxf targetSpeed (current - inject_Z maxSpeed * ACCEL_RATE)%Q
  else current.

(** "Only apply minimum speed constraint to avoid stalling motors". *)
Definition stallFloor (minSpeed speed : Z) : Z :=
  if (0 <? speed) && (speed <? minSpeed) then minSpeed else speed.

(** [void moveMotor(Motor &motor, Direction dir, float targetSpeed)] *)
Definition moveMotor (m : MotorId) (dir : Direction) (targetSpeed : Q)
  : M State unit :=
  emit (MotorCall m dir targetSpeed) ;;
  emit (DigitalWrite m REN true) ;;
  emit (DigitalWrite m LEN true) ;;
  s <- get ;;
  let d := drive s in
  let prev := prevDirection m d in
  let restart := negb (Direction_eqb prev dir) && negb (Direction_eqb prev STOP) in
  let current0 := if restart then 0%Q else currentSpeed (motor m d) in
  let current := ramp (MAX_SPEED (config s)) current0 targetSpeed in
  let speed := stallFloor (MIN_SPEED (config s)) (truncate current) in
  modify (set_drive (set_motor m current (set_prevDirection m dir d))) ;;
  match dir with
  | FORWARD =>
      emit (AnalogWrite m RPWM speed) ;; emit (AnalogWrite m LPWM 0)
  | BACKWARD =>
      emit (AnalogWrite m RPWM 0) ;; emit (AnalogWrite m LPWM speed)
  | STOP =>
      if negb (decelerationActive d) then
        emit (AnalogWrite m RPWM 0) ;; emit (AnalogWrite m LPWM 0) ;;
        modify (fun s => set_drive (set_motor m 0 (drive s)) s)
      else ret tt
  end.

(** [void stopAllMotors()] *)
Definition stopAllMotors `{Collaborators} : M State unit :=
  startSmoothDeceleration ;;
  s <- get ;;
  when (masterOverrideActive (interlocks s) && DEBUG_MODE (config s))
    (debugPrint "STOPPED:MASTER_OVERRIDE").

(** [float calculateDynamicSpeed(float distance, float desiredSpeed)] *)
Definition calculateDynamicSpeed (s : State) (distance desiredSpeed : Q) : Q :=
  if Qle_bool distance CRITICAL_DISTANCE then 0%Q
  else if Qle_bool distance SLOW_DOWN_DISTANCE then
    let safetyFactor :=
      (0.5 + 0.5 * (distance - CRITICAL_DISTANCE)
             / (SLOW_DOWN_DISTANCE - CRITICAL_DISTANCE))%Q in
    let safeSpeed := (desiredSpeed * safetyFactor)%Q in
    maxf (inject_Z (MIN_SPEED (config s))) safeSpeed
  else desiredSpeed.

(** [motorLeft.currentSpeed = 0; motorRight.currentSpeed = 0;] *)
Definition resetFrontWheels : M State unit :=
  modify (fun s => set_drive (set_motor motorRight 0 (set_motor motorLeft 0 (drive s))) s).

(** [void rotateLeft(int speed)] *)
Definition rotateLeft (speed : Z) : M State unit :=
  debugPrint "Rotating LEFT (CCW)" ;;
  s <- get ;;
  let speed := inject_Z (constrain speed (MIN_SPEED (config s)) MAX_ROTATION_SPEED) in
  resetFrontWheels ;;
  if useThreeWheels (config s) then
    moveMotor motorLeft FORWARD speed ;;
    moveMotor motorRight FORWARD speed ;;
    moveMotor motorBack BACKWARD speed
  else
    moveMotor motorLeft FORWARD speed ;;
    moveMotor motorRight FORWARD speed ;;
    moveMotor motorBack STOP 0.

(** [void rotateRight(int speed)] *)
Definition rotateRight (speed : Z) : M State unit :=
  debugPrint "Rotating RIGHT (CW)" ;;
  s <- get ;;
  let speed := inject_Z (constrain speed (MIN_SPEED (config s)) MAX_ROTATION_SPEED) in
  resetFrontWheels ;;
  if useThreeWheels (config s) then
    moveMotor motorLeft BACKWARD speed ;;
    moveMotor motorRight BACKWARD speed ;;
    moveMotor motorBack FORWARD speed
  else
    moveMotor motorLeft BACKWARD speed ;;
    moveMotor motorRight BACKWARD speed ;;
    moveMotor motorBack STOP 0.

(** The back wheel of a maneuver: driven in three-wheel mode, stopped in
    two-wheel mode. *)
Definition backWheel (s : State) (dir : Direction) (speed : Q) : M State unit :=
  if useThreeWheels (config s) then moveMotor motorBack dir speed
  else moveMotor motorBack STOP 0.

Definition resetAvoidance (s : State) : State :=
  set_avoidance
    {| avoidanceState := IDLE; avoidanceAttempts := 0;
       avoidanceSuccessful := false |} s.

(** [void moveForward(int speed)] *)
Definition moveForward `{Collaborators} (speed : Z) : M State unit :=
  s <- get ;;
  if frontEmergencyStop (interlocks s) then
    debugPrint "FORWARD_BLOCKED:EMERGENCY_STOP_ACTIVE" ;;
    if enableObstacleAvoidance (config s) then
      finished <- navigateAroundObstacle speed ;;
      s1 <- get ;;
      when (finished && avoidanceSuccessful (avoidance s1))
        (debugPrint "AVOIDANCE_SUCCESSFUL:PATH_CLEARED")
    else ret tt
  else if negb (isIdle (avoidanceState (avoidance s)))
          && enableObstacleAvoidance (config s) then
    result <- continueObstacleAvoidance ;;
    if result then
      s1 <- get ;;
      (if avoidanceSuccessful (avoidance s1) then
         debugPrint "AVOIDANCE_COMPLETED:RETURNING_TO_NORMAL_MOVEMENT"
       else debugPrint "AVOIDANCE_ABANDONED:COULD_NOT_FIND_PATH") ;;
      modify resetAvoidance
    else ret tt
  else
    debugPrint "Moving FORWARD" ;;
    let speed := inject_Z (constrain speed (MIN_SPEED (config s)) (MAX_SPEED (config s))) in
    moveMotor motorLeft BACKWARD speed ;;
    moveMotor motorRight FORWARD speed ;;
    backWheel s FORWARD speed.

(** [void moveBackward(int speed)] *)
Definition moveBackward (speed : Z) : M State unit :=
  s <- get ;;
  if backEmergencyStop (interlocks s) then
    debugPrint "BACKWARD_BLOCKED:EMERGENCY_STOP_ACTIVE"
  else
    debugPrint "Moving BACKWARD" ;;
    let speed := inject_Z (constrain speed (MIN_SPEED (config s)) (MAX_SPEED (config s))) in
    moveMotor motorLeft FORWARD speed ;;
    moveMotor motorRight BACKWARD speed ;;
    backWheel s BACKWARD speed.

(** [void turnLeft(int speed)] *)
Definition turnLeft (speed : Z) : M State unit :=
  s <- get ;;
  if leftEmergencyStop (interlocks s) then
    debugPrint "LEFT_TURN_BLOCKED:EMERGENCY_STOP_ACTIVE"
  else
    debugPrint "Arc Turning LEFT" ;;
    let speed := constrain speed (MIN_SPEED (config s)) MAX_ROTATION_SPEED in
    let leftSpeed :=
      truncate (maxf (inject_Z (MIN_SPEED (config s))) (inject_Z speed * 0.5)%Q) in
    let rightSpeed :=
      truncate (minf (inject_Z (MAX_SPEED (config s))) (inject_Z speed * 1.5)%Q) in
    debugPrintArg (AFmt "TURN_LEFT: Left=%d, Right=%d" [VInt leftSpeed; VInt rightSpeed]) ;;
    moveMotor motorLeft BACKWARD (inject_Z leftSpeed) ;;
    moveMotor motorRight FORWARD (inject_Z rightSpeed) ;;
    backWheel s FORWARD (inject_Z speed * 0.75)%Q.

(** [void turnRight(int speed)] *)
Definition turnRight (speed : Z) : M State unit :=
  s <- get ;;
  if rightEmergencyStop (interlocks s) then
    debugPrint "RIGHT_TURN_BLOCKED:EMERGENCY_STOP_ACTIVE"
  else
    debugPrint "Arc Turning RIGHT" ;;
    let speed := constrain speed (MIN_SPEED (config s)) MAX_ROTATION_SPEED in
    let leftSpeed :=
      truncate (minf (inject_Z (MAX_SPEED (config s))) (inject_Z speed * 1.5)%Q) in
    let rightSpeed :=
      truncate (maxf (inject_Z (MIN_SPEED (config s))) (inject_Z speed * 0.5)%Q) in
    debugPrintArg (AFmt "TURN_RIGHT: Left=%d, Right=%d" [VInt leftSpeed; VInt rightSpeed]) ;;
    moveMotor motorLeft BACKWARD (inject_Z leftSpeed) ;;
    moveMotor motorRight FORWARD (inject_Z rightSpeed) ;;
    backWheel s FORWARD (inject_Z speed * 0.75)%Q.

(** [void slideLeft(int speed)] *)
Definition slideLeft (speed : Z) : M State unit :=
  s <- get ;;
  if leftEmergencyStop (interlocks s) then
    debugPrint "SLIDE_LEFT_BLOCKED:EMERGENCY_STOP_ACTIVE"
  else
    debugPrint "Sliding LEFT" ;;
    let speed := constrain speed (MIN_SPEED (config s)) (MAX_SPEED (config s)) in
    if useThreeWheels (config s) then
      moveMotor motorLeft STOP 0 ;;
      moveMotor motorRight BACKWARD (inject_Z speed) ;;
      moveMotor motorBack FORWARD (inject_Z speed)
    else if negb (leftEmergencyStop (interlocks s))
            && negb (rightEmergencyStop (interlocks s)) then
      rotateLeft speed
    else debugPrint "SLIDE_LEFT_BLOCKED:CANNOT_ROTATE_SAFELY".

(** [void slideRight(int speed)] *)
Definition slideRight (speed : Z) : M State unit :=
  s <- get ;;
  if rightEmergencyStop (interlocks s) then
    debugPrint "SLIDE_RIGHT_BLOCKED:EMERGENCY_STOP_ACTIVE"
  else
    debugPrint "Sliding RIGHT" ;;
    let speed := constrain speed (MIN_SPEED (config s)) (MAX_SPEED (config s)) in
    if useThreeWheels (config s) then
      moveMotor motorLeft BACKWARD (inject_Z speed) ;;
      moveMotor motorRight STOP 0 ;;
      moveMotor motorBack BACKWARD (inject_Z speed)
    else if negb (leftEmergencyStop (interlocks s))
            && negb (rightEmergencyStop (interlocks s)) then
      rotateRight speed
    else debugPrint "SLIDE_RIGHT_BLOCKED:CANNOT_ROTATE_SAFELY".

(** [void moveDiagonalForwardLeft(int speed)] *)
Definition moveDiagonalForwardLeft (speed : Z) : M State unit :=
  s <- get ;;
  if frontEmergencyStop (interlocks s) || leftEmergencyStop (interlocks s) then
    debugPrint "DIAG_FORWARD_LEFT_BLOCKED:EMERGENCY_STOP_ACTIVE"
  else
    debugPrint "Moving Diagonal Forward-Left" ;;
    let speed := inject_Z (constrain speed (MIN_SPEED (config s)) (MAX_SPEED (config s))) in
    moveMotor motorLeft BACKWARD (speed * 0.3)%Q ;;
    moveMotor motorRight FORWARD speed ;;
    backWheel s FORWARD (speed * 0.6)%Q.

(** [void moveDiagonalForwardRight(int speed)] *)
Definition moveDiagonalForwardRight (speed : Z) : M State unit :=
  s <- get ;;
  if frontEmergencyStop (interlocks s) || rightEmergencyStop (interlocks s) then
    debugPrint "DIAG_FORWARD_RIGHT_BLOCKED:EMERGENCY_STOP_ACTIVE"
  else
    debugPrint "Moving Diagonal Forward-Right" ;;
    let speed := inject_Z (constrain speed (MIN_SPEED (config s)) (MAX_SPEED (config s))) in
    moveMotor motorLeft BACKWARD speed ;;
    moveMotor motorRight FORWARD (speed * 0.3)%Q ;;
    backWheel s FORWARD (speed * 0.6)%Q.

(** [void moveDiagonalBackwardLeft(int speed)] *)
Definition moveDiagonalBackwardLeft (speed : Z) : M State unit :=
  s <- get ;;
  if backEmergencyStop (interlocks s) || leftEmergencyStop (interlocks s) then
    debugPrint "DIAG_BACKWARD_LEFT_BLOCKED:EMERGENCY_STOP_ACTIVE"
  else
    debugPrint "Moving Diagonal Backward-Left" ;;
    let speed := inject_Z (constrain speed (MIN_SPEED (config s)) (MAX_SPEED (config s))) in
    moveMotor motorLeft FORWARD (speed * 0.3)%Q ;;
    moveMotor motorRight BACKWARD speed ;;
    backWheel s BACKWARD (speed * 0.6)%Q.

(** [void moveDiagonalBackwardRight(int speed)] *)
Definition moveDiagonalBackwardRight (speed : Z) : M State unit :=
  s <- get ;;
  if backEmergencyStop (interlocks s) || rightEmergencyStop (interlocks s) then
    debugPrint "DIAG_BACKWARD_RIGHT_BLOCKED:EMERGENCY_STOP_ACTIVE"
  else
    debugPrint "Moving Diagonal Backward-Right" ;;
    let speed := inject_Z (constrain speed (MIN_SPEED (config s)) (MAX_SPEED (config s))) in
    moveMotor motorLeft FORWARD speed ;;
    moveMotor motorRight BACKWARD (speed * 0.3)%Q ;;
    backWheel s BACKWARD (speed * 0.6)%Q.

(** The minima of the four sensor groups, as [executeMovement] computes
    them. *)
Definition forwardDist (d : Distances) : Q := minf (minf (distFL d) (distF d)) (distFR d).
Definition backwardDist (d : Distances) : Q := minf (minf (distBL d) (distB d)) (distBR d).
Definition leftDist (d : Distances) : Q := minf (distFL d) (distBL d).
Definition rightDist (d : Distances) : Q := minf (distFR d) (distBR d).

(** The first test of [executeMovement] after the master override: the
    "direction-specific emergency stops" of codes 1 to 6. *)
Definition directionVetoed (i : Interlocks) (direction : Z) : bool :=
  ((direction =? 1) && frontEmergencyStop i)
  || ((direction =? 2) && backEmergencyStop i)
  || ((direction =? 3) && leftEmergencyStop i)
  || ((direction =? 4) && rightEmergencyStop i)
  || ((direction =? 5) && (leftEmergencyStop i || rightEmergencyStop i))
  || ((direction =? 6) && (leftEmergencyStop i || rightEmergencyStop i)).

(** The debug line of a vetoed code. *)
Definition vetoMessage (direction : Z) : M State unit :=
  match direction with
  | 1 => debugPrint "MOVEMENT_BLOCKED:EMERGENCY_STOP_FORWARD"
  | 2 => debugPrint "MOVEMENT_BLOCKED:EMERGENCY_STOP_BACKWARD"
  | 3 => debugPrint "MOVEMENT_BLOCKED:EMERGENCY_STOP_LEFT"
  | 4 => debugPrint "MOVEMENT_BLOCKED:EMERGENCY_STOP_RIGHT"
  | 5 => debugPrint "MOVEMENT_BLOCKED:EMERGENCY_STOP_ROTATE_LEFT"
  | 6 => debugPrint "MOVEMENT_BLOCKED:EMERGENCY_STOP_ROTATE_RIGHT"
  | _ => ret tt
  end.

(** The "safety-adjusted speed value" of [executeMovement]: the chain of
    [else if] over the direction code, each arm converting the float result
    of [calculateDynamicSpeed] back to [int]. *)
Definition safeSpeedFor (s : State) (direction desiredSpeed : Z) : Z :=
  let d := distances s in
  let scaled (dist : Q) := truncate (calculateDynamicSpeed s dist (inject_Z desiredSpeed)) in
  let near (dist : Q) := Qltb dist SLOW_DOWN_DISTANCE in
  if (direction =? 1) && near (forwardDist d) then scaled (forwardDist d)
  else if (direction =? 2) && near (backwardDist d) then scaled (backwardDist d)
  else if (direction =? 3) && near (leftDist d) then scaled (leftDist d)
  else if (direction =? 4) && near (rightDist d) then scaled (rightDist d)
  else if (direction =? 5) && near (leftDist d) then scaled (leftDist d)
  else if (direction =? 6) && near (rightDist d) then scaled (rightDist d)
  else if (direction =? 7) && near (forwardDist d) then scaled (forwardDist d)
  else if (direction =? 8) && near (forwardDist d) then scaled (forwardDist d)
  else if (direction =? 9) && near (backwardDist d) then scaled (backwardDist d)
  else if (direction =? 10) && near (backwardDist d) then scaled (backwardDist d)
  else desiredSpeed.

(** [void executeMovement(int direction, int desiredSpeed)].  The two LED
    effects called before the [switch] ([thunderEffect], [verticalEffect])
    drive the NeoPixel strips only and are left out. *)
Definition executeMovement `{Collaborators} (direction desiredSpeed : Z)
  : M State unit :=
  s <- get ;;
  if masterOverrideActive (interlocks s) then
    debugPrint "MOVEMENT_BLOCKED:MASTER_OVERRIDE"
  else if directionVetoed (interlocks s) direction then
    when (DEBUG_MODE (config s)) (vetoMessage direction)
  else
    ensureMotorEnablePins ;;
    let safeSpeed := safeSpeedFor s direction desiredSpeed in
    when (DEBUG_MODE (config s) && negb (safeSpeed =? desiredSpeed))
      (debugPrintArg (AFmt "SPEED_ADJUSTED:desired=%d,safe=%d"
                           [VInt desiredSpeed; VInt safeSpeed])) ;;
    match direction with
    | 1 => moveForward safeSpeed
    | 2 => moveBackward safeSpeed
    | 3 => turnLeft safeSpeed
    | 4 => turnRight safeSpeed
    | 5 => rotateLeft (constrain safeSpeed (MIN_SPEED (config s)) MAX_ROTATION_SPEED)
    | 6 => rotateRight (constrain safeSpeed (MIN_SPEED (config s)) MAX_ROTATION_SPEED)
    | 7 => slideLeft safeSpeed
    | 8 => slideRight safeSpeed
    | 9 => moveDiagonalForwardLeft safeSpeed
    | 10 => moveDiagonalForwardRight safeSpeed
    | 11 => moveDiagonalBackwardLeft safeSpeed
    | 12 => moveDiagonalBackwardRight safeSpeed
    | 0 => debugPrint "Stopping all motors" ;; stopAllMotors
    | _ => debugPrint "Unknown direction code" ;; stopAllMotors
    end.

(** The four "danger" tests of [loop()]. *)
Definition frontDanger (d : Distances) : bool :=
  Qltb (distF d) CRITICAL_DISTANCE || Qltb (distFL d) CRITICAL_DISTANCE
  || Qltb (distFR d) CRITICAL_DISTANCE.
Definition backDanger (d : Distances) : bool :=
  Qltb (distB d) CRITICAL_DISTANCE || Qltb (distBL d) CRITICAL_DISTANCE
  || Qltb (distBR d) CRITICAL_DISTANCE.
Definition leftDanger (d : Distances) : bool :=
  Qltb (distFL d) CRITICAL_DISTANCE || Qltb (distBL d) CRITICAL_DISTANCE.
Definition rightDanger (d : Distances) : bool :=
  Qltb (distFR d) CRITICAL_DISTANCE || Qltb (distBR d) CRITICAL_DISTANCE.

(** One directional flag of [loop()]: assigned, with its debug line, when it
    differs from the danger test. *)
Definition updateFlag (danger flag : bool) (name : string) : M State bool :=
  if negb (Bool.eqb danger flag) then
    debugPrint ((if danger then "EMERGENCY_STOP:" else "EMERGENCY_RELEASED:") ++ name) ;;
    ret danger
  else ret flag.

(** The body of the [if (now - lastControlLoop >= CONTROL_LOOP_INTERVAL)] of
    [loop()]: the update of the directional interlocks.  (The periodic
    [STATUS] line that closes the block is verbose-mode tracing and is left
    out.) *)
Definition updateInterlocks `{Collaborators} (now : Z) : M State unit :=
  modify (set_lastControlLoop now) ;;
  s <- get ;;
  let d := distances s in
  let i := interlocks s in
  front <- updateFlag (frontDanger d) (frontEmergencyStop i) "FRONT" ;;
  back <- updateFlag (backDanger d) (backEmergencyStop i) "BACK" ;;
  left <- updateFlag (leftDanger d) (leftEmergencyStop i) "LEFT" ;;
  right <- updateFlag (rightDanger d) (rightEmergencyStop i) "RIGHT" ;;
  let prevEmergencyStop := emergencyStop i in
  let any := front || back || left || right in
  modify (set_interlocks
            {| masterOverrideActive := masterOverrideActive i;
               emergencyStop := any;
               frontEmergencyStop := front; backEmergencyStop := back;
               leftEmergencyStop := left; rightEmergencyStop := right;
               overridePinLow := overridePinLow i |}) ;;
  when (any && negb prevEmergencyStop && front && back && left && right)
    (emergencyStopAllMotors ;;
     debugPrint "CRITICAL_EMERGENCY:ALL_SIDES_BLOCKED") ;;
  when (any && negb prevEmergencyStop)
    (debugPrintArg
       (AFmt "Distances: FL=%.1f F=%.1f FR=%.1f BL=%.1f B=%.1f BR=%.1f"
             [VFloat (distFL d); VFloat (distF d); VFloat (distFR d);
              VFloat (distBL d); VFloat (distB d); VFloat (distBR d)])).

(** The control-cycle gate of [loop()]. *)
Definition controlCycle `{Collaborators} (now : Z) : M State unit :=
  s <- get ;;
  if CONTROL_LOOP_INTERVAL <=? elapsed now (lastControlLoop s) then
    updateInterlocks now
  else ret tt.

(** *** The serial protocol *)

Definition START_MARKER : ascii := "<".
Definition END_MARKER : ascii := ">".
Definition ESCAPE_CHAR : ascii := "\".
Definition NUL : ascii := "000".
Definition LF : ascii := "010".
Definition CR : ascii := "013".
Definition SPACE : ascii := " ".

(** The function-local statics of [processSerialInput]. *)
Record Parser : Type := {
  buffer : list ascii;          (* [char buffer[COMMAND_BUFFER_SIZE]] *)
  index : nat;                  (* [uint8_t index], always below 64 *)
  messageStarted : bool;
  escapeNext : bool;
  bufferStartTime : Z }.

Definition initParser : Parser :=
  {| buffer := replicate COMMAND_BUFFER_SIZE NUL; index := 0%nat;
     messageStarted := false; escapeNext := false; bufferStartTime := 0 |}.

(** What a callee reads through a [const char *]: the bytes in front of the
    first NUL. *)
Fixpoint c_str (bytes : list ascii) : list ascii :=
  match bytes with
  | [] => []
  | c :: rest => if Ascii.eqb c NUL then [] else c :: c_str rest
  end.

(** [buffer[index++] = c;] *)
Definition store (c : ascii) (p : Parser) : Parser :=
  {| buffer := <[index p := c]> (buffer p); index := S (index p);
     messageStarted := messageStarted p; escapeNext := false;
     bufferStartTime := bufferStartTime p |}.

(** [buffer[index] = '\0'; parseCommand(buffer); index = 0;], with the new
    value of [messageStarted]: the parser after the hand-over and the array
    handed to [parseCommand]. *)
Definition handOver (started : bool) (p : Parser) : Parser * list ascii :=
  let terminated := <[index p := NUL]> (buffer p) in
  ({| buffer := terminated; index := 0%nat;
      messageStarted := started; escapeNext := escapeNext p;
      bufferStartTime := bufferStartTime p |},
   terminated).

(** One round of the [while (Serial.available())] loop of
    [processSerialInput] on the byte [c]: the next parser state and, when the
    round calls [parseCommand], the array it passes. *)
Definition serialStep (c : ascii) (p : Parser) : Parser * option (list ascii) :=
  if negb (messageStarted p) && (Ascii.eqb c LF || Ascii.eqb c CR) then
    if (0 <? index p)%nat then
      let '(p', cmd) := handOver (messageStarted p) p in (p', Some cmd)
    else (p, None)
  else if Ascii.eqb c START_MARKER && negb (escapeNext p) then
    ({| buffer := buffer p; index := 0%nat; messageStarted := true;
        escapeNext := escapeNext p; bufferStartTime := bufferStartTime p |},
     None)
  else if Ascii.eqb c END_MARKER && negb (escapeNext p) && messageStarted p then
    let '(p', cmd) := handOver false p in (p', Some cmd)
  else if Ascii.eqb c ESCAPE_CHAR && negb (escapeNext p) then
    ({| buffer := buffer p; index := index p;
        messageStarted := messageStarted p; escapeNext := true;
        bufferStartTime := bufferStartTime p |},
     None)
  else if (index p <? COMMAND_BUFFER_SIZE - 1)%nat then
    if escapeNext p then (store c p, None)
    else if messageStarted p then (store c p, None)
    else if negb (messageStarted p) && (index p =? 0)%nat
            && negb (Ascii.eqb c SPACE) then (store c p, None)
    else if negb (messageStarted p) && (0 <? index p)%nat then (store c p, None)
    else (p, None)
  else (p, None).

(** The whole [while] loop on the bytes waiting in the serial port: the
    final parser state and the commands handed to [parseCommand], in
    order, each as the callee reads it. *)
Fixpoint serialLoop (input : list ascii) (p : Parser) : Parser * list (list ascii) :=
  match input with
  | [] => (p, [])
  | c :: rest =>
      let '(p1, cmd) := serialStep c p in
      let '(p2, cmds) := serialLoop rest p1 in
      (p2, match cmd with Some b => c_str b :: cmds | None => cmds end)
  end.

(** The two tests that precede the loop: the stale-buffer reset and the
    start of the buffer timer.  The flag tells whether the reset fired. *)
Definition refreshBuffer (now : Z) (p : Parser) : Parser * bool :=
  let stale := (0 <? index p)%nat && (1000 <? elapsed now (bufferStartTime p)) in
  let p1 :=
    if stale then
      {| buffer := buffer p; index := 0%nat; messageStarted := false;
         escapeNext := false; bufferStartTime := bufferStartTime p |}
    else p in
  let p2 :=
    if (index p1 =? 0)%nat then
      {| buffer := buffer p1; index := index p1;
         messageStarted := messageStarted p1; escapeNext := escapeNext p1;
         bufferStartTime := now |}
    else p1 in
  (p2, stale).

(** [void processSerialInput()], on the bytes [input] available to this
    call: the parser statics afterwards and the commands dispatched.  (The
    dispatcher never touches the parser statics, so its calls are collected
    here and run by [serviceSerial] below.) *)
Definition processSerialInput (now : Z) (input : list ascii) (p : Parser)
  : M State (Parser * list (list ascii)) :=
  let '(p1, stale) := refreshBuffer now p in
  when stale (debugPrint "BUFFER_TIMEOUT_RESET") ;;
  ret (serialLoop input p1).

(** The sender's side of the framing, as the protocol describes it: every
    literal start marker, end marker or escape character of the payload is
    preceded by the escape character. *)
Definition needsEscape (c : ascii) : bool :=
  Ascii.eqb c START_MARKER || Ascii.eqb c END_MARKER || Ascii.eqb c ESCAPE_CHAR.

Fixpoint escape (payload : list ascii) : list ascii :=
  match payload with
  | [] => []
  | c :: rest =>
      if needsEscape c then ESCAPE_CHAR :: c :: escape rest
      else c :: escape rest
  end.

Definition frame (payload : list ascii) : list ascii :=
  START_MARKER :: escape payload ++ [END_MARKER].

(** *** [sscanf] conversions used by the dispatcher *)

(** [isspace] and [isdigit] of the C locale. *)
Definition isspace (c : ascii) : bool :=
  let n := nat_of_ascii c in ((n =? 32) || ((9 <=? n) && (n <=? 13)))%nat.

Definition isdigit (c : ascii) : bool :=
  let n := nat_of_ascii c in ((48 <=? n) && (n <=? 57))%nat.

Definition digitValue (c : ascii) : Z := Z.of_nat (nat_of_ascii c) - 48.

Fixpoint skipSpaces (s : list ascii) : list ascii :=
  match s with
  | c :: rest => if isspace c then skipSpaces rest else s
  | [] => []
  end.

(** The longest run of decimal digits in front of [s], read in base ten
    after [acc]; the count of digits read is returned as well. *)
Fixpoint scanDigits (acc : Z) (count : nat) (s : list ascii) : Z * nat * list ascii :=
  match s with
  | c :: rest =>
      if isdigit c then scanDigits (10 * acc + digitValue c) (S count) rest
      else (acc, count, s)
  | [] => (acc, count, [])
  end.

Definition scanSign (s : list ascii) : bool * list ascii :=
  match s with
  | c :: rest =>
      if Ascii.eqb c "-" then (true, rest)
      else if Ascii.eqb c "+" then (false, rest)
      else (false, s)
  | [] => (false, [])
  end.

(** The [%d] conversion: leading white space, an optional sign, at least one
    digit.  (Values are taken in the range of [int].) *)
Definition scanInt (s : list ascii) : option (Z * list ascii) :=
  let '(negative, s1) := scanSign (skipSpaces s) in
  let '(n, count, rest) := scanDigits 0 0 s1 in
  if (count =? 0)%nat then None
  else Some (if negative then - n else n, rest).

(** The [%f] conversion on decimal input: sign, digits, an optional
    fraction, an optional exponent; at least one digit in the mantissa. *)
Definition scanExponent (s : list ascii) : Z * list ascii :=
  match s with
  | c :: rest =>
      if Ascii.eqb c "e" || Ascii.eqb c "E" then
        let '(negative, s1) := scanSign rest in
        let '(n, count, s2) := scanDigits 0 0 s1 in
        if (count =? 0)%nat then (0, s) else (if negative then - n else n, s2)
      else (0, s)
  | [] => (0, [])
  end.

Definition scanFloat (s : list ascii) : option (Q * list ascii) :=
  let '(negative, s1) := scanSign (skipSpaces s) in
  let '(whole, count1, s2) := scanDigits 0 0 s1 in
  let '(mantissa, count2, s3) :=
    match s2 with
    | c :: rest =>
        if Ascii.eqb c "." then scanDigits whole 0 rest else (whole, 0%nat, s2)
    | [] => (whole, 0%nat, [])
    end in
  if (count1 + count2 =? 0)%nat then None
  else
    let '(exponent, rest) := scanExponent s3 in
    let magnitude :=
      (inject_Z mantissa * Qpower 10 (exponent - Z.of_nat count2))%Q in
    Some (if negative then (- magnitude)%Q else magnitude, rest).

(** A literal character of a format. *)
Definition scanChar (c : ascii) (s : list ascii) : option (list ascii) :=
  match s with
  | c' :: rest => if Ascii.eqb c c' then Some rest else None
  | [] => None
  end.

(** [sscanf(s, "%d", &a)]: the values assigned, in order; the call returns
    their count (or EOF, which no caller tells from 0). *)
Definition sscanf_d (s : list ascii) : list Z :=
  match scanInt s with
  | Some (a, _) => [a]
  | None => []
  end.

(** [sscanf(s, "%d,%d", &a, &b)] *)
Definition sscanf_d_d (s : list ascii) : list Z :=
  match scanInt s with
  | None => []
  | Some (a, s1) =>
      match scanChar "," s1 ≫= scanInt with
      | Some (b, _) => [a; b]
      | None => [a]
      end
  end.

(** [sscanf(s, "%d,%f,%d,%d", &tagId, &distance, &direction, &desiredSpeed)],
    when all four conversions succeed. *)
Definition sscanf_d_f_d_d (s : list ascii) : option (Z * Q * Z * Z) :=
  '(tagId, s1) ← scanInt s;
  s2 ← scanChar "," s1;
  '(distance, s3) ← scanFloat s2;
  s4 ← scanChar "," s3;
  '(direction, s5) ← scanInt s4;
  s6 ← scanChar "," s5;
  '(desiredSpeed, _) ← scanInt s6;
  Some (tagId, distance, direction, desiredSpeed).

(** *** The command dispatcher *)

(** The position of the first colon of a command. *)
Fixpoint colonPos (cmd : list ascii) : option nat :=
  match cmd with
  | [] => None
  | c :: rest => if Ascii.eqb c ":" then Some 0%nat else S <$> colonPos rest
  end.

(** The split of [parseCommand] into [char command[16]] and
    [char params[COMMAND_BUFFER_SIZE - 16]].  [None] when a copy would run
    over the end of its array, where C leaves the behaviour undefined. *)
Definition splitCommand (cmd : list ascii) : option (string * string) :=
  match colonPos cmd with
  | Some pos =>
      let command := take pos cmd in
      let params := drop (S pos) cmd in
      if (pos <? 16)%nat && (length params <? COMMAND_BUFFER_SIZE - 16)%nat then
        Some (string_of_list_ascii command, string_of_list_ascii params)
      else None
  | None =>
      if (length cmd <? 16)%nat then Some (string_of_list_ascii cmd, EmptyString)
      else None
  end.

Definition print (a : Arg) : M State unit := emit (SerialPrint a).
Definition println (text : string) : M State unit := emit (SerialPrintln (AStr text)).

(** One pulse of [testMotors] through [moveMotor]. *)
Definition testPulse (m : MotorId) (after : Z) : M State unit :=
  moveMotor m FORWARD 60 ;; emit (Delay 300) ;;
  moveMotor m STOP 0 ;; emit (Delay 200) ;;
  moveMotor m BACKWARD 60 ;; emit (Delay 300) ;;
  moveMotor m STOP 0 ;;
  when (0 <? after) (emit (Delay after)).

(** [void testMotors()] *)
Definition testMotors : M State unit :=
  println "<TESTING LEFT MOTOR FORWARD>" ;;
  emit (DigitalWrite motorLeft REN true) ;; emit (DigitalWrite motorLeft LEN true) ;;
  emit (AnalogWrite motorLeft RPWM 60) ;; emit (AnalogWrite motorLeft LPWM 0) ;;
  emit (Delay 300) ;;
  emit (AnalogWrite motorLeft RPWM 0) ;; emit (AnalogWrite motorLeft LPWM 0) ;;
  emit (Delay 500) ;;
  println "<TESTING LEFT MOTOR BACKWARD>" ;;
  emit (DigitalWrite motorLeft REN true) ;; emit (DigitalWrite motorLeft LEN true) ;;
  emit (AnalogWrite motorLeft RPWM 0) ;; emit (AnalogWrite motorLeft LPWM 60) ;;
  emit (Delay 300) ;;
  emit (AnalogWrite motorLeft RPWM 0) ;; emit (AnalogWrite motorLeft LPWM 0) ;;
  emit (Delay 500) ;;
  println "<TESTING LEFT MOTOR WITH MOVEMOTOR>" ;;
  testPulse motorLeft 500 ;;
  println "<TESTING RIGHT MOTOR>" ;;
  testPulse motorRight 500 ;;
  println "<TESTING BACK MOTOR>" ;;
  testPulse motorBack 0 ;;
  println "<MOTOR TEST COMPLETE>" ;;
  println "<INFO:DEBUG mode can be activated with command 'DEBUG:1'>" ;;
  println "<INFO:DEBUG mode can be deactivated with command 'DEBUG:0'>".

(** The clearance tests of the [STOP]/[CLEAR] handler. *)
Definition frontClear (d : Distances) : bool :=
  Qltb SAFE_DISTANCE (distF d) && Qltb SAFE_DISTANCE (distFL d)
  && Qltb SAFE_DISTANCE (distFR d).
Definition backClear (d : Distances) : bool :=
  Qltb SAFE_DISTANCE (distB d) && Qltb SAFE_DISTANCE (distBL d)
  && Qltb SAFE_DISTANCE (distBR d).
Definition leftClear (d : Distances) : bool :=
  Qltb SAFE_DISTANCE (distFL d) && Qltb SAFE_DISTANCE (distBL d).
Definition rightClear (d : Distances) : bool :=
  Qltb SAFE_DISTANCE (distFR d) && Qltb SAFE_DISTANCE (distBR d).

Definition set_flags (front back left right : bool) (i : Interlocks) : Interlocks :=
  {| masterOverrideActive := masterOverrideActive i;
     emergencyStop := emergencyStop i;
     frontEmergencyStop := front; backEmergencyStop := back;
     leftEmergencyStop := left; rightEmergencyStop := right;
     overridePinLow := overridePinLow i |}.

Definition set_emergencyStop (b : bool) (i : Interlocks) : Interlocks :=
  {| masterOverrideActive := masterOverrideActive i;
     emergencyStop := b;
     frontEmergencyStop := frontEmergencyStop i;
     backEmergencyStop := backEmergencyStop i;
     leftEmergencyStop := leftEmergencyStop i;
     rightEmergencyStop := rightEmergencyStop i;
     overridePinLow := overridePinLow i |}.

(** "Check each direction individually": every raised flag whose sensor
    group reads beyond [SAFE_DISTANCE] is lowered; the result tells whether
    any was. *)
Definition clearAll : M State bool :=
  s <- get ;;
  let d := distances s in
  let i := interlocks s in
  let debug := DEBUG_MODE (config s) in
  let front := frontEmergencyStop i && frontClear d in
  let back := backEmergencyStop i && backClear d in
  let left := leftEmergencyStop i && leftClear d in
  let right := rightEmergencyStop i && rightClear d in
  when (front && debug) (println "<CLEARED:FRONT_EMERGENCY>") ;;
  when (back && debug) (println "<CLEARED:BACK_EMERGENCY>") ;;
  when (left && debug) (println "<CLEARED:LEFT_EMERGENCY>") ;;
  when (right && debug) (println "<CLEARED:RIGHT_EMERGENCY>") ;;
  modify (set_interlocks
            (set_flags (frontEmergencyStop i && negb front)
                       (backEmergencyStop i && negb back)
                       (leftEmergencyStop i && negb left)
                       (rightEmergencyStop i && negb right) i)) ;;
  ret (front || back || left || right).

(** The [STOP] / [CLEAR] handler. *)
Definition handleStop `{Collaborators} (params : string) : M State unit :=
  stopAllMotors ;;
  s <- get ;;
  let d := distances s in
  let i := interlocks s in
  let debug := DEBUG_MODE (config s) in
  (match params with
   | EmptyString =>
       clearedAny <- clearAll ;;
       if clearedAny then println "<ACK:STOP:EMERGENCY_PARTLY_CLEARED>"
       else if emergencyStop i then println "<ACK:STOP:EMERGENCY_ACTIVE>"
       else println "<ACK:STOP>"
   | _ =>
       if String.eqb params "FRONT" && frontClear d then
         modify (set_interlocks
                   (set_flags false (backEmergencyStop i) (leftEmergencyStop i)
                              (rightEmergencyStop i) i)) ;;
         when debug (println "<CLEARED:FRONT_EMERGENCY>")
       else if String.eqb params "BACK" && backClear d then
         modify (set_interlocks
                   (set_flags (frontEmergencyStop i) false (leftEmergencyStop i)
                              (rightEmergencyStop i) i)) ;;
         when debug (println "<CLEARED:BACK_EMERGENCY>")
       else if String.eqb params "LEFT" && leftClear d then
         modify (set_interlocks
                   (set_flags (frontEmergencyStop i) (backEmergencyStop i) false
                              (rightEmergencyStop i) i)) ;;
         when debug (println "<CLEARED:LEFT_EMERGENCY>")
       else if String.eqb params "RIGHT" && rightClear d then
         modify (set_interlocks
                   (set_flags (frontEmergencyStop i) (backEmergencyStop i)
                              (leftEmergencyStop i) false i)) ;;
         when debug (println "<CLEARED:RIGHT_EMERGENCY>")
       else if String.eqb params "ALL" then
         clearedAny <- clearAll ;;
         if clearedAny then println "<ACK:STOP:EMERGENCY_PARTLY_CLEARED>"
         else println "<ACK:STOP:NO_CHANGE>"
       else println "<ERR:Invalid CLEAR direction>"
   end) ;;
  modify (fun s =>
            let i := interlocks s in
            set_interlocks
              (set_emergencyStop
                 (frontEmergencyStop i || backEmergencyStop i
                  || leftEmergencyStop i || rightEmergencyStop i) i) s).

(** The [SPEED] handler. *)
Definition handleSpeed (params : string) : M State unit :=
  match sscanf_d_d (list_ascii_of_string params) with
  | [max_speed; min_speed] =>
      let maxSpeed := constrain max_speed 50 255 in
      let minSpeed := constrain min_speed 30 (maxSpeed - 5) in
      modify (fun s => set_config (set_speeds maxSpeed minSpeed (config s)) s) ;;
      print (AStr "<ACK:SPEED:") ;;
      print (AInt maxSpeed) ;;
      print (AStr ",") ;;
      print (AInt minSpeed) ;;
      println ">"
  | _ => println "<ERR:Invalid SPEED params>"
  end.

(** The [MOV] handler. *)
Definition handleMov `{Collaborators} (params : string) : M State unit :=
  match sscanf_d_d (list_ascii_of_string params) with
  | [direction; speed] =>
      executeMovement direction speed ;;
      println "<ACK:MOV>"
  | _ => println "<ERR:Invalid MOV params>"
  end.

(** The [ROT] handler. *)
Definition handleRot `{Collaborators} (params : string) : M State unit :=
  match sscanf_d_d (list_ascii_of_string params) with
  | [direction; speed] =>
      s <- get ;;
      let speed := constrain speed (MIN_SPEED (config s)) MAX_ROTATION_SPEED in
      if direction =? 1 then
        rotateLeft speed ;; println "<ACK:ROT:LEFT>"
      else if direction =? 2 then
        rotateRight speed ;; println "<ACK:ROT:RIGHT>"
      else
        stopAllMotors ;; println "<ERR:Invalid rotation direction>"
  | _ => println "<ERR:Invalid ROT params>"
  end.

Definition printDistances : M State unit :=
  s <- get ;;
  let d := distances s in
  print (AFloat (distFL d)) ;; print (AStr ",") ;;
  print (AFloat (distF d)) ;; print (AStr ",") ;;
  print (AFloat (distFR d)) ;; print (AStr ",") ;;
  print (AFloat (distBL d)) ;; print (AStr ",") ;;
  print (AFloat (distB d)) ;; print (AStr ",") ;;
  print (AFloat (distBR d)) ;;
  println ">".

(** The [MODE] handler. *)
Definition handleMode (params : string) : M State unit :=
  match sscanf_d (list_ascii_of_string params) with
  | [mode] =>
      if (mode =? 0) || (mode =? 1) then
        modify (fun s => set_config (set_useThreeWheels (mode =? 1) (config s)) s) ;;
        print (AStr "<ACK:MODE:") ;;
        print (AStr (if mode =? 1 then "THREE_WHEEL" else "TWO_WHEEL")) ;;
        println ">"
      else println "<ERR:Invalid mode value (use 0 or 1)>"
  | _ => println "<ERR:Invalid MODE param>"
  end.

Definition enabledText (b : bool) : string := if b then "ENABLED" else "DISABLED".

(** The [DEBUG] handler. *)
Definition handleDebug (params : string) : M State unit :=
  match sscanf_d (list_ascii_of_string params) with
  | [mode] =>
      modify (fun s => set_config (set_DEBUG_MODE (mode =? 1) (config s)) s) ;;
      print (AStr "<ACK:DEBUG:") ;;
      print (AStr (enabledText (mode =? 1))) ;;
      println ">" ;;
      when (mode =? 1)
        (s <- get ;;
         let d := distances s in
         let i := interlocks s in
         println "<DEBUG:Module information>" ;;
         println "<DEBUG:===================>" ;;
         debugPrintArg
           (AFmt "Distances: FL=%.1f F=%.1f FR=%.1f BL=%.1f B=%.1f BR=%.1f"
                 [VFloat (distFL d); VFloat (distF d); VFloat (distFR d);
                  VFloat (distBL d); VFloat (distB d); VFloat (distBR d)]) ;;
         debugPrintArg
           (AFmt "Emergency: F=%d B=%d L=%d R=%d"
                 [VBool (frontEmergencyStop i); VBool (backEmergencyStop i);
                  VBool (leftEmergencyStop i); VBool (rightEmergencyStop i)]) ;;
         debugPrint (if masterOverrideActive i then "MASTER_OVERRIDE:ACTIVE"
                     else "MASTER_OVERRIDE:INACTIVE") ;;
         debugPrint (if useThreeWheels (config s) then "MODE:THREE_WHEEL"
                     else "MODE:TWO_WHEEL") ;;
         debugPrint (if enableObstacleAvoidance (config s)
                     then "OBSTACLE_AVOIDANCE:ENABLED"
                     else "OBSTACLE_AVOIDANCE:DISABLED") ;;
         debugPrintArg
           (AFmt "OVERRIDE_PIN_STATE:%s"
                 [VStr (if overridePinLow i then "LOW(ACTIVE)"
                        else "HIGH(INACTIVE)")]))
  | _ =>
      s <- get ;;
      print (AStr "<ACK:DEBUG_STATUS:") ;;
      print (AStr (enabledText (DEBUG_MODE (config s)))) ;;
      println ">"
  end.

(** The [AVOID] handler. *)
Definition handleAvoid (params : string) : M State unit :=
  match sscanf_d (list_ascii_of_string params) with
  | [mode] =>
      modify (fun s => set_config (set_enableObstacleAvoidance (mode =? 1) (config s)) s) ;;
      s <- get ;;
      when (negb (isIdle (avoidanceState (avoidance s)))) (modify resetAvoidance) ;;
      print (AStr "<ACK:AVOID:") ;;
      print (AStr (enabledText (mode =? 1))) ;;
      println ">" ;;
      debugPrint
        (if mode =? 1
         then "OBSTACLE_AVOIDANCE:ENABLED - Robot will try to navigate around obstacles"
         else "OBSTACLE_AVOIDANCE:DISABLED - Robot will stop at obstacles")
  | _ =>
      s <- get ;;
      print (AStr "<ACK:AVOID_STATUS:") ;;
      print (AStr (enabledText (enableObstacleAvoidance (config s)))) ;;
      println ">"
  end.

(** The [STATUS] handler. *)
Definition handleStatus : M State unit :=
  s <- get ;;
  let i := interlocks s in
  print (AStr "<ACK:STATUS:") ;;
  (if frontEmergencyStop i || backEmergencyStop i
      || leftEmergencyStop i || rightEmergencyStop i then
     print (AStr "EMERGENCY:") ;;
     print (AStr (if frontEmergencyStop i then "F" else "")) ;;
     print (AStr (if backEmergencyStop i then "B" else "")) ;;
     print (AStr (if leftEmergencyStop i then "L" else "")) ;;
     print (AStr (if rightEmergencyStop i then "R" else ""))
   else print (AStr "NORMAL")) ;;
  print (AStr ":") ;;
  printDistances.

(** The [TAG] handler. *)
Definition handleTag `{Collaborators} (now : Z) (params : string) : M State unit :=
  match sscanf_d_f_d_d (list_ascii_of_string params) with
  | Some (tagId, distance, direction, desiredSpeed) =>
      modify (set_lastTagUpdate now) ;;
      s <- get ;;
      when (DEBUG_MODE (config s))
        (print (AStr "<TAG:ID=") ;; print (AInt tagId) ;;
         print (AStr ",D=") ;; print (AFloat distance) ;;
         print (AStr ",desiredSpeed=") ;; print (AInt desiredSpeed) ;;
         println ">") ;;
      executeMovement direction desiredSpeed ;;
      println "<ACK:TAG>"
  | None => println "<ERR:Invalid TAG params>"
  end.

Definition unknownCommand (command : string) : M State unit :=
  print (AStr "<ERR:Unknown command ") ;;
  print (AStr command) ;;
  println ">".

(** The single-character teleoperation keys. *)
Definition handleKey `{Collaborators} (key : ascii) (command : string) : M State unit :=
  s <- get ;;
  let top := MAX_SPEED (config s) in
  if Ascii.eqb key "W" then executeMovement 1 top ;; println "<ACK:FORWARD>"
  else if Ascii.eqb key "S" then executeMovement 2 top ;; println "<ACK:BACKWARD>"
  else if Ascii.eqb key "A" then executeMovement 3 top ;; println "<ACK:ARC_LEFT>"
  else if Ascii.eqb key "D" then executeMovement 4 top ;; println "<ACK:ARC_RIGHT>"
  else if Ascii.eqb key "Q" then executeMovement 5 top ;; println "<ACK:ROTATE_LEFT>"
  else if Ascii.eqb key "E" then executeMovement 6 top ;; println "<ACK:ROTATE_RIGHT>"
  else if Ascii.eqb key "4" then executeMovement 7 top ;; println "<ACK:SLIDE_LEFT>"
  else if Ascii.eqb key "6" then executeMovement 8 top ;; println "<ACK:SLIDE_RIGHT>"
  else if Ascii.eqb key "7" then executeMovement 9 top ;; println "<ACK:DIAG_FORWARD_LEFT>"
  else if Ascii.eqb key "9" then executeMovement 10 top ;; println "<ACK:DIAG_FORWARD_RIGHT>"
  else if Ascii.eqb key "1" then executeMovement 11 top ;; println "<ACK:DIAG_BACKWARD_LEFT>"
  else if Ascii.eqb key "3" then executeMovement 12 top ;; println "<ACK:DIAG_BACKWARD_RIGHT>"
  else if Ascii.eqb key "5" then executeMovement 0 0 ;; println "<ACK:STOP>"
  else unknownCommand command.

(** The chain of [strcmp] tests of [parseCommand] on the split command. *)
Definition dispatch `{Collaborators} (now : Z) (command params : string)
  : M State unit :=
  if String.eqb command "TEST" then testMotors ;; println "<ACK:TEST>"
  else if String.eqb command "PING" then println "<ACK:PING>"
  else if String.eqb command "STOP" || String.eqb command "CLEAR" then handleStop params
  else if String.eqb command "MOV" then handleMov params
  else if String.eqb command "ROT" then handleRot params
  else if String.eqb command "SPEED" then handleSpeed params
  else if String.eqb command "SENS" then print (AStr "<ACK:SENS:") ;; printDistances
  else if String.eqb command "MODE" then handleMode params
  else if String.eqb command "DEBUG" then handleDebug params
  else if String.eqb command "AVOID" then handleAvoid params
  else if String.eqb command "I2C" then
    s <- get ;;
    print (AStr "<ACK:I2C:") ;;
    print (AStr (if masterOverrideActive (interlocks s) then "OVERRIDE_ACTIVE" else "NORMAL")) ;;
    println ">"
  else if String.eqb command "STATUS" then handleStatus
  else if String.eqb command "TAG" then handleTag now params
  else
    match command with
    | String key EmptyString => handleKey key command
    | _ => unknownCommand command
    end.

(** [void parseCommand(const char *cmd)]: the echo in verbose mode, the
    split, the dispatch.  [None] where the split is undefined. *)
Definition parseCommand `{Collaborators} (now : Z) (cmd : list ascii)
  : option (M State unit) :=
  let text := c_str cmd in
  '(command, params) ← splitCommand text;
  Some (s <- get ;;
        when (DEBUG_MODE (config s))
          (print (AStr "Received command: ") ;;
           println (string_of_list_ascii text)) ;;
        dispatch now command params).

(** A run of commands as they come out of the serial parser. *)
Fixpoint runCommands `{Collaborators} (now : Z) (cmds : list string)
  : option (M State unit) :=
  match cmds with
  | [] => Some (ret tt)
  | cmd :: rest =>
      first ← parseCommand now (list_ascii_of_string cmd);
      others ← runCommands now rest;
      Some (first ;; others)
  end.

(** One pass of [loop()] over the serial port: [processSerialInput] on the
    bytes that wait, every command it completes dispatched in turn. *)
Definition serviceSerial `{Collaborators} (now : Z) (input : list ascii)
  (p : Parser) : option (M State Parser) :=
  let '(p1, stale) := refreshBuffer now p in
  let '(p2, cmds) := serialLoop input p1 in
  runs ← mapM (parseCommand now) cmds;
  Some (when stale (debugPrint "BUFFER_TIMEOUT_RESET") ;;
        foldr (fun run rest => run ;; rest) (ret tt) runs ;;
        ret p2).

(** Stand-ins for the absent routines, for running command traces that
    never reach them: avoidance that reports it has concluded, and
    deceleration that does nothing. *)
Definition inertCollaborators : Collaborators :=
  {| navigateAroundObstacle := fun _ => ret true;
     continueObstacleAvoidance := ret true;
     startSmoothDeceleration := ret tt;
     handleSmoothDeceleration := ret tt;
     emergencyStopAllMotors := ret tt |}.

(** The globals after the first sensor sweep with nothing in range: every
    read times out and yields [SAFE_DISTANCE * 1.5]. *)
Definition clearDistances : Distances :=
  {| distFL := 90; distF := 90; distFR := 90;
     distBL := 90; distB := 90; distBR := 90 |}.

Definition readyState : State := set_distances clearDistances initState.

End Integrated.

(** ** The distance sensors of the integrated controller *)

Module Sensing.
Import Arduino Integrated.
Local Open Scope monad_scope.

(** One call of [readUltrasonicDistance] makes up to three attempts; each
    field is the pulse width [pulseIn] reports for an attempt, in
    microseconds ([0] on time-out).  The trigger pulses on the sensor pins
    and the settling delays are neither wheel nor serial outputs and leave
    no event. *)
Record Echo : Type := { pulse1 : Z; pulse2 : Z; pulse3 : Z }.

(** The body of the [for] loop: the distance of a valid attempt. *)
Definition attempt (pulse : Z) : option Q :=
  let duration := inject_Z pulse in
  if Qltb 0 duration then
    let distance := (duration * 0.0343 / 2)%Q in
    if Qle_bool 2 distance && Qle_bool distance 400 then Some distance else None
  else None.

(** [float readUltrasonicDistance(int trigPin, int echoPin)] *)
Definition readUltrasonicDistance (e : Echo) : Q :=
  match attempt (pulse1 e) with
  | Some distance => distance
  | None =>
      match attempt (pulse2 e) with
      | Some distance => distance
      | None =>
          match attempt (pulse3 e) with
          | Some distance => distance
          | None => (SAFE_DISTANCE * 1.5)%Q
          end
      end
  end.

(** [float filterReading(float prevValue, float newValue, int trigPin,
    int echoPin)]; [verify] is what the sensor answers if the filter reads
    it again. *)
Definition filterReading (prevValue newValue : Q) (verify : Echo) : Q :=
  if Qltb (prevValue * 0.5)%Q (absf (newValue - prevValue)%Q)
     && Qltb newValue SAFE_DISTANCE then
    let verifyValue := readUltrasonicDistance verify in
    if Qltb (absf (verifyValue - newValue)%Q) (absf (verifyValue - prevValue)%Q)
    then newValue
    else prevValue
  else newValue.

Inductive Sensor : Set :=
  sensorFL | sensorF | sensorFR | sensorBL | sensorB | sensorBR.

(** What the six sensors answer during one call of [updateDistances]: to
    the first read of each, and to the verifying read of the filter. *)
Record Sweep : Type := { reading : Sensor -> Echo; verifying : Sensor -> Echo }.

(** The function-local statics of [updateDistances]. *)
Record SensorMemory : Type := { previous : Distances; lastCriticalCheck : Z }.

Definition initMemory : SensorMemory :=
  {| previous :=
       {| distFL := SAFE_DISTANCE; distF := SAFE_DISTANCE; distFR := SAFE_DISTANCE;
          distBL := SAFE_DISTANCE; distB := SAFE_DISTANCE; distBR := SAFE_DISTANCE |};
     lastCriticalCheck := 0 |}.

Definition critical (d : Q) : bool := Qltb d CRITICAL_DISTANCE.

(** The [String criticalSensors] of the debug line. *)
Definition criticalSensors (new : Sensor -> Q) : string :=
  ((if critical (new sensorFL) then "FL " else "")
   ++ (if critical (new sensorF) then "F " else "")
   ++ (if critical (new sensorFR) then "FR " else "")
   ++ (if critical (new sensorBL) then "BL " else "")
   ++ (if critical (new sensorB) then "B " else "")
   ++ (if critical (new sensorBR) then "BR" else ""))%string.

(** [void updateDistances()] at time [now]; the value is the statics
    afterwards. *)
Definition updateDistances (now : Z) (w : Sweep) (mem : SensorMemory)
  : M State SensorMemory :=
  let new (x : Sensor) := readUltrasonicDistance (reading w x) in
  s <- get ;;
  let check :=
    DEBUG_MODE (config s) && (1000 <? elapsed now (lastCriticalCheck mem)) in
  when (check
        && (critical (new sensorF) || critical (new sensorFL)
            || critical (new sensorFR) || critical (new sensorB)
            || critical (new sensorBL) || critical (new sensorBR)))
    (debugPrintArg (AFmt "CRITICAL_DISTANCE:%s" [VStr (criticalSensors new)])) ;;
  let filtered (prev : Q) (x : Sensor) := filterReading prev (new x) (verifying w x) in
  let d :=
    {| distFL := filtered (distFL (previous mem)) sensorFL;
       distF := filtered (distF (previous mem)) sensorF;
       distFR := filtered (distFR (previous mem)) sensorFR;
       distBL := filtered (distBL (previous mem)) sensorBL;
       distB := filtered (distB (previous mem)) sensorB;
       distBR := filtered (distBR (previous mem)) sensorBR |} in
  modify (set_distances d) ;;
  ret {| previous := d;
         lastCriticalCheck := if check then now else lastCriticalCheck mem |}.

End Sensing.

(** ** The coordination bus of the integrated controller *)

Module Bus.
Import Arduino Integrated.
Local Open Scope monad_scope.

Definition MY_ADDR : Z := 4.
Definition MASTER_ADDR : Z := 1.
Definition ASK_READY_CMD : Z := 3.
Definition TELL_READY_CMD : Z := 28.
Definition GO_IDLE_CMD : Z := 23.
Definition GO_ACTIVE_CMD : Z := 24.

(** Conversion to [uint8_t]. *)
Definition uint8 (z : Z) : Z := z mod 256.

(** [message >> 5] and [message & 0b00011111] *)
Definition destOf (message : Z) : Z := Z.shiftr message 5.
Definition cmdOf (message : Z) : Z := Z.land message 31.

(** [(addr << 5) | cmd], stored in a [uint8_t] *)
Definition busByte (addr cmd : Z) : Z := uint8 (Z.lor (Z.shiftl addr 5) cmd).

Definition set_masterOverrideActive (b : bool) (s : State) : State :=
  let i := interlocks s in
  set_interlocks
    {| masterOverrideActive := b;
       emergencyStop := emergencyStop i;
       frontEmergencyStop := frontEmergencyStop i;
       backEmergencyStop := backEmergencyStop i;
       leftEmergencyStop := leftEmergencyStop i;
       rightEmergencyStop := rightEmergencyStop i;
       overridePinLow := overridePinLow i |} s.

(** [void receiveEvent(int howMany)]: [received] is the byte [Wire.read()]
    returns when one is available; the value is the list of bytes written
    to the bus. *)
Definition receiveEvent `{Collaborators} (moduleReady : bool) (received : option Z)
  : M State (list Z) :=
  match received with
  | None => ret []
  | Some byte =>
      let message := uint8 byte in
      let dest := destOf message in
      let cmd := cmdOf message in
      if negb (dest =? MY_ADDR) then ret []
      else if cmd =? ASK_READY_CMD then
        if moduleReady then
          debugPrint "I2C:SENT_READY_STATUS" ;;
          ret [busByte MASTER_ADDR TELL_READY_CMD]
        else ret []
      else if cmd =? GO_IDLE_CMD then
        modify (set_masterOverrideActive true) ;;
        stopAllMotors ;;
        debugPrint "LOCALIZATION_MODULE:ENTERED_IDLE_MODE" ;;
        ret []
      else if cmd =? GO_ACTIVE_CMD then
        modify (set_masterOverrideActive false) ;;
        debugPrint "LOCALIZATION_MODULE:ENTERED_ACTIVE_MODE" ;;
        ret []
      else
        debugPrintArg (AFmt "LOCALIZATION_MODULE:UNKNOWN_CMD:%d" [VInt cmd]) ;;
        ret []
  end.

(** [void requestEvent()]: the value is the byte written. *)
Definition requestEvent (moduleReady : bool) : M State Z :=
  s <- get ;;
  let response :=
    if moduleReady && negb (masterOverrideActive (interlocks s))
    then busByte MASTER_ADDR TELL_READY_CMD
    else 0 in
  debugPrint "I2C:REQUEST_EVENT_HANDLED" ;;
  ret response.

(** [void checkOverridePin()]: the value is [prevMasterOverrideState]
    afterwards. *)
Definition checkOverridePin `{Collaborators} (prevMasterOverrideState : bool)
  : M State bool :=
  s <- get ;;
  let overrideActive := overridePinLow (interlocks s) in
  if negb (Bool.eqb overrideActive (masterOverrideActive (interlocks s))) then
    (if overrideActive then
       modify (set_masterOverrideActive true) ;;
       stopAllMotors ;;
       debugPrint "PIN:OVERRIDE_ACTIVE"
     else
       modify (set_masterOverrideActive false) ;;
       debugPrint "PIN:OVERRIDE_RELEASED") ;;
    ret overrideActive
  else ret prevMasterOverrideState.

End Bus.

(** ** Sensors and tag data of the tag-tracking sketch *)

Module TrackingIO.
Import Arduino Tracking.
Local Open Scope monad_scope.

(** [float readDistance(int trigPin, int echoPin)], on the pulse width
    [pulseIn] reports ([0] on time-out). *)
Definition readDistance (pulse : Z) : Q :=
  if pulse <=? 0 then 400%Q
  else constrainf (inject_Z pulse * 0.034 / 2)%Q 0.1 400.

(** The pulse widths of one sweep over the six sensors. *)
Record Pulses : Type := {
  pulseFL : Z; pulseF : Z; pulseFR : Z;
  pulseBL : Z; pulseB : Z; pulseBR : Z }.

(** [if (dist >= 400.0) dist = 400.0;] *)
Definition capReading (d : Q) : Q := if Qle_bool 400 d then 400%Q else d.

Definition set_sensors (fl f fr bl b br : Q) (stop : bool) (s : State) : State :=
  {| MAX_SPEED := MAX_SPEED s; MIN_SPEED := MIN_SPEED s;
     distFL := fl; distF := f; distFR := fr;
     distBL := bl; distB := b; distBR := br;
     emergencyStop := stop;
     lastTagUpdate := lastTagUpdate s;
     leftMotor := leftMotor s; rightMotor := rightMotor s;
     backMotor := backMotor s;
     tagController := tagController s |}.

Definition set_lastTagUpdate (t : Z) (s : State) : State :=
  {| MAX_SPEED := MAX_SPEED s; MIN_SPEED := MIN_SPEED s;
     distFL := distFL s; distF := distF s; distFR := distFR s;
     distBL := distBL s; distB := distB s; distBR := distBR s;
     emergencyStop := emergencyStop s;
     lastTagUpdate := t;
     leftMotor := leftMotor s; rightMotor := rightMotor s;
     backMotor := backMotor s;
     tagController := tagController s |}.

(** [void updateDistances()] *)
Definition updateDistances (p : Pulses) : M State unit :=
  let fl := capReading (readDistance (pulseFL p)) in
  let f := capReading (readDistance (pulseF p)) in
  let fr := capReading (readDistance (pulseFR p)) in
  let bl := capReading (readDistance (pulseBL p)) in
  let b := capReading (readDistance (pulseB p)) in
  let br := capReading (readDistance (pulseBR p)) in
  let stop :=
    Qltb f CRITICAL_DISTANCE || Qltb fl CRITICAL_DISTANCE
    || Qltb fr CRITICAL_DISTANCE || Qltb b CRITICAL_DISTANCE
    || Qltb bl CRITICAL_DISTANCE || Qltb br CRITICAL_DISTANCE in
  modify (set_sensors fl f fr bl b br stop) ;;
  when stop (emit (SerialPrintln (AStr "EMERGENCY STOP - OBSTACLE DETECTED"))).

(** [void AprilTagController::reset()] at time [now]. *)
Definition reset (now : Z) : M State unit :=
  modify (set_tagController
            {| currentState := IDLE; tagVisible := false;
               targetX := 0; targetY := 0; targetYaw := 0;
               currentX := 0; currentY := 0; currentYaw := 0;
               integralError := 0; lastError := 0; lastPIDUpdate := now |}).

(** [bool AprilTagController::isActive()] at time [now]. *)
Definition isActive (now : Z) (s : State) : bool :=
  tagVisible (tagController s) && (elapsed now (lastTagUpdate s) <=? TAG_TIMEOUT).

(** [void AprilTagController::updateTagData(float x, float y, float yaw)]
    at time [now]. *)
Definition updateTagData (now : Z) (x y yaw : Q) : M State unit :=
  modify (fun s =>
            let c := tagController s in
            set_lastTagUpdate now
              (set_tagController
                 {| currentState :=
                      match currentState c with
                      | IDLE => MOVING_TO_TAG
                      | state => state
                      end;
                    tagVisible := true;
                    targetX := x; targetY := y; targetYaw := yaw;
                    currentX := currentX c; currentY := currentY c;
                    currentYaw := currentYaw c;
                    integralError := integralError c; lastError := lastError c;
                    lastPIDUpdate := lastPIDUpdate c |} s)).

(** The control step of [loop()]: the body of
    [if (now - lastControlLoop >= CONTROL_LOOP_INTERVAL)]. *)
Definition controlStep `{MathLib} (now : Z) : M State unit :=
  s <- get ;;
  if emergencyStop s then stopAllMotors else processMovement now.

End TrackingIO.

(** * Properties *)

(** ** Arithmetic of the Arduino macros *)

Section MacroFacts.
Import Arduino.
Local Open Scope Q_scope.

Lemma Qltb_lt (x y : Q) : Qltb x y = true <-> x < y.
Proof.
  unfold Qltb. rewrite negb_true_iff. split.
  - intros E. apply Qnot_le_lt. intros L. apply Qle_bool_iff in L. congruence.
  - intros L. destruct (Qle_bool y x) eqn:E; [|reflexivity].
    apply Qle_bool_iff in E. lra.
Qed.

Lemma Qltb_ge (x y : Q) : Qltb x y = false <-> y <= x.
Proof.
  unfold Qltb. rewrite negb_false_iff. apply Qle_bool_iff.
Qed.


Lemma minf_cases (a b : Q) :
  (a < b /\ minf a b = a) \/ (b <= a /\ minf a b = b).
Proof.
  unfold minf. destruct (Qltb a b) eqn:E.
  - left. split; [now apply Qltb_lt | reflexivity].
  - right. split; [now apply Qltb_ge | reflexivity].
Qed.

Lemma maxf_cases (a b : Q) :
  (b < a /\ maxf a b = a) \/ (a <= b /\ maxf a b = b).
Proof.
  unfold maxf. destruct (Qltb b a) eqn:E.
  - left. split; [now apply Qltb_lt | reflexivity].
  - right. split; [now apply Qltb_ge | reflexivity].
Qed.

Lemma absf_cases (x : Q) :
  (0 < x /\ absf x = x) \/ (x <= 0 /\ absf x = - x).
Proof.
  unfold absf. destruct (Qltb 0 x) eqn:E.
  - left. split; [now apply Qltb_lt | reflexivity].
  - right. split; [now apply Qltb_ge | reflexivity].
Qed.

Lemma constrainf_cases (x lo hi : Q) :
  (x < lo /\ constrainf x lo hi = lo)
  \/ (lo <= x /\ hi < x /\ constrainf x lo hi = hi)
  \/ (lo <= x /\ x <= hi /\ constrainf x lo hi = x).
Proof.
  unfold constrainf. destruct (Qltb x lo) eqn:E.
  - left. split; [now apply Qltb_lt | reflexivity].
  - apply Qltb_ge in E. destruct (Qltb hi x) eqn:F.
    + right. left. apply Qltb_lt in F. auto.
    + right. right. apply Qltb_ge in F. auto.
Qed.

Lemma minf_lt_iff (a b c : Q) : minf a b < c <-> a < c \/ b < c.
Proof.
  destruct (minf_cases a b) as [[L ->]|[L ->]]; split.
  - auto.
  - intros [H|H]; lra.
  - auto.
  - intros [H|H]; lra.
Qed.

Lemma absf_nonneg (x : Q) : 0 <= absf x.
Proof. destruct (absf_cases x) as [[L ->]|[L ->]]; lra. Qed.

Lemma absf_bound (x : Q) : - absf x <= x /\ x <= absf x.
Proof. destruct (absf_cases x) as [[L ->]|[L ->]]; lra. Qed.

Lemma constrain_between (x lo hi : Z) :
  (lo <= hi)%Z -> (lo <= constrain x lo hi <= hi)%Z.
Proof.
  intros L. unfold constrain.
  destruct (Z.ltb_spec x lo); [lia|]. destruct (Z.ltb_spec hi x); lia.
Qed.

Lemma constrain_upper (x lo hi bound : Z) :
  (lo <= bound)%Z -> (hi <= bound)%Z -> (constrain x lo hi <= bound)%Z.
Proof.
  intros L H. unfold constrain.
  destruct (Z.ltb_spec x lo); [lia|]. destruct (Z.ltb_spec hi x); lia.
Qed.

Lemma constrain_lower (x lo hi bound : Z) :
  (bound <= lo)%Z -> (bound <= hi)%Z -> (bound <= constrain x lo hi)%Z.
Proof.
  intros L H. unfold constrain.
  destruct (Z.ltb_spec x lo); [lia|]. destruct (Z.ltb_spec hi x); lia.
Qed.

(** Truncation toward zero keeps a value between two integer bounds. *)
Lemma truncate_between (x : Q) (lo hi : Z) :
  (lo <= 0)%Z -> (0 <= hi)%Z ->
  inject_Z lo <= x -> x <= inject_Z hi ->
  (lo <= truncate x <= hi)%Z.
Proof.
  destruct x as [n d]. unfold truncate, Qle, inject_Z. simpl.
  intros Hlo Hhi L U. rewrite Z.mul_1_r in L, U.
  assert (P : (0 < Z.pos d)%Z) by lia.
  destruct (Z.le_gt_cases 0 n) as [N|N].
  - rewrite Z.quot_div_nonneg by lia. split.
    + apply Z.le_trans with 0%Z; [lia|]. apply Z.div_pos; lia.
    + apply Z.div_le_upper_bound; lia.
  - assert (E : Z.quot n (Z.pos d) = (- Z.quot (- n) (Z.pos d))%Z).
    { rewrite Z.quot_opp_l by lia. lia. }
    rewrite E. rewrite Z.quot_div_nonneg by lia. split.
    + assert (((- n) / Z.pos d <= - lo)%Z); [|lia].
      apply Z.div_le_upper_bound; lia.
    + assert ((0 <= (- n) / Z.pos d)%Z); [|lia]. apply Z.div_pos; lia.
Qed.

Lemma truncate_inject_Z (z : Z) : truncate (inject_Z z) = z.
Proof. unfold truncate, inject_Z. simpl. apply Z.quot_1_r. Qed.

End MacroFacts.

(** ** The dynamic safety speed *)

Section DynamicSpeed.
Import Arduino.
Local Open Scope Q_scope.










End DynamicSpeed.

(** ** The three-wheel holonomic mapper *)

Section Holonomic.
Import Arduino.
Local Open Scope Q_scope.

Lemma constrainf_inside (x lo hi : Q) :
  lo <= x -> x <= hi -> constrainf x lo hi = x.
Proof.
  intros L H. destruct (constrainf_cases x lo hi) as [[A _]|[(_ & A & _)|(_ & _ & E)]];
    [lra | lra | exact E].
Qed.

(** [maxMagnitude] is the largest of the three magnitudes. *)
Lemma maxMagnitude_spec (l r b : Q) :
  let m := Tracking.maxMagnitude (l, r, b) in
  absf l <= m /\ absf r <= m /\ absf b <= m
  /\ (m = absf l \/ m = absf r \/ m = absf b).
Proof.
  unfold Tracking.maxMagnitude.
  destruct (maxf_cases (absf r) (absf b)) as [[L1 ->]|[L1 ->]];
    match goal with
    | |- context [maxf ?x ?y] =>
        destruct (maxf_cases x y) as [[L2 ->]|[L2 ->]]
    end; repeat split; auto; lra.
Qed.

Lemma absf_div_le_1 (x m : Q) : 0 < m -> absf x <= m -> absf (x / m) <= 1.
Proof.
  intros P B. destruct (absf_bound x) as [Lo Hi].
  destruct (absf_cases (x / m)) as [[_ ->]|[_ ->]].
  - apply Qle_shift_div_r; lra.
  - assert (E : - (x / m) == (- x) / m) by (field; lra).
    rewrite E. apply Qle_shift_div_r; lra.
Qed.

Lemma deadband_spec (x : Q) :
  (absf x < Tracking.DEADBAND -> Tracking.deadband x = 0)
  /\ (Tracking.DEADBAND <= absf x -> Tracking.deadband x = x).
Proof.
  unfold Tracking.deadband. split; intros H.
  - apply Qltb_lt in H. now rewrite H.
  - apply Qltb_ge in H. now rewrite H.
Qed.

(** C3.  On inputs within [-1, 1] the mapper of [moveRobot] computes the
    three wheel values by the 120-degree equations; when the largest
    magnitude exceeds 1 all three are divided by it, otherwise they are
    kept; afterwards every magnitude is at most 1 and the pairwise ratios of
    the wheel values are the ones before scaling; the deadband then zeroes
    exactly the values of magnitude below 0.1. *)
Theorem three_wheel_mapping (vy vx omega : Q) :
  -1 <= vx -> vx <= 1 -> -1 <= vy -> vy <= 1 -> -1 <= omega -> omega <= 1 ->
  let raw := Tracking.wheelMix vy vx omega in
  let m := Tracking.maxMagnitude raw in
  let '(l, r, b) := raw in
  let '(l1, r1, b1) := Tracking.scaleToUnit raw in
  let '(l2, r2, b2) := Tracking.wheelSpeeds vy vx omega in
  l = - 0.5 * vx - 0.866 * vy + omega
  /\ r = - 0.5 * vx + 0.866 * vy + omega
  /\ b = vx + omega
  /\ (absf l <= m /\ absf r <= m /\ absf b <= m
      /\ (m = absf l \/ m = absf r \/ m = absf b))
  /\ (1 < m -> l1 = l / m /\ r1 = r / m /\ b1 = b / m)
  /\ (m <= 1 -> l1 = l /\ r1 = r /\ b1 = b)
  /\ (absf l1 <= 1 /\ absf r1 <= 1 /\ absf b1 <= 1)
  /\ (l1 * r == r1 * l /\ l1 * b == b1 * l /\ r1 * b == b1 * r)
  /\ (l2 = Tracking.deadband l1 /\ r2 = Tracking.deadband r1
      /\ b2 = Tracking.deadband b1)
  /\ (forall x, absf x < 0.1 -> Tracking.deadband x = 0)
  /\ (forall x, 0.1 <= absf x -> Tracking.deadband x = x).
Proof.
  intros X1 X2 Y1 Y2 W1 W2.
  unfold Tracking.wheelSpeeds.
  rewrite !constrainf_inside by assumption.
  unfold Tracking.wheelMix.
  set (l := - 0.5 * vx - 0.866 * vy + omega).
  set (r := - 0.5 * vx + 0.866 * vy + omega).
  set (b := vx + omega).
  destruct (maxMagnitude_spec l r b) as (Bl & Br & Bb & Hm).
  unfold Tracking.scaleToUnit.
  set (m := Tracking.maxMagnitude (l, r, b)) in *.
  destruct (Qltb 1 m) eqn:E; cbn [Tracking.applyDeadband].
  - apply Qltb_lt in E.
    split; [reflexivity|]. split; [reflexivity|]. split; [reflexivity|].
    split; [auto|]. split; [auto|]. split; [intros; lra|].
    split; [repeat split; apply absf_div_le_1; lra|].
    split; [repeat split; field; lra|].
    split; [auto|]. split; intros x; apply deadband_spec.
  - apply Qltb_ge in E.
    split; [reflexivity|]. split; [reflexivity|]. split; [reflexivity|].
    split; [auto|]. split; [intros; lra|]. split; [auto|].
    split; [repeat split; lra|].
    split; [repeat split; ring|].
    split; [auto|]. split; intros x; apply deadband_spec.
Qed.

(** The mapper on a full sideways-and-spin request: the back wheel value 2
    is the largest, all three are halved and stay within the unit range. *)
Lemma three_wheel_mapping_witness :
  (-1 <= 0 /\ 0 <= 1 /\ -1 <= 1 /\ 1 <= 1)
  /\ Tracking.maxMagnitude (Tracking.wheelMix 0 1 1) == 2
  /\ let '(l1, r1, b1) := Tracking.scaleToUnit (Tracking.wheelMix 0 1 1) in
     absf l1 <= 1 /\ absf r1 <= 1 /\ absf b1 <= 1.
Proof.
  assert (A : -1 <= 1) by (vm_compute; discriminate).
  assert (B : 1 <= 1) by (vm_compute; discriminate).
  assert (C : -1 <= 0) by (vm_compute; discriminate).
  assert (D : 0 <= 1) by (vm_compute; discriminate).
  split; [auto|]. split; [reflexivity|].
  pose proof (three_wheel_mapping 0 1 1 A B C D A B) as H.
  vm_compute in H. vm_compute.
  destruct H as (_ & _ & _ & _ & _ & _ & K & _). exact K.
Defined.

End Holonomic.

(** ** Reasoning about computations of [M] *)

Section Logic.
Import Arduino.
Context {St : Type}.
Implicit Types (I : St -> Prop) (E : Event -> Prop) (s : St).

Lemma run_bind {A B} (m : M St A) (k : A -> M St B) s :
  bind m k s
  = (valueOf (k (valueOf (m s)) (stateOf (m s))),
     stateOf (k (valueOf (m s)) (stateOf (m s))),
     eventsOf (m s) ++ eventsOf (k (valueOf (m s)) (stateOf (m s)))).
Proof.
  unfold bind, valueOf, stateOf, eventsOf.
  destruct (m s) as [[a s1] e1]. simpl. now destruct (k a s1) as [[b s2] e2].
Qed.

Lemma stateOf_bind {A B} (m : M St A) (k : A -> M St B) s :
  stateOf (bind m k s) = stateOf (k (valueOf (m s)) (stateOf (m s))).
Proof. now rewrite run_bind. Qed.

Lemma valueOf_bind {A B} (m : M St A) (k : A -> M St B) s :
  valueOf (bind m k s) = valueOf (k (valueOf (m s)) (stateOf (m s))).
Proof. now rewrite run_bind. Qed.

Lemma eventsOf_bind {A B} (m : M St A) (k : A -> M St B) s :
  eventsOf (bind m k s)
  = eventsOf (m s) ++ eventsOf (k (valueOf (m s)) (stateOf (m s))).
Proof. now rewrite run_bind. Qed.

(** [safe I E m s]: run from [s], the computation [m] ends in a state that
    satisfies [I] and emits only events that satisfy [E]. *)
Definition safe {A} I E (m : M St A) s : Prop :=
  I (stateOf (m s)) /\ Forall E (eventsOf (m s)).

Lemma safe_ret {A} I E (a : A) s : I s -> safe I E (ret a) s.
Proof. intros H. split; [exact H | constructor]. Qed.

Lemma safe_bind {A B} I E (m : M St A) (k : A -> M St B) s :
  safe I E m s ->
  (forall a s1, I s1 -> safe I E (k a) s1) ->
  safe I E (bind m k) s.
Proof.
  intros [Hs He] Hk. unfold safe. rewrite stateOf_bind, eventsOf_bind.
  destruct (Hk (valueOf (m s)) (stateOf (m s)) Hs) as [Hs' He'].
  split; [exact Hs' | apply Forall_app; auto].
Qed.

Lemma safe_get {A} I E (k : St -> M St A) s :
  safe I E (k s) s -> safe I E (bind get k) s.
Proof.
  intros [Hs He]. unfold safe. rewrite stateOf_bind, eventsOf_bind. auto.
Qed.

Lemma safe_emit {A} I E (e : Event) (k : M St A) s :
  E e -> safe I E k s -> safe I E (bind (emit e) (fun _ => k)) s.
Proof.
  intros H [Hs He]. unfold safe. rewrite stateOf_bind, eventsOf_bind.
  split; [exact Hs | constructor; auto].
Qed.

Lemma safe_emit_last I E (e : Event) s : E e -> I s -> safe I E (emit e) s.
Proof. intros H Hs. split; [exact Hs | repeat constructor; exact H]. Qed.

Lemma safe_modify {A} I E (f : St -> St) (k : M St A) s :
  safe I E k (f s) -> safe I E (bind (modify f) (fun _ => k)) s.
Proof.
  intros [Hs He]. unfold safe. rewrite stateOf_bind, eventsOf_bind. auto.
Qed.

Lemma safe_modify_last I E (f : St -> St) s : I (f s) -> safe I E (modify f) s.
Proof. intros H. split; [exact H | constructor]. Qed.

Lemma safe_when I E (c : bool) (m : M St unit) s :
  I s -> (c = true -> safe I E m s) -> safe I E (when c m) s.
Proof.
  intros Hs Hm. destruct c; [now apply Hm | now apply safe_ret].
Qed.

Lemma safe_weaken {A} I I' E E' (m : M St A) s :
  safe I E m s -> (forall s', I s' -> I' s') -> (forall e, E e -> E' e) ->
  safe I' E' m s.
Proof.
  intros [Hs He] HI HE. split; [auto | eapply Forall_impl; eauto].
Qed.

(** A computation is [silent] under [E] when it leaves the state as it is
    and emits only events that satisfy [E]. *)
Definition silent {A} E (m : M St A) : Prop :=
  forall s, stateOf (m s) = s /\ Forall E (eventsOf (m s)).

Lemma silent_ret {A} E (a : A) : silent E (ret a).
Proof. intros s. split; [reflexivity | constructor]. Qed.

Lemma silent_emit E (e : Event) : E e -> silent E (emit e).
Proof. intros H s. split; [reflexivity | repeat constructor; exact H]. Qed.

Lemma silent_bind {A B} E (m : M St A) (k : A -> M St B) :
  silent E m -> (forall a, silent E (k a)) -> silent E (bind m k).
Proof.
  intros Hm Hk s. rewrite stateOf_bind, eventsOf_bind.
  destruct (Hm s) as [-> He]. destruct (Hk (valueOf (m s)) s) as [-> He'].
  split; [reflexivity | apply Forall_app; auto].
Qed.

Lemma silent_get {A} E (k : St -> M St A) :
  (forall s, silent E (k s)) -> silent E (bind get k).
Proof.
  intros Hk s. rewrite stateOf_bind, eventsOf_bind. apply Hk.
Qed.

Lemma silent_when E (c : bool) (m : M St unit) :
  silent E m -> silent E (when c m).
Proof. intros H. destruct c; [exact H | apply silent_ret]. Qed.

Lemma silent_safe {A} I E (m : M St A) s : silent E m -> I s -> safe I E m s.
Proof. intros H Hs. destruct (H s) as [Hst He]. split; [now rewrite Hst | exact He]. Qed.

Lemma safe_silent_bind {A B} I E (m : M St A) (k : A -> M St B) s :
  silent E m -> (forall a, safe I E (k a) s) -> safe I E (bind m k) s.
Proof.
  intros Hm Hk. destruct (Hm s) as [Hst He].
  unfold safe. rewrite stateOf_bind, eventsOf_bind, Hst.
  destruct (Hk (valueOf (m s))) as [Hs' He'].
  split; [exact Hs' | apply Forall_app; auto].
Qed.

End Logic.

(** Serial output and the enable pins: everything that is not a wheel
    actuation. *)
Definition isTrace (e : Arduino.Event) : Prop := Arduino.isActuation e = false.

Section IntegratedBasics.
Import Arduino Integrated.
Context (E : Event -> Prop).
Hypothesis serial_print : forall a, E (SerialPrint a).
Hypothesis serial_println : forall a, E (SerialPrintln a).

Lemma debugPrintArg_silent (a : Arg) : silent E (debugPrintArg a).
Proof.
  unfold debugPrintArg. apply silent_get. intros s. apply silent_when.
  repeat (apply silent_bind; [apply silent_emit; auto | intros _]).
  apply silent_emit; auto.
Qed.

Lemma debugPrint_silent (msg : string) : silent E (debugPrint msg).
Proof. apply debugPrintArg_silent. Qed.

Lemma println_silent (msg : string) : silent E (println msg).
Proof. apply silent_emit; auto. Qed.

Lemma print_silent (a : Arg) : silent E (print a).
Proof. apply silent_emit; auto. Qed.

Lemma vetoMessage_silent (direction : Z) : silent E (vetoMessage direction).
Proof.
  unfold vetoMessage.
  repeat (match goal with
          | |- context [match ?d with _ => _ end] => destruct d
          end; try apply debugPrint_silent; try apply silent_ret).
Qed.

End IntegratedBasics.

(** ** The directional interlocks *)

Section InterlockUpdate.
Import Arduino Integrated.
Context `{Collaborators}.

Lemma updateFlag_value (danger flag : bool) (name : string) (s : State) :
  valueOf (updateFlag danger flag name s) = danger.
Proof.
  unfold updateFlag. destruct danger, flag; simpl; try reflexivity;
    now rewrite valueOf_bind.
Qed.

Lemma updateFlag_state (danger flag : bool) (name : string) (s : State) :
  stateOf (updateFlag danger flag name s) = s.
Proof.
  unfold updateFlag.
  destruct (negb (Bool.eqb danger flag)); [|reflexivity].
  rewrite stateOf_bind.
  now destruct (debugPrint_silent (fun _ => True) (fun _ => I) (fun _ => I)
                  ((if danger then "EMERGENCY_STOP:" else "EMERGENCY_RELEASED:") ++ name) s)
    as [-> _].
Qed.

(** The interlock record right after the assignments of the control cycle,
    provided the emergency stop of the deceleration module leaves the
    interlock globals alone. *)
Lemma updateInterlocks_flags (now : Z) (s : State) :
  (forall s0, interlocks (stateOf (emergencyStopAllMotors s0)) = interlocks s0) ->
  let i := interlocks (stateOf (updateInterlocks now s)) in
  let d := distances s in
  frontEmergencyStop i = frontDanger d
  /\ backEmergencyStop i = backDanger d
  /\ leftEmergencyStop i = leftDanger d
  /\ rightEmergencyStop i = rightDanger d.
Proof.
  intros Frame. unfold updateInterlocks.
  repeat (rewrite ?stateOf_bind, ?valueOf_bind, ?updateFlag_value, ?updateFlag_state;
          cbn [get modify valueOf stateOf fst snd]).
  set (d := distances (set_lastControlLoop now s)).
  assert (Dbg : forall a s0, stateOf (debugPrintArg a s0) = s0).
  { intros a s0.
    now destruct (debugPrintArg_silent (fun _ => True) (fun _ => I) (fun _ => I) a s0). }
  match goal with
  | |- context [when ?c ?m] =>
      destruct c; cbn [when]
  end;
  match goal with
  | |- context [when ?c ?m] =>
      destruct c; cbn [when]
  end;
  repeat (rewrite ?stateOf_bind, ?Dbg, ?Frame; unfold debugPrint;
          cbn [get modify ret valueOf stateOf fst snd interlocks set_interlocks
               frontEmergencyStop backEmergencyStop leftEmergencyStop
               rightEmergencyStop]);
  auto.
Qed.

Lemma danger3_minimum (a b c : Q) :
  Qltb b CRITICAL_DISTANCE || Qltb a CRITICAL_DISTANCE || Qltb c CRITICAL_DISTANCE = true
  <-> (minf (minf a b) c < CRITICAL_DISTANCE)%Q.
Proof.
  rewrite !orb_true_iff, !Qltb_lt, !minf_lt_iff. tauto.
Qed.

Lemma danger2_minimum (a b : Q) :
  Qltb a CRITICAL_DISTANCE || Qltb b CRITICAL_DISTANCE = true
  <-> (minf a b < CRITICAL_DISTANCE)%Q.
Proof.
  rewrite !orb_true_iff, !Qltb_lt, !minf_lt_iff. tauto.
Qed.

(** C2.  After the interlock update of a control cycle, each directional
    flag is raised exactly when the minimum of its sensor group in the
    distance snapshot of that cycle is below [CRITICAL_DISTANCE]: front over
    (front-left, front, front-right), back over (back-left, back,
    back-right), left over (front-left, back-left), right over (front-right,
    back-right).  The emergency stop of the deceleration module, which the
    update may call, is taken not to write the interlock globals. *)
Theorem interlocks_follow_group_minimum (now : Z) (s : State) :
  (forall s0, interlocks (stateOf (emergencyStopAllMotors s0)) = interlocks s0) ->
  let i := interlocks (stateOf (updateInterlocks now s)) in
  let d := distances s in
  (frontEmergencyStop i = true <-> (forwardDist d < CRITICAL_DISTANCE)%Q)
  /\ (backEmergencyStop i = true <-> (backwardDist d < CRITICAL_DISTANCE)%Q)
  /\ (leftEmergencyStop i = true <-> (leftDist d < CRITICAL_DISTANCE)%Q)
  /\ (rightEmergencyStop i = true <-> (rightDist d < CRITICAL_DISTANCE)%Q).
Proof.
  intros Frame i d.
  destruct (updateInterlocks_flags now s Frame) as (F & B & L & R).
  fold i d in F, B, L, R. rewrite F, B, L, R.
  unfold frontDanger, backDanger, leftDanger, rightDanger,
    forwardDist, backwardDist, leftDist, rightDist.
  repeat split; try apply danger3_minimum; try apply danger2_minimum;
    try (now intros ?%danger3_minimum); now intros ?%danger2_minimum.
Qed.

End InterlockUpdate.

(** An obstacle 10 cm ahead raises the front flag, and only that one. *)
Lemma interlocks_follow_group_minimum_witness :
  let s :=
    Integrated.set_distances
      {| Integrated.distFL := 90; Integrated.distF := 10; Integrated.distFR := 90;
         Integrated.distBL := 90; Integrated.distB := 90; Integrated.distBR := 90 |}
      Integrated.initState in
  let i :=
    Integrated.interlocks
      (Arduino.stateOf
         (Integrated.updateInterlocks (H := Integrated.inertCollaborators) 50 s)) in
  Integrated.frontEmergencyStop i = true /\ Integrated.backEmergencyStop i = false.
Proof.
  intros s i.
  destruct (interlocks_follow_group_minimum (H := Integrated.inertCollaborators) 50 s)
    as (F & B & _).
  - intros s0. reflexivity.
  - split.
    + apply F. reflexivity.
    + destruct (Integrated.backEmergencyStop i) eqn:E; [|reflexivity].
      apply B in E. vm_compute in E. discriminate.
Defined.


(** ** The safety gate *)






Section Gate.
Import Arduino.

Lemma trace_only_no_actuation (es : list Event) :
  Forall isTrace es -> actuations es = [].
Proof.
  unfold actuations, isTrace. induction 1 as [|e es He _ IH]; [reflexivity|].
  cbn. rewrite He. exact IH.
Qed.



Context `{Integrated.Collaborators}.









End Gate.

Section ContinuousGate.
Import Arduino.
Local Open Scope Q_scope.




Lemma stopAllMotors_duties (t : Tracking.State) :
  duties (eventsOf (Tracking.stopAllMotors t)) = [0; 0; 0; 0; 0; 0]%Z.
Proof.
  unfold Tracking.stopAllMotors, Tracking.moveMotor.
  repeat (rewrite ?eventsOf_bind; cbn [emit get modify eventsOf valueOf stateOf fst snd app]).
  reflexivity.
Qed.

End ContinuousGate.





(** ** Stale tag data *)

Section Staleness.
Import Arduino Tracking.
Context `{MathLib}.

(** The staleness test of [processMovement]. *)
Definition stale (now : Z) (t : State) : bool :=
  negb (tagVisible (tagController t)) || (TAG_TIMEOUT <? elapsed now (lastTagUpdate t)).




End Staleness.


(** ** The framed serial parser *)

Section Framing.
Import Arduino Integrated.
Local Open Scope nat_scope.

(** The parser is inside a frame, not after an escape character, with
    [done] in the first [index] cells of its 64-byte buffer. *)
Definition inFrame (done : list ascii) (p : Parser) : Prop :=
  messageStarted p = true /\ escapeNext p = false
  /\ length (buffer p) = COMMAND_BUFFER_SIZE
  /\ index p = length done
  /\ take (index p) (buffer p) = done.

Lemma serialLoop_app (a b : list ascii) (p : Parser) :
  serialLoop (a ++ b) p
  = (fst (serialLoop b (fst (serialLoop a p))),
     snd (serialLoop a p) ++ snd (serialLoop b (fst (serialLoop a p)))).
Proof.
  revert p. induction a as [|c a IH]; intros p; simpl.
  - now destruct (serialLoop b p).
  - destruct (serialStep c p) as [p1 cmd]. rewrite IH.
    destruct (serialLoop a p1) as [p2 cmds]. simpl.
    destruct (serialLoop b p2) as [p3 cmds']. simpl. now destruct cmd.
Qed.

Lemma store_inFrame (done : list ascii) (c : ascii) (p : Parser) :
  messageStarted p = true ->
  length (buffer p) = COMMAND_BUFFER_SIZE ->
  index p = length done ->
  take (index p) (buffer p) = done ->
  index p < COMMAND_BUFFER_SIZE - 1 ->
  inFrame (done ++ [c]) (store c p).
Proof.
  intros Hm Hl Hi Ht Hb. unfold inFrame, store. cbn [messageStarted escapeNext buffer index].
  unfold COMMAND_BUFFER_SIZE in *.
  repeat split; auto.
  - now rewrite length_insert.
  - rewrite length_app. simpl. lia.
  - rewrite (take_S_r _ _ c).
    + rewrite take_insert_ge by lia. now rewrite Ht.
    + apply list_lookup_insert_eq. lia.
Qed.

Lemma step_plain (c : ascii) (p : Parser) :
  messageStarted p = true -> escapeNext p = false ->
  needsEscape c = false -> index p < COMMAND_BUFFER_SIZE - 1 ->
  serialStep c p = (store c p, None).
Proof.
  intros Hm He Hc Hb. unfold needsEscape in Hc.
  apply orb_false_iff in Hc as [Hc H3]. apply orb_false_iff in Hc as [H1 H2].
  unfold serialStep. rewrite Hm, He, H1, H2, H3. cbn [negb andb].
  apply Nat.ltb_lt in Hb. now rewrite Hb.
Qed.

Lemma step_escaped (c : ascii) (p : Parser) :
  messageStarted p = true -> escapeNext p = true ->
  index p < COMMAND_BUFFER_SIZE - 1 ->
  serialStep c p = (store c p, None).
Proof.
  intros Hm He Hb. unfold serialStep. rewrite Hm, He. cbn [negb andb].
  rewrite !andb_false_r. cbn [andb].
  apply Nat.ltb_lt in Hb. now rewrite Hb.
Qed.

Lemma step_escape (p : Parser) :
  messageStarted p = true -> escapeNext p = false ->
  serialStep ESCAPE_CHAR p
  = ({| buffer := buffer p; index := index p;
        messageStarted := messageStarted p; escapeNext := true;
        bufferStartTime := bufferStartTime p |}, None).
Proof.
  intros Hm He. unfold serialStep. rewrite Hm, He. reflexivity.
Qed.

(** The escaped payload of a frame is copied into the buffer byte by byte
    without any command being dispatched. *)
Lemma escaped_payload (rest done : list ascii) (p : Parser) :
  inFrame done p ->
  length done + length rest < COMMAND_BUFFER_SIZE ->
  inFrame (done ++ rest) (fst (serialLoop (escape rest) p))
  /\ snd (serialLoop (escape rest) p) = [].
Proof.
  revert done p. induction rest as [|c rest IH]; intros done p Hp Hlen.
  - simpl. now rewrite app_nil_r.
  - destruct Hp as (Hm & He & Hl & Hi & Ht).
    assert (Hb : index p < COMMAND_BUFFER_SIZE - 1).
    { unfold COMMAND_BUFFER_SIZE in *. simpl in Hlen. lia. }
    assert (Hnext : length (done ++ [c]) + length rest < COMMAND_BUFFER_SIZE).
    { rewrite length_app. simpl in *. lia. }
    replace (done ++ c :: rest) with ((done ++ [c]) ++ rest)
      by now rewrite <- app_assoc.
    simpl. destruct (needsEscape c) eqn:Hc.
    + simpl. rewrite step_escape by assumption.
      rewrite step_escaped
        by (cbn [messageStarted escapeNext index]; first [assumption | reflexivity]).
      specialize (IH (done ++ [c]) _ (store_inFrame done c _ Hm Hl Hi Ht Hb) Hnext).
      change (store c
                {| buffer := buffer p; index := index p;
                   messageStarted := messageStarted p; escapeNext := true;
                   bufferStartTime := bufferStartTime p |})
        with (store c p).
      destruct (serialLoop (escape rest) (store c p)) as [p' cmds].
      exact IH.
    + simpl. rewrite step_plain by assumption.
      specialize (IH (done ++ [c]) _ (store_inFrame done c _ Hm Hl Hi Ht Hb) Hnext).
      destruct (serialLoop (escape rest) (store c p)) as [p' cmds].
      exact IH.
Qed.

Lemma c_str_terminated (text tail : list ascii) :
  NUL ∉ text -> c_str (text ++ NUL :: tail) = text.
Proof.
  induction text as [|c text IH]; intros Hn; simpl.
  - reflexivity.
  - destruct (Ascii.eqb_spec c NUL) as [->|Hc].
    + exfalso. apply Hn. now left.
    + f_equal. apply IH. intros Hin. apply Hn. now right.
Qed.

(** The end marker hands the buffer over, terminated behind the copied
    bytes. *)
Lemma step_end (done : list ascii) (p : Parser) :
  inFrame done p -> length done < COMMAND_BUFFER_SIZE ->
  exists p' tail,
    serialStep END_MARKER p = (p', Some (done ++ NUL :: tail))
    /\ index p' = 0 /\ messageStarted p' = false /\ escapeNext p' = false.
Proof.
  intros (Hm & He & Hl & Hi & Ht) Hlen.
  unfold serialStep. rewrite Hm, He. cbn [negb andb orb].
  change (Ascii.eqb END_MARKER LF) with false.
  change (Ascii.eqb END_MARKER CR) with false.
  change (Ascii.eqb END_MARKER START_MARKER) with false.
  change (Ascii.eqb END_MARKER END_MARKER) with true.
  cbn [negb andb orb].
  exists (fst (handOver false p)), (drop (S (index p)) (buffer p)).
  unfold handOver. cbn [fst index messageStarted escapeNext].
  split; [|rewrite He; auto].
  f_equal. f_equal. rewrite insert_take_drop by lia. now rewrite Ht.
Qed.

Lemma step_start (p : Parser) :
  escapeNext p = false -> length (buffer p) = COMMAND_BUFFER_SIZE ->
  snd (serialStep START_MARKER p) = None
  /\ inFrame [] (fst (serialStep START_MARKER p)).
Proof.
  intros He Hl. unfold serialStep. rewrite He.
  change (Ascii.eqb START_MARKER LF) with false.
  change (Ascii.eqb START_MARKER CR) with false.
  change (Ascii.eqb START_MARKER START_MARKER) with true.
  rewrite andb_false_r. cbn [negb andb orb fst snd].
  repeat split; auto.
Qed.

Lemma refreshBuffer_ready (now : Z) (p : Parser) :
  escapeNext p = false -> length (buffer p) = COMMAND_BUFFER_SIZE ->
  escapeNext (fst (refreshBuffer now p)) = false
  /\ length (buffer (fst (refreshBuffer now p))) = COMMAND_BUFFER_SIZE.
Proof.
  intros He Hl. unfold refreshBuffer.
  destruct ((0 <? index p) && (1000 <? elapsed now (bufferStartTime p))%Z);
    cbn [index]; [destruct (0 =? 0) | destruct (index p =? 0)]; cbn; auto.
Qed.

Lemma frame_dispatch (p : Parser) (payload : list ascii) :
  escapeNext p = false -> length (buffer p) = COMMAND_BUFFER_SIZE ->
  length payload < COMMAND_BUFFER_SIZE -> NUL ∉ payload ->
  snd (serialLoop (frame payload) p) = [payload]
  /\ index (fst (serialLoop (frame payload) p)) = 0
  /\ messageStarted (fst (serialLoop (frame payload) p)) = false
  /\ escapeNext (fst (serialLoop (frame payload) p)) = false.
Proof.
  intros He Hl Hlen Hn. unfold frame.
  change (START_MARKER :: escape payload ++ [END_MARKER])
    with ([START_MARKER] ++ escape payload ++ [END_MARKER]).
  rewrite !serialLoop_app.
  destruct (step_start p He Hl) as [S0 S1].
  cbn [serialLoop]. destruct (serialStep START_MARKER p) as [p0 c0].
  cbn [fst snd] in *. subst c0.
  destruct (escaped_payload payload [] p0 S1 Hlen) as [P1 P2].
  rewrite P2. cbn [app] in P1 |- *.
  destruct (step_end payload _ P1 Hlen) as (p' & tail & Hs & Hi & Hm & He').
  rewrite Hs. cbn [fst snd app]. rewrite c_str_terminated by assumption. auto.
Qed.

Lemma processSerialInput_value (now : Z) (input : list ascii) (p : Parser) (s : State) :
  valueOf (processSerialInput now input p s)
  = serialLoop input (fst (refreshBuffer now p)).
Proof.
  unfold processSerialInput. destruct (refreshBuffer now p) as [p1 stale].
  rewrite valueOf_bind. reflexivity.
Qed.

(** C7, as the code has it.  A payload of at most 63 bytes, none of them
    NUL, sent as one frame (start marker, payload with every start marker,
    end marker and backslash preceded by a backslash, end marker) to a
    parser that is not waiting for the byte after an escape character, is
    handed to the dispatcher exactly once and byte for byte, and leaves the
    parser outside a frame with an empty buffer. *)
Theorem framed_payload_round_trip (now : Z) (s : State) (p : Parser)
  (payload : list ascii) :
  length (buffer p) = COMMAND_BUFFER_SIZE ->
  escapeNext p = false ->
  length payload < COMMAND_BUFFER_SIZE ->
  NUL ∉ payload ->
  let r := valueOf (processSerialInput now (frame payload) p s) in
  snd r = [payload]
  /\ index (fst r) = 0 /\ messageStarted (fst r) = false
  /\ escapeNext (fst r) = false.
Proof.
  intros Hl He Hlen Hn r. subst r. rewrite processSerialInput_value.
  destruct (refreshBuffer_ready now p He Hl) as [He' Hl'].
  now apply frame_dispatch.
Qed.

End Framing.

(** The command [A>B] travels as [<A\>B>] and arrives as [A>B]. *)
Lemma framed_payload_round_trip_witness :
  snd (Arduino.valueOf
         (Integrated.processSerialInput 0
            (Integrated.frame (list_ascii_of_string "A>B"))
            Integrated.initParser Integrated.readyState))
  = [list_ascii_of_string "A>B"].
Proof.
  apply (framed_payload_round_trip 0 Integrated.readyState Integrated.initParser
           (list_ascii_of_string "A>B")).
  - reflexivity.
  - reflexivity.
  - vm_compute. lia.
  - intros Hin. repeat (apply elem_of_cons in Hin as [Hin|Hin]; [discriminate|]).
    now apply elem_of_nil in Hin.
Defined.

(** C7 as stated fails in two ways.  A payload with a NUL byte reaches the
    dispatcher cut at that byte: [A], NUL, [B] is dispatched as [A].  And a
    parser that has just read a stray backslash takes the start marker of
    the next frame for an escaped byte: the frame around [PING] dispatches
    nothing. *)
Lemma framed_payload_cut_or_lost :
  snd (Arduino.valueOf
         (Integrated.processSerialInput 0
            (Integrated.frame ["A"; Integrated.NUL; "B"]%char)
            Integrated.initParser Integrated.readyState))
  = [["A"%char]]
  /\ snd (Arduino.valueOf
            (Integrated.processSerialInput 0
               (Integrated.frame (list_ascii_of_string "PING"))
               (fst (Integrated.serialLoop [Integrated.ESCAPE_CHAR]
                       Integrated.initParser))
               Integrated.readyState))
     = [].
Proof. split; reflexivity. Qed.


(** ** Malformed [SPEED] commands *)

Section SpeedCommand.
Import Arduino Integrated.
Context `{Collaborators}.

(** The echo of [parseCommand] in verbose mode. *)
Definition echo (s : State) (text : list ascii) : list Event :=
  if DEBUG_MODE (config s) then
    [SerialPrint (AStr "Received command: ");
     SerialPrintln (AStr (string_of_list_ascii text))]
  else [].



End SpeedCommand.


(** ** The rotation speed cap *)

(** A property of the [moveMotor] calls among the events. *)
Definition onCalls (P : Arduino.MotorId -> Arduino.Direction -> Q -> Prop)
  (e : Arduino.Event) : Prop :=
  match e with
  | Arduino.MotorCall m d t => P m d t
  | _ => True
  end.

(** A call that either stops a wheel or drives it at an integer speed
    between [MIN_SPEED] and [MAX_ROTATION_SPEED], below [MAX_SPEED]. *)
Definition rotationCall (c : Integrated.Config)
  (m : Arduino.MotorId) (d : Arduino.Direction) (t : Q) : Prop :=
  (d = Arduino.STOP /\ t = 0%Q)
  \/ exists v : Z,
       t = inject_Z v
       /\ Integrated.MIN_SPEED c <= v <= Integrated.MAX_ROTATION_SPEED
       /\ v < Integrated.MAX_SPEED c.

Section RotationCap.
Import Arduino Integrated.
Context `{Collaborators}.
Variable c : Config.
Variable P : MotorId -> Direction -> Q -> Prop.

Let I (s : State) : Prop := config s = c.
Let E : Event -> Prop := onCalls P.

Lemma onCalls_motorCalls (es : list Event) :
  Forall (onCalls P) es -> Forall (fun '(m, d, t) => P m d t) (motorCalls es).
Proof.
  induction 1 as [|e es He _ IH]; [constructor|].
  unfold motorCalls in *. cbn [flat_map].
  destruct e; cbn [app]; auto.
Qed.

Lemma moveMotor_calls (m : MotorId) (d : Direction) (t : Q) (s : State) :
  P m d t -> I s -> safe I E (moveMotor m d t) s.
Proof.
  intros Hp Hs. unfold moveMotor.
  apply safe_emit; [exact Hp|].
  apply safe_emit; [exact Logic.I|]. apply safe_emit; [exact Logic.I|].
  apply safe_get. apply safe_modify.
  destruct d.
  - apply safe_emit; [exact Logic.I|]. now apply safe_emit_last.
  - apply safe_emit; [exact Logic.I|]. now apply safe_emit_last.
  - destruct (negb (decelerationActive (drive s))).
    + apply safe_emit; [exact Logic.I|]. apply safe_emit; [exact Logic.I|].
      now apply safe_modify_last.
    + now apply safe_ret.
Qed.

Lemma debug_calls (msg : string) : silent E (debugPrint msg).
Proof. apply debugPrint_silent; intros; exact Logic.I. Qed.

Lemma debugArg_calls (a : Arg) : silent E (debugPrintArg a).
Proof. apply debugPrintArg_silent; intros; exact Logic.I. Qed.

Lemma enablePins_calls : silent E ensureMotorEnablePins.
Proof.
  unfold ensureMotorEnablePins.
  repeat (apply silent_bind; [now apply silent_emit | intros _]).
  now apply silent_emit.
Qed.

Lemma rotateLeft_calls (speed : Z) (s : State) :
  (forall m d, P m d (inject_Z (constrain speed (MIN_SPEED c) MAX_ROTATION_SPEED))) ->
  (forall m, P m STOP 0%Q) ->
  I s -> safe I E (rotateLeft speed) s.
Proof.
  intros Hp Hz Hs. unfold rotateLeft.
  apply safe_silent_bind; [apply debug_calls | intros _].
  apply safe_get. rewrite Hs. apply safe_modify.
  assert (Hs0 : I (set_drive (set_motor motorRight 0 (set_motor motorLeft 0 (drive s))) s))
    by exact Hs.
  destruct (useThreeWheels c);
    (apply safe_bind; [now apply moveMotor_calls | intros _ s1 Hs1]);
    (apply safe_bind; [now apply moveMotor_calls | intros _ s2 Hs2]);
    now apply moveMotor_calls.
Qed.

Lemma rotateRight_calls (speed : Z) (s : State) :
  (forall m d, P m d (inject_Z (constrain speed (MIN_SPEED c) MAX_ROTATION_SPEED))) ->
  (forall m, P m STOP 0%Q) ->
  I s -> safe I E (rotateRight speed) s.
Proof.
  intros Hp Hz Hs. unfold rotateRight.
  apply safe_silent_bind; [apply debug_calls | intros _].
  apply safe_get. rewrite Hs. apply safe_modify.
  assert (Hs0 : I (set_drive (set_motor motorRight 0 (set_motor motorLeft 0 (drive s))) s))
    by exact Hs.
  destruct (useThreeWheels c);
    (apply safe_bind; [now apply moveMotor_calls | intros _ s1 Hs1]);
    (apply safe_bind; [now apply moveMotor_calls | intros _ s2 Hs2]);
    now apply moveMotor_calls.
Qed.

Lemma println_calls (msg : string) : silent E (println msg).
Proof. now apply silent_emit. Qed.

Lemma executeMovement_rotate_calls (direction speed : Z) (s : State) :
  direction = 5 \/ direction = 6 ->
  (forall x m d, P m d (inject_Z (constrain x (MIN_SPEED c) MAX_ROTATION_SPEED))) ->
  (forall m, P m STOP 0%Q) ->
  I s -> safe I E (executeMovement direction speed) s.
Proof.
  intros Hd Hp Hz Hs. unfold executeMovement. apply safe_get.
  destruct (masterOverrideActive (interlocks s));
    [apply silent_safe; [apply debug_calls | exact Hs]|].
  destruct (directionVetoed (interlocks s) direction);
    [apply silent_safe;
     [apply silent_when, vetoMessage_silent; intros; exact Logic.I | exact Hs]|].
  apply safe_silent_bind; [apply enablePins_calls | intros _].
  apply safe_silent_bind; [apply silent_when, debugArg_calls | intros _].
  destruct Hd as [-> | ->]; cbv beta iota.
  - apply rotateLeft_calls; auto.
  - apply rotateRight_calls; auto.
Qed.

Lemma rotate_key_calls (now : Z) (key : string) (s : State) :
  key = "Q"%string \/ key = "E"%string ->
  (forall x m d, P m d (inject_Z (constrain x (MIN_SPEED c) MAX_ROTATION_SPEED))) ->
  (forall m, P m STOP 0%Q) ->
  I s -> safe I E (dispatch now key "") s.
Proof.
  intros Hk Hp Hz Hs.
  destruct Hk as [-> | ->]; unfold dispatch;
    cbn [String.eqb Ascii.eqb Bool.eqb orb]; unfold handleKey;
    apply safe_get; cbn [String.eqb Ascii.eqb Bool.eqb orb];
    (apply safe_bind;
     [apply executeMovement_rotate_calls; auto
     | intros _ s1 Hs1; apply silent_safe; [apply println_calls | exact Hs1]]).
Qed.

Lemma rot_command_calls (now : Z) (params : string) (direction speed : Z) (s : State) :
  sscanf_d_d (list_ascii_of_string params) = [direction; speed] ->
  direction = 1 \/ direction = 2 ->
  (forall x m d, P m d (inject_Z (constrain x (MIN_SPEED c) MAX_ROTATION_SPEED))) ->
  (forall m, P m STOP 0%Q) ->
  I s -> safe I E (dispatch now "ROT" params) s.
Proof.
  intros Hscan Hd Hp Hz Hs. unfold dispatch.
  cbn [String.eqb Ascii.eqb Bool.eqb orb]. unfold handleRot. rewrite Hscan.
  apply safe_get.
  destruct Hd as [-> | ->]; cbn [Z.eqb Pos.eqb];
    (apply safe_bind;
     [first [apply rotateLeft_calls | apply rotateRight_calls]; auto
     | intros _ s1 Hs1; apply silent_safe; [apply println_calls | exact Hs1]]).
Qed.

End RotationCap.

Section RotationCapTheorem.
Import Arduino Integrated.
Context `{Collaborators}.

Lemma rotation_speed_in_range (c : Config) (x : Z) (m : MotorId) (d : Direction) :
  MIN_SPEED c <= MAX_ROTATION_SPEED -> MAX_ROTATION_SPEED < MAX_SPEED c ->
  rotationCall c m d (inject_Z (constrain x (MIN_SPEED c) MAX_ROTATION_SPEED)).
Proof.
  intros Hlo Hhi. right. eexists. split; [reflexivity|].
  pose proof (constrain_between x _ _ Hlo). lia.
Qed.

(** C10, as the code has it.  In a configuration with
    [MIN_SPEED <= MAX_ROTATION_SPEED < MAX_SPEED] (the boot values 50, 65,
    100 are one), every [moveMotor] call made for a rotation in place
    (direction codes 5 and 6, the keys Q and E, the [ROT] command with
    direction 1 or 2) either stops a wheel or drives it at a speed between
    [MIN_SPEED] and [MAX_ROTATION_SPEED], hence below [MAX_SPEED], whatever
    speed was asked for. *)
Theorem rotation_speed_capped (s : State) :
  MIN_SPEED (config s) <= MAX_ROTATION_SPEED ->
  MAX_ROTATION_SPEED < MAX_SPEED (config s) ->
  let capped (es : list Event) :=
    Forall (fun '(m, d, t) => rotationCall (config s) m d t) (motorCalls es) in
  (forall direction speed, direction = 5 \/ direction = 6 ->
     capped (eventsOf (executeMovement direction speed s)))
  /\ (forall now key, key = "Q"%string \/ key = "E"%string ->
        capped (eventsOf (dispatch now key "" s)))
  /\ (forall now params direction speed,
        sscanf_d_d (list_ascii_of_string params) = [direction; speed] ->
        direction = 1 \/ direction = 2 ->
        capped (eventsOf (dispatch now "ROT" params s))).
Proof.
  intros Hlo Hhi capped.
  assert (Hp : forall x m d,
             rotationCall (config s) m d
               (inject_Z (constrain x (MIN_SPEED (config s)) MAX_ROTATION_SPEED)))
    by (intros; now apply rotation_speed_in_range).
  assert (Hz : forall m : MotorId, rotationCall (config s) m STOP 0%Q)
    by (intros; left; auto).
  repeat split.
  - intros direction speed Hd. apply onCalls_motorCalls.
    now apply (executeMovement_rotate_calls (config s) _ direction speed s Hd Hp Hz).
  - intros now key Hk. apply onCalls_motorCalls.
    now apply (rotate_key_calls (config s) _ now key s Hk Hp Hz).
  - intros now params direction speed Hscan Hd. apply onCalls_motorCalls.
    now apply (rot_command_calls (config s) _ now params direction speed s Hscan Hd Hp Hz).
Qed.

End RotationCapTheorem.

(** After boot, the key Q (a request for the full 100) turns the two front
    wheels at 65. *)
Lemma rotation_speed_capped_witness :
  Arduino.motorCalls
    (Arduino.eventsOf
       (Integrated.dispatch (H := Integrated.inertCollaborators) 0 "Q" ""
          Integrated.readyState))
  = [(Arduino.motorLeft, Arduino.FORWARD, 65%Q);
     (Arduino.motorRight, Arduino.FORWARD, 65%Q);
     (Arduino.motorBack, Arduino.STOP, 0%Q)]
  /\ Forall (fun '(m, d, t) =>
               rotationCall (Integrated.config Integrated.readyState) m d t)
       (Arduino.motorCalls
          (Arduino.eventsOf
             (Integrated.dispatch (H := Integrated.inertCollaborators) 0 "Q" ""
                Integrated.readyState))).
Proof.
  split; [reflexivity|].
  destruct (rotation_speed_capped (H := Integrated.inertCollaborators)
              Integrated.readyState) as (_ & K & _).
  - vm_compute. discriminate.
  - reflexivity.
  - apply (K 0 "Q"%string). now left.
Defined.

(** C10 as stated fails once the limits are reconfigured.  After
    [SPEED:60,30] the key Q drives the front wheels at 60, the configured
    [MAX_SPEED]; after [SPEED:255,250] the command [ROT:1,255] drives them
    at 250, far above [MAX_ROTATION_SPEED]. *)
Lemma rotation_at_configured_maximum :
  (run ← Integrated.runCommands (H := Integrated.inertCollaborators) 0
           ["SPEED:60,30"; "Q"]%string;
   let r := run Integrated.readyState in
   Some (Integrated.MAX_SPEED (Integrated.config (Arduino.stateOf r)),
         Arduino.motorCalls (Arduino.eventsOf r)))
  = Some (60,
          [(Arduino.motorLeft, Arduino.FORWARD, 60%Q);
           (Arduino.motorRight, Arduino.FORWARD, 60%Q);
           (Arduino.motorBack, Arduino.STOP, 0%Q)])
  /\ (run ← Integrated.runCommands (H := Integrated.inertCollaborators) 0
              ["SPEED:255,250"; "ROT:1,255"]%string;
      let r := run Integrated.readyState in
      Some (Integrated.MIN_SPEED (Integrated.config (Arduino.stateOf r)),
            Arduino.motorCalls (Arduino.eventsOf r)))
     = Some (250,
             [(Arduino.motorLeft, Arduino.FORWARD, 250%Q);
              (Arduino.motorRight, Arduino.FORWARD, 250%Q);
              (Arduino.motorBack, Arduino.STOP, 0%Q)]).
Proof. split; vm_compute; reflexivity. Qed.


(** ** Duty cycles and the configured maximum *)

(** Every PWM write of the events lies in [0, hi]. *)
Definition dutyWithin (hi : Z) (e : Arduino.Event) : Prop :=
  match e with
  | Arduino.AnalogWrite _ _ v => 0 <= v <= hi
  | _ => True
  end.

Section Ramp.
Import Arduino.
Local Open Scope Q_scope.

Lemma inject_Z_le (a b : Z) : (a <= b)%Z -> inject_Z a <= inject_Z b.
Proof. intros L. now rewrite <- Zle_Qle. Qed.

Lemma inject_Z_nonneg (a : Z) : (0 <= a)%Z -> 0 <= inject_Z a.
Proof. intros L. now apply (inject_Z_le 0 a). Qed.

Lemma integrated_ramp_between (hi : Z) (current target : Q) :
  (0 <= hi)%Z ->
  0 <= current -> current <= inject_Z hi ->
  0 <= target -> target <= inject_Z hi ->
  0 <= Integrated.ramp hi current target
  /\ Integrated.ramp hi current target <= inject_Z hi.
Proof.
  intros Hhi C0 C1 T0 T1. unfold Integrated.ramp, Integrated.ACCEL_RATE.
  pose proof (inject_Z_nonneg hi Hhi) as Hq.
  destruct (Qltb current target) eqn:L1.
  - destruct (minf_cases target (current + inject_Z hi * 0.15)) as [[L ->]|[L ->]]; lra.
  - destruct (Qltb target current) eqn:L2; [|lra].
    destruct (maxf_cases target (current - inject_Z hi * 0.15)) as [[L ->]|[L ->]]; lra.
Qed.

Lemma tracking_ramp_between (hi : Z) (current target : Q) :
  (0 <= hi)%Z ->
  0 <= current -> current <= inject_Z hi ->
  0 <= target -> target <= inject_Z hi ->
  0 <= Tracking.ramp hi current target
  /\ Tracking.ramp hi current target <= inject_Z hi.
Proof.
  intros Hhi C0 C1 T0 T1. unfold Tracking.ramp, Tracking.ACCEL_RATE.
  pose proof (inject_Z_nonneg hi Hhi) as Hq.
  destruct (Qltb current target) eqn:L1.
  - destruct (minf_cases target (current + inject_Z hi * 0.15)) as [[L ->]|[L ->]]; lra.
  - destruct (Qltb target current) eqn:L2; [|lra].
    destruct (maxf_cases target (current - inject_Z hi * 0.15)) as [[L ->]|[L ->]]; lra.
Qed.

Lemma truncate_within (hi : Z) (x : Q) :
  (0 <= hi)%Z -> 0 <= x -> x <= inject_Z hi -> (0 <= truncate x <= hi)%Z.
Proof. intros Hhi L U. apply truncate_between; auto; lia. Qed.

Lemma stallFloor_within (lo hi v : Z) :
  (0 <= lo <= hi)%Z -> (0 <= v <= hi)%Z ->
  (0 <= Integrated.stallFloor lo v <= hi)%Z.
Proof.
  intros Hl Hv. unfold Integrated.stallFloor.
  destruct ((0 <? v)%Z && (v <? lo)%Z); lia.
Qed.

End Ramp.

Section IntegratedDuty.
Import Arduino Integrated.
Context `{Collaborators}.
Variables lo hi : Z.
Hypothesis limits : 0 <= lo <= hi.
Hypothesis rotation_limit : MAX_ROTATION_SPEED <= hi.

(** The wheel speeds are within the limits [lo], [hi] the configuration
    holds. *)
Definition wheelsWithin (s : State) : Prop :=
  MAX_SPEED (config s) = hi /\ MIN_SPEED (config s) = lo
  /\ forall m, (0 <= currentSpeed (motor m (drive s)) <= inject_Z hi)%Q.

Let E : Event -> Prop := dutyWithin hi.

Lemma target_ok_Z (v : Z) : 0 <= v <= hi -> (0 <= inject_Z v <= inject_Z hi)%Q.
Proof. intros [L U]. split; [now apply inject_Z_nonneg | now apply inject_Z_le]. Qed.

Lemma moveMotor_within (m : MotorId) (d : Direction) (t : Q) (s : State) :
  (0 <= t <= inject_Z hi)%Q -> wheelsWithin s ->
  safe wheelsWithin E (moveMotor m d t) s.
Proof.
  intros [T0 T1] (Hmax & Hmin & Hw). unfold moveMotor.
  apply safe_emit; [exact Logic.I|].
  apply safe_emit; [exact Logic.I|]. apply safe_emit; [exact Logic.I|].
  apply safe_get. rewrite Hmax, Hmin.
  set (current0 :=
         if negb (Direction_eqb (prevDirection m (drive s)) d)
            && negb (Direction_eqb (prevDirection m (drive s)) STOP)
         then 0%Q else currentSpeed (motor m (drive s))).
  assert (C0 : (0 <= current0 <= inject_Z hi)%Q).
  { subst current0. destruct (_ && _); [|apply Hw].
    split; [lra | apply inject_Z_nonneg; lia]. }
  destruct (integrated_ramp_between hi current0 t) as [R0 R1]; try tauto; try lia.
  set (current := ramp hi current0 t) in *.
  assert (Hd : 0 <= stallFloor lo (truncate current) <= hi).
  { apply stallFloor_within; [lia|]. apply truncate_within; auto; lia. }
  assert (W1 : wheelsWithin
                 (set_drive (set_motor m current (set_prevDirection m d (drive s))) s)).
  { split; [exact Hmax|]. split; [exact Hmin|].
    intros m'. specialize (Hw m'). destruct m, m'; cbn; auto. }
  assert (W2 : forall s', wheelsWithin s' ->
                          wheelsWithin (set_drive (set_motor m 0 (drive s')) s')).
  { intros s' (Hmax' & Hmin' & Hw'). split; [exact Hmax'|]. split; [exact Hmin'|].
    intros m'. specialize (Hw' m').
    assert ((0 <= 0 <= inject_Z hi)%Q) by (split; [lra | apply inject_Z_nonneg; lia]).
    destruct m, m'; cbn; auto. }
  apply safe_modify.
  destruct d.
  - apply safe_emit; [exact Hd|]. apply safe_emit_last; [cbn; lia | exact W1].
  - apply safe_emit; [cbn; lia|]. apply safe_emit_last; [exact Hd | exact W1].
  - destruct (negb (decelerationActive (drive s))).
    + apply safe_emit; [cbn; lia|]. apply safe_emit; [cbn; lia|].
      apply safe_modify_last. now apply W2.
    + now apply safe_ret.
Qed.

Lemma debug_within (msg : string) : silent E (debugPrint msg).
Proof. apply debugPrint_silent; intros; exact Logic.I. Qed.

Lemma debugArg_within (a : Arg) : silent E (debugPrintArg a).
Proof. apply debugPrintArg_silent; intros; exact Logic.I. Qed.

Lemma println_within (msg : string) : silent E (println msg).
Proof. now apply silent_emit. Qed.

Lemma enablePins_within : silent E ensureMotorEnablePins.
Proof.
  unfold ensureMotorEnablePins.
  repeat (apply silent_bind; [now apply silent_emit | intros _]).
  now apply silent_emit.
Qed.

Lemma zero_target : (0 <= 0 <= inject_Z hi)%Q.
Proof. split; [lra | apply inject_Z_nonneg; lia]. Qed.

Lemma linear_target (x : Z) : (0 <= inject_Z (constrain x lo hi) <= inject_Z hi)%Q.
Proof. apply target_ok_Z. pose proof (constrain_between x lo hi). lia. Qed.

Lemma rotation_target (x : Z) :
  0 <= constrain x lo MAX_ROTATION_SPEED <= hi.
Proof.
  unfold MAX_ROTATION_SPEED in *. split.
  - apply constrain_lower; lia.
  - apply constrain_upper; lia.
Qed.

Lemma scaled_target (v ratio : Q) :
  (0 <= v <= inject_Z hi)%Q -> (0 <= ratio <= 1)%Q ->
  (0 <= v * ratio <= inject_Z hi)%Q.
Proof.
  intros [V0 V1] [R0 R1].
  assert (0 <= v * ratio)%Q by (apply Qmult_le_0_compat; lra).
  assert (0 <= v * (1 - ratio))%Q by (apply Qmult_le_0_compat; lra).
  lra.
Qed.

Lemma backWheel_within (s0 : State) (d : Direction) (t : Q) (s : State) :
  (0 <= t <= inject_Z hi)%Q -> wheelsWithin s ->
  safe wheelsWithin E (backWheel s0 d t) s.
Proof.
  intros Ht Hs. unfold backWheel. destruct (useThreeWheels (config s0)).
  - now apply moveMotor_within.
  - apply moveMotor_within; [apply zero_target | exact Hs].
Qed.

(** Two front wheels and the back wheel, each with a target within the
    limits. *)
Lemma drive_within (s0 : State) (dl dr db : Direction) (tl tr tb : Q) (s : State) :
  (0 <= tl <= inject_Z hi)%Q -> (0 <= tr <= inject_Z hi)%Q ->
  (0 <= tb <= inject_Z hi)%Q -> wheelsWithin s ->
  safe wheelsWithin E
       (moveMotor motorLeft dl tl ;; moveMotor motorRight dr tr ;;
        backWheel s0 db tb)%monad s.
Proof.
  intros Hl Hr Hb Hs.
  apply safe_bind; [now apply moveMotor_within | intros _ s1 Hs1].
  apply safe_bind; [now apply moveMotor_within | intros _ s2 Hs2].
  now apply backWheel_within.
Qed.

Lemma three_within (ma mb mc : MotorId) (da db dc : Direction) (ta tb tc : Q)
  (s : State) :
  (0 <= ta <= inject_Z hi)%Q -> (0 <= tb <= inject_Z hi)%Q ->
  (0 <= tc <= inject_Z hi)%Q -> wheelsWithin s ->
  safe wheelsWithin E
       (moveMotor ma da ta ;; moveMotor mb db tb ;; moveMotor mc dc tc)%monad s.
Proof.
  intros Ha Hb Hc Hs.
  apply safe_bind; [now apply moveMotor_within | intros _ s1 Hs1].
  apply safe_bind; [now apply moveMotor_within | intros _ s2 Hs2].
  now apply moveMotor_within.
Qed.

Lemma resetFrontWheels_within (s : State) :
  wheelsWithin s ->
  wheelsWithin (set_drive (set_motor motorRight 0 (set_motor motorLeft 0 (drive s))) s).
Proof.
  intros (Hmax & Hmin & Hw). split; [exact Hmax|]. split; [exact Hmin|].
  intros m. pose proof zero_target. pose proof (Hw m). destruct m; cbn; auto.
Qed.

Lemma rotateLeft_within (speed : Z) (s : State) :
  wheelsWithin s -> safe wheelsWithin E (rotateLeft speed) s.
Proof.
  intros Hs. pose proof Hs as (Hmax & Hmin & _). unfold rotateLeft.
  apply safe_silent_bind; [apply debug_within | intros _].
  apply safe_get. rewrite Hmin. unfold resetFrontWheels. apply safe_modify.
  pose proof (target_ok_Z _ (rotation_target speed)).
  pose proof zero_target. pose proof (resetFrontWheels_within s Hs).
  destruct (useThreeWheels (config s)); now apply three_within.
Qed.

Lemma rotateRight_within (speed : Z) (s : State) :
  wheelsWithin s -> safe wheelsWithin E (rotateRight speed) s.
Proof.
  intros Hs. pose proof Hs as (Hmax & Hmin & _). unfold rotateRight.
  apply safe_silent_bind; [apply debug_within | intros _].
  apply safe_get. rewrite Hmin. unfold resetFrontWheels. apply safe_modify.
  pose proof (target_ok_Z _ (rotation_target speed)).
  pose proof zero_target. pose proof (resetFrontWheels_within s Hs).
  destruct (useThreeWheels (config s)); now apply three_within.
Qed.

(** What is assumed of the routines this sketch does not define: from a
    state within the limits they end within the limits and write only
    duties within them. *)
Hypothesis navigate_ok :
  forall x s, wheelsWithin s -> safe wheelsWithin E (navigateAroundObstacle x) s.
Hypothesis continue_ok :
  forall s, wheelsWithin s -> safe wheelsWithin E continueObstacleAvoidance s.
Hypothesis deceleration_ok :
  forall s, wheelsWithin s -> safe wheelsWithin E startSmoothDeceleration s.

Lemma stopAllMotors_within (s : State) :
  wheelsWithin s -> safe wheelsWithin E stopAllMotors s.
Proof.
  intros Hs. unfold stopAllMotors.
  apply safe_bind; [now apply deceleration_ok | intros _ s1 Hs1].
  apply safe_get. apply silent_safe; [apply silent_when, debug_within | exact Hs1].
Qed.

Lemma moveForward_within (speed : Z) (s : State) :
  wheelsWithin s -> safe wheelsWithin E (moveForward speed) s.
Proof.
  intros Hs. pose proof Hs as (Hmax & Hmin & _). unfold moveForward.
  apply safe_get.
  destruct (frontEmergencyStop (interlocks s)).
  - apply safe_silent_bind; [apply debug_within | intros _].
    destruct (enableObstacleAvoidance (config s)); [|now apply safe_ret].
    apply safe_bind; [now apply navigate_ok | intros finished s1 Hs1].
    apply safe_get.
    apply silent_safe; [apply silent_when, debug_within | exact Hs1].
  - destruct (negb (isIdle (avoidanceState (avoidance s)))
              && enableObstacleAvoidance (config s)).
    + apply safe_bind; [now apply continue_ok | intros result s1 Hs1].
      destruct result; [|now apply safe_ret].
      apply safe_get.
      apply safe_silent_bind;
        [destruct (avoidanceSuccessful (avoidance s1)); apply debug_within
        | intros _].
      apply safe_modify_last. exact Hs1.
    + apply safe_silent_bind; [apply debug_within | intros _].
      rewrite Hmax, Hmin. pose proof (linear_target speed).
      now apply drive_within.
Qed.

Lemma moveBackward_within (speed : Z) (s : State) :
  wheelsWithin s -> safe wheelsWithin E (moveBackward speed) s.
Proof.
  intros Hs. pose proof Hs as (Hmax & Hmin & _). unfold moveBackward.
  apply safe_get.
  destruct (backEmergencyStop (interlocks s));
    [apply silent_safe; [apply debug_within | exact Hs]|].
  apply safe_silent_bind; [apply debug_within | intros _].
  rewrite Hmax, Hmin. pose proof (linear_target speed).
  now apply drive_within.
Qed.

(** The three targets of an arc turn. *)
Lemma arc_targets (x : Z) :
  let speed := constrain x lo MAX_ROTATION_SPEED in
  (0 <= inject_Z (truncate (maxf (inject_Z lo) (inject_Z speed * 0.5)%Q))
   <= inject_Z hi)%Q
  /\ (0 <= inject_Z (truncate (minf (inject_Z hi) (inject_Z speed * 1.5)%Q))
      <= inject_Z hi)%Q
  /\ (0 <= inject_Z speed * 0.75 <= inject_Z hi)%Q.
Proof.
  intros speed. destruct (target_ok_Z _ (rotation_target x)) as [S0 S1].
  fold speed in S0, S1.
  pose proof (inject_Z_nonneg lo ltac:(lia)) as L0.
  pose proof (inject_Z_le lo hi ltac:(lia)) as L1.
  assert (A : 0 <= truncate (maxf (inject_Z lo) (inject_Z speed * 0.5)%Q) <= hi).
  { apply truncate_within; try lia;
      destruct (maxf_cases (inject_Z lo) (inject_Z speed * 0.5)%Q) as [[L ->]|[L ->]];
      lra. }
  assert (B : 0 <= truncate (minf (inject_Z hi) (inject_Z speed * 1.5)%Q) <= hi).
  { apply truncate_within; try lia;
      destruct (minf_cases (inject_Z hi) (inject_Z speed * 1.5)%Q) as [[L ->]|[L ->]];
      lra. }
  split; [now apply target_ok_Z|]. split; [now apply target_ok_Z|]. lra.
Qed.

Lemma turnLeft_within (speed : Z) (s : State) :
  wheelsWithin s -> safe wheelsWithin E (turnLeft speed) s.
Proof.
  intros Hs. pose proof Hs as (Hmax & Hmin & _). unfold turnLeft.
  apply safe_get.
  destruct (leftEmergencyStop (interlocks s));
    [apply silent_safe; [apply debug_within | exact Hs]|].
  apply safe_silent_bind; [apply debug_within | intros _].
  rewrite Hmax, Hmin. destruct (arc_targets speed) as (A & B & C).
  apply safe_silent_bind; [apply debugArg_within | intros _].
  now apply drive_within.
Qed.

Lemma turnRight_within (speed : Z) (s : State) :
  wheelsWithin s -> safe wheelsWithin E (turnRight speed) s.
Proof.
  intros Hs. pose proof Hs as (Hmax & Hmin & _). unfold turnRight.
  apply safe_get.
  destruct (rightEmergencyStop (interlocks s));
    [apply silent_safe; [apply debug_within | exact Hs]|].
  apply safe_silent_bind; [apply debug_within | intros _].
  rewrite Hmax, Hmin. destruct (arc_targets speed) as (A & B & C).
  apply safe_silent_bind; [apply debugArg_within | intros _].
  now apply drive_within.
Qed.

Lemma slideLeft_within (speed : Z) (s : State) :
  wheelsWithin s -> safe wheelsWithin E (slideLeft speed) s.
Proof.
  intros Hs. pose proof Hs as (Hmax & Hmin & _). unfold slideLeft.
  apply safe_get.
  destruct (leftEmergencyStop (interlocks s));
    [apply silent_safe; [apply debug_within | exact Hs]|].
  apply safe_silent_bind; [apply debug_within | intros _].
  rewrite Hmax, Hmin. pose proof (linear_target speed). pose proof zero_target.
  destruct (useThreeWheels (config s)); [now apply three_within|].
  destruct (negb false && negb (rightEmergencyStop (interlocks s))).
  - now apply rotateLeft_within.
  - apply silent_safe; [apply debug_within | exact Hs].
Qed.

Lemma slideRight_within (speed : Z) (s : State) :
  wheelsWithin s -> safe wheelsWithin E (slideRight speed) s.
Proof.
  intros Hs. pose proof Hs as (Hmax & Hmin & _). unfold slideRight.
  apply safe_get.
  destruct (rightEmergencyStop (interlocks s));
    [apply silent_safe; [apply debug_within | exact Hs]|].
  apply safe_silent_bind; [apply debug_within | intros _].
  rewrite Hmax, Hmin. pose proof (linear_target speed). pose proof zero_target.
  destruct (useThreeWheels (config s)); [now apply three_within|].
  destruct (negb (leftEmergencyStop (interlocks s)) && negb false).
  - now apply rotateRight_within.
  - apply silent_safe; [apply debug_within | exact Hs].
Qed.

Lemma ratio_03 : (0 <= 0.3 <= 1)%Q.
Proof. split; vm_compute; discriminate. Qed.

Lemma ratio_06 : (0 <= 0.6 <= 1)%Q.
Proof. split; vm_compute; discriminate. Qed.

(** The four diagonals. *)
Ltac diagonal_within f Hs :=
  pose proof Hs as (Hmax & Hmin & _); unfold f;
  apply safe_get;
  match goal with
  | |- context [if ?veto then _ else _] =>
      destruct veto; [apply silent_safe; [apply debug_within | exact Hs]|]
  end;
  apply safe_silent_bind; [apply debug_within | intros _];
  rewrite Hmax, Hmin;
  apply drive_within;
  [ first [apply linear_target | apply scaled_target; [apply linear_target | apply ratio_03]]
  | first [apply linear_target | apply scaled_target; [apply linear_target | apply ratio_03]]
  | apply scaled_target; [apply linear_target | apply ratio_06]
  | exact Hs ].

Lemma moveDiagonalForwardLeft_within (speed : Z) (s : State) :
  wheelsWithin s -> safe wheelsWithin E (moveDiagonalForwardLeft speed) s.
Proof. intros Hs. diagonal_within moveDiagonalForwardLeft Hs. Qed.

Lemma moveDiagonalForwardRight_within (speed : Z) (s : State) :
  wheelsWithin s -> safe wheelsWithin E (moveDiagonalForwardRight speed) s.
Proof. intros Hs. diagonal_within moveDiagonalForwardRight Hs. Qed.

Lemma moveDiagonalBackwardLeft_within (speed : Z) (s : State) :
  wheelsWithin s -> safe wheelsWithin E (moveDiagonalBackwardLeft speed) s.
Proof. intros Hs. diagonal_within moveDiagonalBackwardLeft Hs. Qed.

Lemma moveDiagonalBackwardRight_within (speed : Z) (s : State) :
  wheelsWithin s -> safe wheelsWithin E (moveDiagonalBackwardRight speed) s.
Proof. intros Hs. diagonal_within moveDiagonalBackwardRight Hs. Qed.

Lemma stop_branch_within (msg : string) (s : State) :
  wheelsWithin s ->
  safe wheelsWithin E (debugPrint msg ;; stopAllMotors)%monad s.
Proof.
  intros Hs. apply safe_silent_bind; [apply debug_within | intros _].
  now apply stopAllMotors_within.
Qed.

Lemma executeMovement_within (direction desiredSpeed : Z) (s : State) :
  wheelsWithin s ->
  safe wheelsWithin E (executeMovement direction desiredSpeed) s.
Proof.
  intros Hs. unfold executeMovement. apply safe_get.
  destruct (masterOverrideActive (interlocks s));
    [apply silent_safe; [apply debug_within | exact Hs]|].
  destruct (directionVetoed (interlocks s) direction);
    [apply silent_safe;
     [apply silent_when, vetoMessage_silent; intros; exact Logic.I | exact Hs]|].
  apply safe_silent_bind; [apply enablePins_within | intros _].
  apply safe_silent_bind; [apply silent_when, debugArg_within | intros _].
  destruct direction as [|p|p];
    try (do 4 (try destruct p as [p|p|]));
    cbv beta iota;
    first
      [ now apply stop_branch_within
      | now apply moveForward_within
      | now apply moveBackward_within
      | now apply turnLeft_within
      | now apply turnRight_within
      | now apply rotateLeft_within
      | now apply rotateRight_within
      | now apply slideLeft_within
      | now apply slideRight_within
      | now apply moveDiagonalForwardLeft_within
      | now apply moveDiagonalForwardRight_within
      | now apply moveDiagonalBackwardLeft_within
      | now apply moveDiagonalBackwardRight_within ].
Qed.

Lemma then_println_within {A} (m : M State A) (msg : string) (s : State) :
  safe wheelsWithin E m s -> safe wheelsWithin E (m ;; println msg)%monad s.
Proof.
  intros Hm. apply safe_bind; [exact Hm | intros _ s1 Hs1].
  apply silent_safe; [apply println_within | exact Hs1].
Qed.

Lemma handleMov_within (params : string) (s : State) :
  wheelsWithin s -> safe wheelsWithin E (handleMov params) s.
Proof.
  intros Hs. unfold handleMov.
  destruct (sscanf_d_d (list_ascii_of_string params)) as [|a [|b [|x l]]];
    try (apply silent_safe; [apply println_within | exact Hs]).
  now apply then_println_within, executeMovement_within.
Qed.

Lemma handleRot_within (params : string) (s : State) :
  wheelsWithin s -> safe wheelsWithin E (handleRot params) s.
Proof.
  intros Hs. unfold handleRot.
  destruct (sscanf_d_d (list_ascii_of_string params)) as [|a [|b [|x l]]];
    try (apply silent_safe; [apply println_within | exact Hs]).
  apply safe_get. destruct (a =? 1); [|destruct (a =? 2)].
  - now apply then_println_within, rotateLeft_within.
  - now apply then_println_within, rotateRight_within.
  - now apply then_println_within, stopAllMotors_within.
Qed.

Lemma handleTag_within (now : Z) (params : string) (s : State) :
  wheelsWithin s -> safe wheelsWithin E (handleTag now params) s.
Proof.
  intros Hs. unfold handleTag.
  destruct (sscanf_d_f_d_d (list_ascii_of_string params))
    as [[[[tagId distance] direction] desiredSpeed]|];
    [|apply silent_safe; [apply println_within | exact Hs]].
  apply safe_modify. apply safe_get.
  apply safe_silent_bind.
  { apply silent_when.
    repeat (apply silent_bind; [now apply silent_emit | intros _]).
    now apply silent_emit. }
  intros _. apply then_println_within, executeMovement_within. exact Hs.
Qed.

Lemma handleKey_within (key : ascii) (command : string) (s : State) :
  wheelsWithin s -> safe wheelsWithin E (handleKey key command) s.
Proof.
  intros Hs. unfold handleKey. apply safe_get.
  repeat match goal with
         | |- context [if Ascii.eqb key ?k then _ else _] =>
             destruct (Ascii.eqb key k);
             [now apply then_println_within, executeMovement_within|]
         end.
  unfold unknownCommand.
  apply silent_safe; [|exact Hs].
  repeat (apply silent_bind; [now apply silent_emit | intros _]).
  now apply silent_emit.
Qed.

End IntegratedDuty.

Section TrackingDuty.
Import Arduino Tracking.
Variable hi : Z.
Hypothesis limit : 0 <= hi.

(** The wheel speeds of the tracking sketch are within its [MAX_SPEED]. *)
Definition trackingWheelsWithin (t : State) : Prop :=
  MAX_SPEED t = hi
  /\ forall m, (0 <= currentSpeed (motor m t) <= inject_Z hi)%Q.

Let E : Event -> Prop := dutyWithin hi.

Lemma tracking_moveMotor_within (m : MotorId) (d : Direction) (target : Q) (t : State) :
  trackingWheelsWithin t ->
  safe trackingWheelsWithin E (moveMotor m d target) t.
Proof.
  intros (Hmax & Hw). unfold moveMotor.
  apply safe_emit; [exact Logic.I|]. apply safe_get. rewrite Hmax.
  pose proof (inject_Z_nonneg hi limit) as Hq.
  assert (T : (0 <= constrainf target 0 (inject_Z hi) <= inject_Z hi)%Q).
  { destruct (constrainf_cases target 0 (inject_Z hi))
      as [[_ ->]|[(_ & _ & ->)|(A & B & ->)]]; lra. }
  destruct (tracking_ramp_between hi (currentSpeed (motor m t))
              (constrainf target 0 (inject_Z hi))) as [R0 R1];
    try apply Hw; try tauto.
  set (current := ramp hi (currentSpeed (motor m t)) (constrainf target 0 (inject_Z hi))) in *.
  assert (Hd : 0 <= truncate current <= hi) by (apply truncate_within; auto).
  assert (W : forall v, (0 <= v <= inject_Z hi)%Q ->
                        forall t', trackingWheelsWithin t' ->
                                   trackingWheelsWithin (set_motor m {| currentSpeed := v |} t')).
  { intros v Hv t' (Hmax' & Hw'). split; [exact Hmax'|].
    intros m'. specialize (Hw' m'). destruct m, m'; cbn; auto. }
  apply safe_modify.
  assert (W1 : trackingWheelsWithin (set_motor m {| currentSpeed := current |} t)).
  { apply W; [tauto | now split]. }
  destruct d.
  - apply safe_emit; [exact Hd|]. apply safe_emit_last; [cbn; lia | exact W1].
  - apply safe_emit; [cbn; lia|]. apply safe_emit_last; [exact Hd | exact W1].
  - apply safe_emit; [cbn; lia|]. apply safe_emit; [cbn; lia|].
    apply safe_modify_last. apply W; [lra | exact W1].
Qed.

Lemma tracking_three_within (ma mb mc : MotorId) (da db dc : Direction)
  (ta tb tc : Q) (t : State) :
  trackingWheelsWithin t ->
  safe trackingWheelsWithin E
       (moveMotor ma da ta ;; moveMotor mb db tb ;; moveMotor mc dc tc)%monad t.
Proof.
  intros Ht.
  apply safe_bind; [now apply tracking_moveMotor_within | intros _ t1 Ht1].
  apply safe_bind; [now apply tracking_moveMotor_within | intros _ t2 Ht2].
  now apply tracking_moveMotor_within.
Qed.

Lemma tracking_stopAllMotors_within (t : State) :
  trackingWheelsWithin t -> safe trackingWheelsWithin E stopAllMotors t.
Proof. apply tracking_three_within. Qed.

Lemma moveRobot_within (vy vx omega : Q) (t : State) :
  trackingWheelsWithin t -> safe trackingWheelsWithin E (moveRobot vy vx omega) t.
Proof.
  intros Ht. unfold moveRobot. apply safe_get.
  destruct (wheelSpeeds vy vx omega) as [[l r] b].
  now apply tracking_three_within.
Qed.

Lemma safeRobotMove_within (vy vx omega : Q) (t : State) :
  trackingWheelsWithin t -> safe trackingWheelsWithin E (safeRobotMove vy vx omega) t.
Proof.
  intros Ht. unfold safeRobotMove. apply safe_get.
  destruct (emergencyStop t);
    [now apply tracking_stopAllMotors_within | now apply moveRobot_within].
Qed.

Lemma tracking_executeMovement_within (direction : ascii) (speed tagId : Z) (t : State) :
  trackingWheelsWithin t ->
  safe trackingWheelsWithin E (executeMovement direction speed tagId) t.
Proof.
  intros Ht. unfold executeMovement.
  repeat match goal with
         | |- context [if ?b then _ else _] => destruct b
         end;
    try (now apply safe_ret);
    (apply safe_emit; [exact Logic.I|]);
    first [now apply tracking_three_within | now apply tracking_stopAllMotors_within].
Qed.

Lemma calculatePID_within (now : Z) (error : Q) (t : State) :
  trackingWheelsWithin t ->
  safe trackingWheelsWithin E (calculatePID now error) t.
Proof.
  intros Ht. unfold calculatePID. apply safe_get. apply safe_modify.
  apply safe_ret. exact Ht.
Qed.

Lemma setTrackingState_within (x : TrackingState) (t : State) :
  trackingWheelsWithin t -> safe trackingWheelsWithin E (setTrackingState x) t.
Proof. intros Ht. apply safe_modify_last. exact Ht. Qed.

Lemma processMovement_within `{MathLib} (now : Z) (t : State) :
  trackingWheelsWithin t -> safe trackingWheelsWithin E (processMovement now) t.
Proof.
  intros Ht. unfold processMovement, calculateRotationSpeed, constrainRotationSpeed.
  apply safe_get.
  destruct (negb (tagVisible (tagController t)) || _).
  { apply safe_bind; [now apply safeRobotMove_within | intros _ t1 Ht1].
    now apply setTrackingState_within. }
  destruct (currentState (tagController t)).
  - now apply safeRobotMove_within.
  - destruct (Qle_bool _ _); [now apply setTrackingState_within|].
    apply safe_bind; [now apply calculatePID_within | intros omega t1 Ht1].
    now apply safeRobotMove_within.
  - destruct (Qle_bool _ _); [now apply setTrackingState_within|].
    apply safe_bind; [now apply calculatePID_within | intros omega t1 Ht1].
    now apply safeRobotMove_within.
  - destruct (_ || _); [now apply setTrackingState_within|].
    apply safe_bind; [|intros vrot t1 Ht1; now apply safeRobotMove_within].
    apply safe_bind; [now apply calculatePID_within | intros a t1 Ht1].
    destruct (Qltb a _); [now apply safe_ret|].
    apply safe_bind; [now apply calculatePID_within | intros b t2 Ht2].
    destruct (Qltb _ b); [now apply safe_ret|].
    now apply calculatePID_within.
Qed.

End TrackingDuty.

(** C5, as the code has it.  Integrated controller: as long as the limits
    satisfy [0 <= MIN_SPEED <= MAX_SPEED] and [MAX_ROTATION_SPEED <=
    MAX_SPEED] and every wheel speed lies in [0, MAX_SPEED] (true at boot
    and kept by every step below), every duty cycle written by
    [executeMovement], for any direction code and requested speed, and by
    the [MOV], [ROT] and [TAG] commands and the teleoperation keys lies in
    [0, MAX_SPEED]; the routines the sketch calls without defining them are
    taken to keep the same discipline.  Tag-tracking sketch: as long as
    [MAX_SPEED] is not negative and every wheel speed lies in
    [0, MAX_SPEED], every duty cycle written by [moveMotor] (which clamps
    its target), hence by the continuous mapper, the tag commands and the
    tracking step, lies in [0, MAX_SPEED]. *)
Theorem duty_within_configured_maximum :
  (forall (C : Integrated.Collaborators) (lo hi : Z) (s : Integrated.State),
      0 <= lo <= hi ->
      Integrated.MAX_ROTATION_SPEED <= hi ->
      (forall x s0, wheelsWithin lo hi s0 ->
         safe (wheelsWithin lo hi) (dutyWithin hi)
              (Integrated.navigateAroundObstacle x) s0) ->
      (forall s0, wheelsWithin lo hi s0 ->
         safe (wheelsWithin lo hi) (dutyWithin hi)
              Integrated.continueObstacleAvoidance s0) ->
      (forall s0, wheelsWithin lo hi s0 ->
         safe (wheelsWithin lo hi) (dutyWithin hi)
              Integrated.startSmoothDeceleration s0) ->
      wheelsWithin lo hi s ->
      (forall direction speed,
         safe (wheelsWithin lo hi) (dutyWithin hi)
              (Integrated.executeMovement direction speed) s)
      /\ (forall now params,
            safe (wheelsWithin lo hi) (dutyWithin hi)
                 (Integrated.dispatch now "MOV" params) s
            /\ safe (wheelsWithin lo hi) (dutyWithin hi)
                    (Integrated.dispatch now "ROT" params) s
            /\ safe (wheelsWithin lo hi) (dutyWithin hi)
                    (Integrated.dispatch now "TAG" params) s)
      /\ (forall key command,
            safe (wheelsWithin lo hi) (dutyWithin hi)
                 (Integrated.handleKey key command) s))
  /\ (forall (L : Tracking.MathLib) (hi : Z) (t : Tracking.State),
        0 <= hi ->
        trackingWheelsWithin hi t ->
        (forall m d target,
           safe (trackingWheelsWithin hi) (dutyWithin hi)
                (Tracking.moveMotor m d target) t)
        /\ (forall vy vx omega,
              safe (trackingWheelsWithin hi) (dutyWithin hi)
                   (Tracking.moveRobot vy vx omega) t)
        /\ (forall direction speed tagId,
              safe (trackingWheelsWithin hi) (dutyWithin hi)
                   (Tracking.executeMovement direction speed tagId) t)
        /\ (forall now,
              safe (trackingWheelsWithin hi) (dutyWithin hi)
                   (Tracking.processMovement now) t)).
Proof.
  split.
  - intros C lo hi s Hl Hr Hn Hc Hd Hs. split; [|split].
    + intros. now apply executeMovement_within.
    + intros now params. split; [|split].
      * now apply (handleMov_within lo hi Hl Hr Hn Hc Hd).
      * now apply (handleRot_within lo hi Hl Hr Hd).
      * now apply (handleTag_within lo hi Hl Hr Hn Hc Hd).
    + intros. now apply (handleKey_within lo hi Hl Hr Hn Hc Hd).
  - intros L hi t Hh Ht. split; [|split; [|split]]; intros.
    + now apply (tracking_moveMotor_within hi Hh).
    + now apply (moveRobot_within hi Hh).
    + now apply (tracking_executeMovement_within hi Hh).
    + now apply (processMovement_within hi Hh).
Qed.

(** After boot (limits 50 and 100, wheels at rest) an arc turn at the full
    requested speed writes duties within [0, 100]. *)
Lemma duty_within_configured_maximum_witness :
  Forall (dutyWithin 100)
    (Arduino.eventsOf
       (Integrated.executeMovement (H := Integrated.inertCollaborators) 3 100
          Integrated.readyState))
  /\ Arduino.duties
       (Arduino.eventsOf
          (Integrated.executeMovement (H := Integrated.inertCollaborators) 3 100
             Integrated.readyState))
     = [0; 50; 50; 0; 0; 0].
Proof.
  split; [|reflexivity].
  destruct duty_within_configured_maximum as [K _].
  destruct (K Integrated.inertCollaborators 50 100 Integrated.readyState)
    as (Hx & _).
  - lia.
  - vm_compute. discriminate.
  - intros x s0 Hs0. now apply safe_ret.
  - intros s0 Hs0. now apply safe_ret.
  - intros s0 Hs0. now apply safe_ret.
  - split; [reflexivity|]. split; [reflexivity|].
    intros m. destruct m; split; vm_compute; discriminate.
  - apply (Hx 3 100).
Defined.

(** C5 as stated fails once [MAX_SPEED] is lowered.  With the wheels at
    100 after seven forward keys, [SPEED:50,30] followed by one more forward
    key writes the duty 92 under a [MAX_SPEED] of 50: the ramp comes down
    from the old speed in steps.  And with [MAX_SPEED] lowered to 50 from
    the start, in three-wheel mode, the seventh [ROT:1,65] writes 52 to the
    back wheel: rotations are clamped to [MAX_ROTATION_SPEED], which is then
    above [MAX_SPEED]. *)
Lemma duty_above_lowered_maximum :
  (before ← Integrated.runCommands (H := Integrated.inertCollaborators) 0
              ["W"; "W"; "W"; "W"; "W"; "W"; "W"; "SPEED:50,30"]%string;
   last ← Integrated.parseCommand (H := Integrated.inertCollaborators) 0
            (list_ascii_of_string "W");
   let s := Arduino.stateOf (before Integrated.readyState) in
   Some (Integrated.MAX_SPEED (Integrated.config s),
         Arduino.duties (Arduino.eventsOf (last s))))
  = Some (50, [0; 92; 92; 0; 0; 0])
  /\ (before ← Integrated.runCommands (H := Integrated.inertCollaborators) 0
                ["SPEED:50,30"; "MODE:1"; "ROT:1,65"; "ROT:1,65"; "ROT:1,65";
                 "ROT:1,65"; "ROT:1,65"; "ROT:1,65"]%string;
      last ← Integrated.parseCommand (H := Integrated.inertCollaborators) 0
               (list_ascii_of_string "ROT:1,65");
      let s := Arduino.stateOf (before Integrated.readyState) in
      Some (Integrated.MAX_SPEED (Integrated.config s),
            Arduino.duties (Arduino.eventsOf (last s))))
     = Some (50, [30; 0; 30; 0; 0; 52]).
Proof. split; vm_compute; reflexivity. Qed.

(** * Further properties of the integrated controller *)

(** ** The wheel driver *)

(** The speed a call of [moveMotor] ramps from: zero when the call reverses
    a turning wheel, the wheel's current speed otherwise. *)
Definition rampBase (m : Arduino.MotorId) (dir : Arduino.Direction)
  (s : Integrated.State) : Q :=
  if negb (Arduino.Direction_eqb (Integrated.prevDirection m (Integrated.drive s)) dir)
     && negb (Arduino.Direction_eqb (Integrated.prevDirection m (Integrated.drive s))
                                    Arduino.STOP)
  then 0%Q
  else Integrated.currentSpeed (Integrated.motor m (Integrated.drive s)).

(** [n] calls of [moveMotor] in a row with the same arguments. *)
Fixpoint repeatMove (n : nat) (m : Arduino.MotorId) (dir : Arduino.Direction)
  (target : Q) (s : Integrated.State) : Integrated.State :=
  match n with
  | O => s
  | S k => Arduino.stateOf (Integrated.moveMotor m dir target (repeatMove k m dir target s))
  end.

Section WheelDriver.
Import Arduino Integrated.
Local Open Scope Q_scope.

Lemma moveMotor_turning (m : MotorId) (dir : Direction) (t : Q) (s : State) :
  dir <> STOP ->
  let current := ramp (MAX_SPEED (config s)) (rampBase m dir s) t in
  let speed := stallFloor (MIN_SPEED (config s)) (truncate current) in
  stateOf (moveMotor m dir t s)
  = set_drive (set_motor m current (set_prevDirection m dir (drive s))) s
  /\ duties (eventsOf (moveMotor m dir t s))
     = match dir with FORWARD => [speed; 0%Z] | _ => [0%Z; speed] end.
Proof.
  intros Hd. destruct dir; [| |congruence]; split; reflexivity.
Qed.

Lemma moveMotor_speed (m : MotorId) (dir : Direction) (t : Q) (s : State) :
  dir <> STOP ->
  currentSpeed (motor m (drive (stateOf (moveMotor m dir t s))))
  = ramp (MAX_SPEED (config s)) (rampBase m dir s) t.
Proof.
  intros Hd. destruct (moveMotor_turning m dir t s Hd) as [-> _].
  now destruct m.
Qed.

Lemma moveMotor_config (m : MotorId) (dir : Direction) (t : Q) (s : State) :
  config (stateOf (moveMotor m dir t s)) = config s.
Proof.
  unfold moveMotor. destruct dir; try reflexivity.
  repeat (rewrite ?stateOf_bind; cbn [emit get modify stateOf valueOf fst snd]).
  now destruct (negb (decelerationActive (drive s))).
Qed.

Lemma rampBase_after (m : MotorId) (dir : Direction) (t : Q) (s : State) :
  dir <> STOP ->
  rampBase m dir (stateOf (moveMotor m dir t s))
  = ramp (MAX_SPEED (config s)) (rampBase m dir s) t.
Proof.
  intros Hd. destruct (moveMotor_turning m dir t s Hd) as [-> _].
  unfold rampBase. destruct m, dir; try congruence; reflexivity.
Qed.

(** One step of the ramp: it stays between its base and the target and
    shortens the distance to the target by the acceleration step, or
    reaches the target. *)
Lemma ramp_step (hi : Z) (b t bound : Q) :
  (0 <= hi)%Z ->
  b == t \/ (- bound <= b - t /\ b - t <= bound) ->
  let c := ramp hi b t in
  let step := inject_Z hi * ACCEL_RATE in
  (c == t \/ (- (bound - step) <= c - t /\ c - t <= bound - step))
  /\ ((b <= c /\ c <= t) \/ (t <= c /\ c <= b))
  /\ - step <= c - b /\ c - b <= step.
Proof.
  intros Hhi Hb c step. subst c step. unfold ramp, ACCEL_RATE.
  pose proof (inject_Z_nonneg hi Hhi) as Hq.
  destruct (Qltb b t) eqn:L1.
  - apply Qltb_lt in L1.
    destruct (minf_cases t (b + inject_Z hi * 0.15)) as [[L ->]|[L ->]].
    + split; [left; reflexivity|]. split; [left|]; lra.
    + split; [right|split; [left|]]; destruct Hb as [Hb|[Hb1 Hb2]]; lra.
  - apply Qltb_ge in L1. destruct (Qltb t b) eqn:L2.
    + apply Qltb_lt in L2.
      destruct (maxf_cases t (b - inject_Z hi * 0.15)) as [[L ->]|[L ->]].
      * split; [left; reflexivity|]. split; [right|]; lra.
      * split; [right|split; [right|]]; destruct Hb as [Hb|[Hb1 Hb2]]; lra.
    + apply Qltb_ge in L2. split; [left; lra|]. split; [left|]; lra.
Qed.

Lemma repeatMove_progress (m : MotorId) (dir : Direction) (t : Q) (s : State)
  (n : nat) :
  dir <> STOP ->
  (0 <= MAX_SPEED (config s))%Z ->
  0 <= t -> t <= inject_Z (MAX_SPEED (config s)) ->
  0 <= currentSpeed (motor m (drive s)) ->
  currentSpeed (motor m (drive s)) <= inject_Z (MAX_SPEED (config s)) ->
  let s' := repeatMove n m dir t s in
  let b := rampBase m dir s' in
  let bound :=
    inject_Z (MAX_SPEED (config s)) * (1 - ACCEL_RATE * inject_Z (Z.of_nat n)) in
  config s' = config s
  /\ 0 <= b /\ b <= inject_Z (MAX_SPEED (config s))
  /\ (b == t \/ (- bound <= b - t /\ b - t <= bound)).
Proof.
  intros Hd Hhi T0 T1 C0 C1.
  pose proof (inject_Z_nonneg _ Hhi) as Hq.
  induction n as [|n IH]; cbn zeta.
  - cbn [repeatMove]. split; [reflexivity|].
    assert (B : 0 <= rampBase m dir s <= inject_Z (MAX_SPEED (config s))).
    { unfold rampBase. destruct (_ && _); split; auto; lra. }
    split; [tauto|]. split; [tauto|]. right.
    unfold ACCEL_RATE. change (inject_Z (Z.of_nat 0)) with 0. lra.
  - cbn zeta in IH. destruct IH as (Hc & B0 & B1 & Hn).
    cbn [repeatMove]. rewrite moveMotor_config, rampBase_after by assumption.
    rewrite Hc. split; [reflexivity|].
    destruct (integrated_ramp_between (MAX_SPEED (config s))
                (rampBase m dir (repeatMove n m dir t s)) t) as [R0 R1]; auto.
    split; [exact R0|]. split; [exact R1|].
    destruct (ramp_step (MAX_SPEED (config s)) _ t _ Hhi Hn) as (K & _).
    cbn zeta in K. destruct K as [K|K]; [now left|right].
    rewrite Nat2Z.inj_succ. unfold Z.succ. rewrite inject_Z_plus.
    change (inject_Z 1) with 1. unfold ACCEL_RATE in *. lra.
Qed.

(** X1. The acceleration ramp reaches its target: seven calls of
    [moveMotor] in a row for the same wheel, direction (forward or backward)
    and target speed leave the wheel's [currentSpeed] equal to the target,
    whatever speed and direction the wheel had before, as long as the
    target and the speed at the start lie between zero and [MAX_SPEED]. *)
Theorem ramp_reaches_target_in_seven_calls (m : MotorId) (dir : Direction)
  (t : Q) (s : State) :
  dir <> STOP ->
  (0 <= MAX_SPEED (config s))%Z ->
  0 <= t -> t <= inject_Z (MAX_SPEED (config s)) ->
  0 <= currentSpeed (motor m (drive s)) ->
  currentSpeed (motor m (drive s)) <= inject_Z (MAX_SPEED (config s)) ->
  currentSpeed (motor m (drive (repeatMove 7 m dir t s))) == t.
Proof.
  intros Hd Hhi T0 T1 C0 C1.
  pose proof (inject_Z_nonneg _ Hhi) as Hq.
  destruct (repeatMove_progress m dir t s 6 Hd Hhi T0 T1 C0 C1) as (Hc & B0 & B1 & Hn).
  cbn zeta in *.
  change (repeatMove 7 m dir t s)
    with (stateOf (moveMotor m dir t (repeatMove 6 m dir t s))).
  rewrite moveMotor_speed by assumption. rewrite Hc.
  destruct (ramp_step (MAX_SPEED (config s)) _ t _ Hhi Hn) as (K & _).
  cbn zeta in K. destruct K as [K|K]; [exact K|].
  change (inject_Z (Z.of_nat 6)) with 6 in K. unfold ACCEL_RATE in K.
  destruct (integrated_ramp_between (MAX_SPEED (config s))
              (rampBase m dir (repeatMove 6 m dir t s)) t) as [R0 R1]; auto.
  lra.
Qed.

(** The left wheel, at rest after boot, asked to turn forward at 80. *)
Lemma ramp_reaches_target_in_seven_calls_witness :
  currentSpeed (motor motorLeft (drive (repeatMove 7 motorLeft FORWARD 80 readyState)))
  == 80.
Proof.
  apply ramp_reaches_target_in_seven_calls;
    [discriminate | cbn; lia | unfold Qle; cbn; lia..].
Defined.

(** X2. The acceleration limit: a call of [moveMotor] that does not reverse
    the wheel (forward or backward, the wheel last driven the same way or
    stopped) moves [currentSpeed] toward the target by at most
    [MAX_SPEED * ACCEL_RATE] and never past the target. *)
Theorem moveMotor_acceleration_limited (m : MotorId) (dir : Direction)
  (t : Q) (s : State) :
  dir <> STOP ->
  (0 <= MAX_SPEED (config s))%Z ->
  prevDirection m (drive s) = dir \/ prevDirection m (drive s) = STOP ->
  let before := currentSpeed (motor m (drive s)) in
  let after := currentSpeed (motor m (drive (stateOf (moveMotor m dir t s)))) in
  let step := inject_Z (MAX_SPEED (config s)) * ACCEL_RATE in
  ((before <= after /\ after <= t) \/ (t <= after /\ after <= before))
  /\ - step <= after - before /\ after - before <= step.
Proof.
  intros Hd Hhi Hp before after step. subst before after step.
  rewrite moveMotor_speed by assumption.
  assert (B : rampBase m dir s = currentSpeed (motor m (drive s))).
  { unfold rampBase. destruct Hp as [-> | ->]; destruct dir; reflexivity. }
  rewrite B.
  assert (Hn : currentSpeed (motor m (drive s)) == t
               \/ (- Qabs (currentSpeed (motor m (drive s)) - t)
                   <= currentSpeed (motor m (drive s)) - t
                   /\ currentSpeed (motor m (drive s)) - t
                      <= Qabs (currentSpeed (motor m (drive s)) - t))).
  { right. split; [|apply Qle_Qabs].
    pose proof (Qle_Qabs (- (currentSpeed (motor m (drive s)) - t))) as A.
    rewrite Qabs_opp in A. lra. }
  destruct (ramp_step (MAX_SPEED (config s)) _ t _ Hhi Hn) as (_ & K).
  exact K.
Qed.

(** The right wheel turning forward at 90, asked for 20: one call brings it
    down to 75. *)
Lemma moveMotor_acceleration_limited_witness :
  let s :=
    set_drive
      (set_motor motorRight 90 (set_prevDirection motorRight FORWARD (drive readyState)))
      readyState in
  let after :=
    currentSpeed (motor motorRight (drive (stateOf (moveMotor motorRight FORWARD 20 s)))) in
  - (inject_Z 100 * ACCEL_RATE) <= after - 90.
Proof.
  intros s after.
  destruct (moveMotor_acceleration_limited motorRight FORWARD 20 s) as (_ & L & _);
    [discriminate | cbn; lia | left; reflexivity | exact L].
Defined.

(** X3. A reversal restarts the ramp: when [moveMotor] is asked to turn a
    wheel the other way than it was last driven, the wheel's speed after the
    call does not depend on its speed before: it is the first step of the
    ramp from rest, at most [MAX_SPEED * ACCEL_RATE] and at most the
    target. *)
Theorem reversal_restarts_from_rest (m : MotorId) (dir : Direction)
  (t : Q) (s : State) :
  dir <> STOP ->
  prevDirection m (drive s) <> dir ->
  prevDirection m (drive s) <> STOP ->
  (0 <= MAX_SPEED (config s))%Z ->
  0 <= t ->
  let after := currentSpeed (motor m (drive (stateOf (moveMotor m dir t s)))) in
  after = ramp (MAX_SPEED (config s)) 0 t
  /\ 0 <= after /\ after <= t
  /\ after <= inject_Z (MAX_SPEED (config s)) * ACCEL_RATE.
Proof.
  intros Hd Hp Hs Hhi T0 after. subst after.
  rewrite moveMotor_speed by assumption.
  assert (B : rampBase m dir s = 0).
  { unfold rampBase.
    destruct (prevDirection m (drive s)), dir; try congruence; reflexivity. }
  rewrite B. split; [reflexivity|].
  assert (Hn : 0 == t \/ (- t <= 0 - t /\ 0 - t <= t)) by (right; lra).
  destruct (ramp_step (MAX_SPEED (config s)) 0 t t Hhi Hn) as (_ & K & _ & U).
  cbn zeta in *. lra.
Qed.

(** The left wheel turning forward at full speed, asked to turn backward at
    full speed: it restarts at 15. *)
Lemma reversal_restarts_from_rest_witness :
  let s :=
    set_drive
      (set_motor motorLeft 100 (set_prevDirection motorLeft FORWARD (drive readyState)))
      readyState in
  currentSpeed (motor motorLeft (drive (stateOf (moveMotor motorLeft BACKWARD 100 s))))
  <= inject_Z 100 * ACCEL_RATE.
Proof.
  intros s.
  destruct (reversal_restarts_from_rest motorLeft BACKWARD 100 s) as (_ & _ & _ & U);
    [discriminate | discriminate | discriminate | cbn; lia | lra | exact U].
Defined.

(** X4. The stall floor: no call of [moveMotor] writes a duty cycle
    strictly between zero and [MIN_SPEED], whatever the wheel, direction,
    target and state. *)
Theorem no_duty_below_stall_floor (m : MotorId) (dir : Direction) (t : Q)
  (s : State) :
  Forall (fun duty => (duty <= 0 \/ MIN_SPEED (config s) <= duty)%Z)
         (duties (eventsOf (moveMotor m dir t s))).
Proof.
  assert (F : forall v, (stallFloor (MIN_SPEED (config s)) v <= 0
                         \/ MIN_SPEED (config s) <= stallFloor (MIN_SPEED (config s)) v)%Z).
  { intros v. unfold stallFloor.
    destruct (0 <? v)%Z eqn:P, (v <? MIN_SPEED (config s))%Z eqn:L; cbn [andb]; lia. }
  destruct dir.
  - destruct (moveMotor_turning m FORWARD t s) as [_ ->]; [discriminate|].
    constructor; [apply F|]. constructor; [lia | constructor].
  - destruct (moveMotor_turning m BACKWARD t s) as [_ ->]; [discriminate|].
    constructor; [lia|]. constructor; [apply F | constructor].
  - unfold moveMotor.
    repeat (rewrite ?eventsOf_bind; cbn [emit get modify eventsOf stateOf valueOf fst snd app]).
    destruct (negb (decelerationActive (drive s)));
      repeat (rewrite ?eventsOf_bind; cbn [emit get modify ret eventsOf stateOf valueOf fst snd app duties flat_map]);
      repeat (constructor; [lia|]); constructor.
Qed.

End WheelDriver.

(** ** Which requests reach the wheels *)

Section Requests.
Import Arduino Integrated.
Context `{Collaborators}.

Lemma debugPrint_run (msg : string) (s : State) :
  stateOf (debugPrint msg s) = s
  /\ Forall isTrace (eventsOf (debugPrint msg s))
  /\ (DEBUG_MODE (config s) = false -> eventsOf (debugPrint msg s) = []).
Proof.
  destruct (debugPrint_silent isTrace (fun _ => eq_refl) (fun _ => eq_refl) msg s)
    as [Hs He].
  repeat split; auto. intros Hd. unfold debugPrint, debugPrintArg.
  rewrite eventsOf_bind. cbn [get eventsOf valueOf stateOf fst snd app].
  now rewrite Hd.
Qed.

Lemma motorCalls_app (a b : list Event) :
  motorCalls (a ++ b) = motorCalls a ++ motorCalls b.
Proof. unfold motorCalls. apply flat_map_app. Qed.

Lemma duties_app (a b : list Event) : duties (a ++ b) = duties a ++ duties b.
Proof. unfold duties. apply flat_map_app. Qed.

Lemma trace_no_calls (es : list Event) :
  Forall isTrace es -> motorCalls es = [] /\ duties es = [].
Proof.
  induction 1 as [|e es He _ [IH1 IH2]]; [split; reflexivity|].
  destruct e; cbn in He; try discriminate; cbn; auto.
Qed.

(** X5. The master override gates every movement request: while
    [masterOverrideActive] is set, [executeMovement] returns with the
    globals as they were and without a [moveMotor] call or PWM write, for
    every direction code (stop and unknown codes included) and every speed;
    outside verbose mode it prints nothing either. *)
Theorem master_override_blocks_every_movement (s : State)
  (direction desiredSpeed : Z) :
  masterOverrideActive (interlocks s) = true ->
  let r := executeMovement direction desiredSpeed s in
  stateOf r = s /\ actuations (eventsOf r) = []
  /\ (DEBUG_MODE (config s) = false -> eventsOf r = []).
Proof.
  intros Hov r. subst r. unfold executeMovement.
  rewrite stateOf_bind, eventsOf_bind.
  cbn [get valueOf stateOf eventsOf fst snd app]. rewrite Hov.
  destruct (debugPrint_run "MOVEMENT_BLOCKED:MASTER_OVERRIDE" s) as (A & B & C).
  split; [exact A|]. split; [now apply trace_only_no_actuation | exact C].
Qed.

(** X6. The [ROT] command is not gated: for rotation direction 1 or 2 the
    handler calls [moveMotor] for all three wheels, at the requested speed
    clamped twice to [MIN_SPEED .. MAX_ROTATION_SPEED], in every state: the
    directional interlocks, the emergency stop and the master override are
    not consulted.  The front wheels turn forward for a left rotation and
    backward for a right one; the back wheel turns the other way in
    three-wheel mode and is stopped in two-wheel mode. *)
Theorem rot_command_is_not_gated (params : string) (direction speed : Z)
  (s : State) :
  sscanf_d_d (list_ascii_of_string params) = [direction; speed] ->
  direction = 1 \/ direction = 2 ->
  let v :=
    inject_Z (constrain
                (constrain speed (MIN_SPEED (config s)) MAX_ROTATION_SPEED)
                (MIN_SPEED (config s)) MAX_ROTATION_SPEED) in
  let front := if direction =? 1 then FORWARD else BACKWARD in
  let back := if direction =? 1 then BACKWARD else FORWARD in
  motorCalls (eventsOf (handleRot params s))
  = [(motorLeft, front, v); (motorRight, front, v);
     (if useThreeWheels (config s) then (motorBack, back, v)
      else (motorBack, STOP, 0%Q))].
Proof.
  intros Hp Hd. unfold handleRot. rewrite Hp.
  destruct s as [[mx mn dbg three en] il ds av [l r b pl pr pb dec] t1 t2].
  destruct Hd as [-> | ->]; destruct dbg, three, dec; reflexivity.
Qed.

(** X7. A forward request during an avoidance episode only steps the
    avoidance machine: with the front interlock down, avoidance enabled and
    its state not idle, [moveForward] calls [continueObstacleAvoidance]
    and commands no wheel itself; when the callee reports that the episode
    has concluded, the avoidance globals are reset to idle, zero attempts
    and not successful, otherwise the state is the one the callee left. *)
Theorem forward_request_steps_avoidance (speed : Z) (s : State) :
  frontEmergencyStop (interlocks s) = false ->
  isIdle (avoidanceState (avoidance s)) = false ->
  enableObstacleAvoidance (config s) = true ->
  let step := continueObstacleAvoidance s in
  let r := moveForward speed s in
  motorCalls (eventsOf r) = motorCalls (eventsOf step)
  /\ duties (eventsOf r) = duties (eventsOf step)
  /\ stateOf r
     = (if valueOf step then resetAvoidance (stateOf step) else stateOf step).
Proof.
  intros Hf Hi He step r. subst step r. unfold moveForward.
  rewrite stateOf_bind, eventsOf_bind.
  cbn [get valueOf stateOf eventsOf fst snd app]. rewrite Hf, Hi, He.
  cbn [negb andb]. rewrite stateOf_bind, eventsOf_bind.
  destruct (valueOf (continueObstacleAvoidance s)).
  - rewrite stateOf_bind, eventsOf_bind.
    cbn [get valueOf stateOf eventsOf fst snd app].
    rewrite stateOf_bind, eventsOf_bind.
    set (s1 := stateOf (continueObstacleAvoidance s)).
    set (msg := if avoidanceSuccessful (avoidance s1) then _ else _).
    assert (D : stateOf (msg s1) = s1 /\ Forall isTrace (eventsOf (msg s1))).
    { subst msg. destruct (avoidanceSuccessful (avoidance s1));
        match goal with
        | |- context [debugPrint ?t] =>
            destruct (debugPrint_run t s1) as (A & B & _); now split
        end. }
    destruct D as [D1 D2]. destruct (trace_no_calls _ D2) as [C1 C2].
    rewrite D1. cbn [modify stateOf eventsOf valueOf fst snd].
    rewrite !motorCalls_app, !duties_app, C1, C2, !app_nil_r. auto.
  - cbn [ret stateOf eventsOf fst snd]. rewrite !app_nil_r. auto.
Qed.

End Requests.

(** A forward request at full speed with the master override active. *)
Lemma master_override_blocks_every_movement_witness :
  let s :=
    Integrated.set_interlocks
      {| Integrated.masterOverrideActive := true;
         Integrated.emergencyStop := false;
         Integrated.frontEmergencyStop := false;
         Integrated.backEmergencyStop := false;
         Integrated.leftEmergencyStop := false;
         Integrated.rightEmergencyStop := false;
         Integrated.overridePinLow := true |}
      Integrated.readyState in
  Arduino.actuations
    (Arduino.eventsOf
       (Integrated.executeMovement (H := Integrated.inertCollaborators) 1 100 s)) = [].
Proof.
  intros s.
  destruct (master_override_blocks_every_movement
              (H := Integrated.inertCollaborators) s 1 100) as (_ & A & _);
    [reflexivity | exact A].
Defined.

(** [ROT:1,200] with the master override active and all four interlocks
    raised: the three wheels are called at 65. *)
Lemma rot_command_is_not_gated_witness :
  let s :=
    Integrated.set_interlocks
      {| Integrated.masterOverrideActive := true;
         Integrated.emergencyStop := true;
         Integrated.frontEmergencyStop := true;
         Integrated.backEmergencyStop := true;
         Integrated.leftEmergencyStop := true;
         Integrated.rightEmergencyStop := true;
         Integrated.overridePinLow := true |}
      Integrated.readyState in
  Arduino.motorCalls
    (Arduino.eventsOf
       (Integrated.handleRot (H := Integrated.inertCollaborators) "1,200" s))
  = [(Arduino.motorLeft, Arduino.FORWARD, 65%Q);
     (Arduino.motorRight, Arduino.FORWARD, 65%Q);
     (Arduino.motorBack, Arduino.STOP, 0%Q)].
Proof.
  intros s.
  apply (rot_command_is_not_gated (H := Integrated.inertCollaborators) "1,200" 1 200 s);
    [reflexivity | now left].
Defined.

(** A forward request while the avoidance machine is moving past an
    obstacle, with a callee that reports the episode concluded. *)
Lemma forward_request_steps_avoidance_witness :
  let s :=
    Integrated.set_avoidance
      {| Integrated.avoidanceState := Integrated.MOVING_PAST;
         Integrated.avoidanceAttempts := 2;
         Integrated.avoidanceSuccessful := true |}
      (Integrated.set_config
         (Integrated.set_enableObstacleAvoidance true
            (Integrated.config Integrated.readyState))
         Integrated.readyState) in
  Integrated.avoidance
    (Arduino.stateOf
       (Integrated.moveForward (H := Integrated.inertCollaborators) 80 s))
  = {| Integrated.avoidanceState := Integrated.IDLE;
       Integrated.avoidanceAttempts := 0;
       Integrated.avoidanceSuccessful := false |}.
Proof.
  intros s.
  destruct (forward_request_steps_avoidance
              (H := Integrated.inertCollaborators) 80 s) as (_ & _ & E);
    [reflexivity | reflexivity | reflexivity |].
  rewrite E. reflexivity.
Defined.

(** ** The interlock flags between control cycles *)

Section StopAndClear.
Import Arduino Integrated.
Context `{Collaborators}.

Lemma when_println_state (c : bool) (text : string) (s : State) :
  stateOf (when c (println text) s) = s.
Proof. now destruct c. Qed.

Lemma clearAll_state (s : State) :
  let i := interlocks s in
  let d := distances s in
  stateOf (clearAll s)
  = set_interlocks
      (set_flags
         (frontEmergencyStop i && negb (frontEmergencyStop i && frontClear d))
         (backEmergencyStop i && negb (backEmergencyStop i && backClear d))
         (leftEmergencyStop i && negb (leftEmergencyStop i && leftClear d))
         (rightEmergencyStop i && negb (rightEmergencyStop i && rightClear d)) i) s.
Proof.
  unfold clearAll.
  repeat (rewrite ?stateOf_bind, ?when_println_state;
          cbn [get modify ret valueOf stateOf fst snd]).
  reflexivity.
Qed.

(** A flag after [STOP]/[CLEAR]: as it was, or lowered with its side
    clear. *)
Definition keptOrCleared (after before clear : bool) : Prop :=
  after = before \/ (after = false /\ clear = true).

Lemma keptOrCleared_and (before clear : bool) :
  keptOrCleared (before && negb (before && clear)) before clear.
Proof. destruct before, clear; cbn; [right|left|left|left]; auto. Qed.

Lemma keptOrCleared_same (before clear : bool) : keptOrCleared before before clear.
Proof. now left. Qed.

Lemma handleStop_branch (params : string) (s1 : State) :
  let i := interlocks s1 in
  let d := distances s1 in
  let debug := DEBUG_MODE (config s1) in
  let branch : M State unit :=
    match params with
    | EmptyString =>
        clearedAny <- clearAll ;;
        if clearedAny then println "<ACK:STOP:EMERGENCY_PARTLY_CLEARED>"
        else if emergencyStop i then println "<ACK:STOP:EMERGENCY_ACTIVE>"
        else println "<ACK:STOP>"
    | _ =>
        if String.eqb params "FRONT" && frontClear d then
          modify (set_interlocks
                    (set_flags false (backEmergencyStop i) (leftEmergencyStop i)
                               (rightEmergencyStop i) i)) ;;
          when debug (println "<CLEARED:FRONT_EMERGENCY>")
        else if String.eqb params "BACK" && backClear d then
          modify (set_interlocks
                    (set_flags (frontEmergencyStop i) false (leftEmergencyStop i)
                               (rightEmergencyStop i) i)) ;;
          when debug (println "<CLEARED:BACK_EMERGENCY>")
        else if String.eqb params "LEFT" && leftClear d then
          modify (set_interlocks
                    (set_flags (frontEmergencyStop i) (backEmergencyStop i) false
                               (rightEmergencyStop i) i)) ;;
          when debug (println "<CLEARED:LEFT_EMERGENCY>")
        else if String.eqb params "RIGHT" && rightClear d then
          modify (set_interlocks
                    (set_flags (frontEmergencyStop i) (backEmergencyStop i)
                               (leftEmergencyStop i) false i)) ;;
          when debug (println "<CLEARED:RIGHT_EMERGENCY>")
        else if String.eqb params "ALL" then
          clearedAny <- clearAll ;;
          if clearedAny then println "<ACK:STOP:EMERGENCY_PARTLY_CLEARED>"
          else println "<ACK:STOP:NO_CHANGE>"
        else println "<ERR:Invalid CLEAR direction>"
    end%monad in
  exists f b l r,
    stateOf (branch s1) = set_interlocks (set_flags f b l r i) s1
    /\ keptOrCleared f (frontEmergencyStop i) (frontClear d)
    /\ keptOrCleared b (backEmergencyStop i) (backClear d)
    /\ keptOrCleared l (leftEmergencyStop i) (leftClear d)
    /\ keptOrCleared r (rightEmergencyStop i) (rightClear d).
Proof.
  intros i d debug branch.
  assert (All : forall k : bool -> M State unit,
             (forall v s0, stateOf (k v s0) = s0) ->
             exists f b l r,
               stateOf (bind clearAll k s1) = set_interlocks (set_flags f b l r i) s1
               /\ keptOrCleared f (frontEmergencyStop i) (frontClear d)
               /\ keptOrCleared b (backEmergencyStop i) (backClear d)
               /\ keptOrCleared l (leftEmergencyStop i) (leftClear d)
               /\ keptOrCleared r (rightEmergencyStop i) (rightClear d)).
  { intros k Hk. rewrite stateOf_bind, Hk, clearAll_state.
    do 4 eexists. split; [reflexivity|].
    repeat split; apply keptOrCleared_and. }
  assert (Same : set_interlocks
                   (set_flags (frontEmergencyStop i) (backEmergencyStop i)
                              (leftEmergencyStop i) (rightEmergencyStop i) i) s1 = s1).
  { subst i. now destruct s1 as [c [] ds a dr t1 t2]. }
  subst branch. destruct params as [|c rest].
  - apply All. intros v s0. destruct v; [reflexivity|].
    now destruct (emergencyStop i).
  - destruct (String.eqb (String c rest) "FRONT" && frontClear d) eqn:E1.
    { apply andb_true_iff in E1 as [_ E1].
      exists false, (backEmergencyStop i), (leftEmergencyStop i), (rightEmergencyStop i).
      rewrite stateOf_bind. cbn [modify valueOf stateOf fst snd].
      rewrite when_println_state. split; [reflexivity|].
      repeat split; try apply keptOrCleared_same. right. auto. }
    destruct (String.eqb (String c rest) "BACK" && backClear d) eqn:E2.
    { apply andb_true_iff in E2 as [_ E2].
      exists (frontEmergencyStop i), false, (leftEmergencyStop i), (rightEmergencyStop i).
      rewrite stateOf_bind. cbn [modify valueOf stateOf fst snd].
      rewrite when_println_state. split; [reflexivity|].
      repeat split; try apply keptOrCleared_same. right. auto. }
    destruct (String.eqb (String c rest) "LEFT" && leftClear d) eqn:E3.
    { apply andb_true_iff in E3 as [_ E3].
      exists (frontEmergencyStop i), (backEmergencyStop i), false, (rightEmergencyStop i).
      rewrite stateOf_bind. cbn [modify valueOf stateOf fst snd].
      rewrite when_println_state. split; [reflexivity|].
      repeat split; try apply keptOrCleared_same. right. auto. }
    destruct (String.eqb (String c rest) "RIGHT" && rightClear d) eqn:E4.
    { apply andb_true_iff in E4 as [_ E4].
      exists (frontEmergencyStop i), (backEmergencyStop i), (leftEmergencyStop i), false.
      rewrite stateOf_bind. cbn [modify valueOf stateOf fst snd].
      rewrite when_println_state. split; [reflexivity|].
      repeat split; try apply keptOrCleared_same. right. auto. }
    destruct (String.eqb (String c rest) "ALL").
    { apply All. intros v s0. now destruct v. }
    exists (frontEmergencyStop i), (backEmergencyStop i),
      (leftEmergencyStop i), (rightEmergencyStop i).
    cbn [println emit stateOf fst snd]. rewrite Same.
    repeat split; apply keptOrCleared_same.
Qed.

(** The interlock record after the [STOP]/[CLEAR] handler, in terms of the
    state [stopAllMotors] leaves. *)
Lemma handleStop_interlocks (params : string) (s : State) :
  let s1 := stateOf (stopAllMotors s) in
  let i := interlocks s1 in
  let d := distances s1 in
  exists f b l r,
    interlocks (stateOf (handleStop params s))
    = set_emergencyStop (f || b || l || r) (set_flags f b l r i)
    /\ keptOrCleared f (frontEmergencyStop i) (frontClear d)
    /\ keptOrCleared b (backEmergencyStop i) (backClear d)
    /\ keptOrCleared l (leftEmergencyStop i) (leftClear d)
    /\ keptOrCleared r (rightEmergencyStop i) (rightClear d).
Proof.
  intros s1 i d. subst i d. unfold handleStop.
  rewrite stateOf_bind. fold s1.
  rewrite stateOf_bind. cbn [get valueOf stateOf fst snd].
  rewrite stateOf_bind.
  destruct (handleStop_branch params s1) as (f & b & l & r & E & K).
  cbn zeta in E. rewrite E.
  exists f, b, l, r. split; [reflexivity | exact K].
Qed.

Lemma stopAllMotors_state (s : State) :
  stateOf (stopAllMotors s) = stateOf (startSmoothDeceleration s).
Proof.
  unfold stopAllMotors. rewrite !stateOf_bind.
  cbn [get valueOf stateOf fst snd].
  destruct (_ && _); [|reflexivity].
  now destruct (debugPrint_silent (fun _ => True) (fun _ => I) (fun _ => I)
                  "STOPPED:MASTER_OVERRIDE" (stateOf (startSmoothDeceleration s))).
Qed.

(** X8. [STOP] and [CLEAR] only lower interlocks of clear sides.  Whatever
    the parameter, the handler raises no directional interlock, and a flag
    that was raised is lowered only when every sensor of its side reads
    beyond [SAFE_DISTANCE]; the master override is left as it is.  (The
    deceleration routine the handler calls first is taken not to write the
    interlocks or the distances.) *)
Theorem clear_lowers_only_clear_sides (params : string) (s : State) :
  (forall s0, interlocks (stateOf (startSmoothDeceleration s0)) = interlocks s0
              /\ distances (stateOf (startSmoothDeceleration s0)) = distances s0) ->
  let i := interlocks s in
  let d := distances s in
  let i' := interlocks (stateOf (handleStop params s)) in
  (frontEmergencyStop i' = true -> frontEmergencyStop i = true)
  /\ (backEmergencyStop i' = true -> backEmergencyStop i = true)
  /\ (leftEmergencyStop i' = true -> leftEmergencyStop i = true)
  /\ (rightEmergencyStop i' = true -> rightEmergencyStop i = true)
  /\ (frontEmergencyStop i = true -> frontEmergencyStop i' = false ->
      (SAFE_DISTANCE < distFL d /\ SAFE_DISTANCE < distF d
       /\ SAFE_DISTANCE < distFR d)%Q)
  /\ (backEmergencyStop i = true -> backEmergencyStop i' = false ->
      (SAFE_DISTANCE < distBL d /\ SAFE_DISTANCE < distB d
       /\ SAFE_DISTANCE < distBR d)%Q)
  /\ (leftEmergencyStop i = true -> leftEmergencyStop i' = false ->
      (SAFE_DISTANCE < distFL d /\ SAFE_DISTANCE < distBL d)%Q)
  /\ (rightEmergencyStop i = true -> rightEmergencyStop i' = false ->
      (SAFE_DISTANCE < distFR d /\ SAFE_DISTANCE < distBR d)%Q)
  /\ masterOverrideActive i' = masterOverrideActive i.
Proof.
  intros Frame i d i'.
  destruct (handleStop_interlocks params s) as (f & b & l & r & E & Kf & Kb & Kl & Kr).
  cbn zeta in *. rewrite stopAllMotors_state in *.
  destruct (Frame s) as [Fi Fd]. rewrite Fi, Fd in *. fold i d in E, Kf, Kb, Kl, Kr.
  subst i'. rewrite E.
  cbn [set_emergencyStop set_flags frontEmergencyStop backEmergencyStop
       leftEmergencyStop rightEmergencyStop masterOverrideActive].
  unfold keptOrCleared, frontClear, backClear, leftClear, rightClear in *.
  rewrite !andb_true_iff, !Qltb_lt in *.
  repeat split; try (intros; intuition congruence).
Qed.

(** X9. The summary flag [emergencyStop] is the disjunction of the four
    directional interlocks after every [STOP]/[CLEAR] command and after
    every interlock update of the control cycle.  (For the update, the
    emergency stop of the deceleration module is taken not to write the
    interlocks.) *)
Theorem emergency_stop_summarises_flags :
  (forall s0, interlocks (stateOf (emergencyStopAllMotors s0)) = interlocks s0) ->
  let summarised (i : Interlocks) :=
    emergencyStop i
    = frontEmergencyStop i || backEmergencyStop i
      || leftEmergencyStop i || rightEmergencyStop i in
  (forall params s, summarised (interlocks (stateOf (handleStop params s))))
  /\ (forall now s, summarised (interlocks (stateOf (updateInterlocks now s)))).
Proof.
  intros Frame summarised. subst summarised. split.
  - intros params s.
    destruct (handleStop_interlocks params s) as (f & b & l & r & E & _).
    cbn zeta in E. rewrite E. reflexivity.
  - intros now s. unfold updateInterlocks.
    repeat (rewrite ?stateOf_bind, ?valueOf_bind, ?updateFlag_value, ?updateFlag_state;
            cbn [get modify valueOf stateOf fst snd]).
    assert (Dbg : forall a s0, stateOf (debugPrintArg a s0) = s0).
    { intros a s0.
      now destruct (debugPrintArg_silent (fun _ => True) (fun _ => I) (fun _ => I) a s0). }
    match goal with
    | |- context [when ?c ?m] => destruct c; cbn [when]
    end;
    match goal with
    | |- context [when ?c ?m] => destruct c; cbn [when]
    end;
    repeat (rewrite ?stateOf_bind, ?Dbg, ?Frame; unfold debugPrint;
            cbn [get modify ret valueOf stateOf fst snd interlocks set_interlocks
                 emergencyStop frontEmergencyStop backEmergencyStop
                 leftEmergencyStop rightEmergencyStop]);
    reflexivity.
Qed.

End StopAndClear.

(** [CLEAR:FRONT] with the front and left interlocks raised and only the
    back-left sensor still within [SAFE_DISTANCE]: the front flag is lowered
    and the left one stays. *)
Lemma clear_lowers_only_clear_sides_witness :
  let s :=
    Integrated.set_distances
      {| Integrated.distFL := 90; Integrated.distF := 90; Integrated.distFR := 90;
         Integrated.distBL := 40; Integrated.distB := 90; Integrated.distBR := 90 |}
      (Integrated.set_interlocks
         (Integrated.set_flags true false true false
            (Integrated.interlocks Integrated.initState))
         Integrated.initState) in
  let i' :=
    Integrated.interlocks
      (Arduino.stateOf
         (Integrated.handleStop (H := Integrated.inertCollaborators) "FRONT" s)) in
  Integrated.frontEmergencyStop i' = false
  /\ (Integrated.backEmergencyStop i' = true -> False).
Proof.
  intros s i'.
  destruct (clear_lowers_only_clear_sides (H := Integrated.inertCollaborators) "FRONT" s)
    as (_ & B & _).
  - intros s0. split; reflexivity.
  - split; [reflexivity|]. intros E. apply B in E. discriminate.
Defined.

(** [STOP] after the sensors cleared, with a stale summary flag. *)
Lemma emergency_stop_summarises_flags_witness :
  let s :=
    Integrated.set_interlocks
      (Integrated.set_emergencyStop true
         (Integrated.set_flags true false false false
            (Integrated.interlocks Integrated.readyState)))
      Integrated.readyState in
  Integrated.emergencyStop
    (Integrated.interlocks
       (Arduino.stateOf
          (Integrated.handleStop (H := Integrated.inertCollaborators) "" s)))
  = false.
Proof.
  intros s.
  destruct (emergency_stop_summarises_flags (H := Integrated.inertCollaborators))
    as [K _]; [reflexivity|].
  rewrite (K EmptyString s). reflexivity.
Defined.

(** ** Commands that configure, and commands that are turned down *)

(** The range the [SPEED] command keeps the two limits in. *)
Definition limitsOrdered (c : Integrated.Config) : Prop :=
  50 <= Integrated.MAX_SPEED c <= 255
  /\ 30 <= Integrated.MIN_SPEED c <= Integrated.MAX_SPEED c - 5.

(** The verbs [parseCommand] knows, and the single-character keys. *)
Definition verbs : list string :=
  ["TEST"; "PING"; "STOP"; "CLEAR"; "MOV"; "ROT"; "SPEED"; "SENS"; "MODE";
   "DEBUG"; "AVOID"; "I2C"; "STATUS"; "TAG"]%string.

Definition teleopKeys : list ascii :=
  ["W"; "S"; "A"; "D"; "Q"; "E"; "4"; "6"; "7"; "9"; "1"; "3"; "5"]%char.

(** A command whose parameters the handler of its verb cannot use, with the
    reply the handler gives. *)
Inductive Malformed : string -> string -> string -> Prop :=
| malformed_mov (params : string) :
    length (Integrated.sscanf_d_d (list_ascii_of_string params)) <> 2%nat ->
    Malformed "MOV" params "<ERR:Invalid MOV params>"
| malformed_rot (params : string) :
    length (Integrated.sscanf_d_d (list_ascii_of_string params)) <> 2%nat ->
    Malformed "ROT" params "<ERR:Invalid ROT params>"
| malformed_mode (params : string) :
    Integrated.sscanf_d (list_ascii_of_string params) = [] ->
    Malformed "MODE" params "<ERR:Invalid MODE param>"
| malformed_mode_value (params : string) (mode : Z) :
    Integrated.sscanf_d (list_ascii_of_string params) = [mode] ->
    mode <> 0 -> mode <> 1 ->
    Malformed "MODE" params "<ERR:Invalid mode value (use 0 or 1)>"
| malformed_tag (params : string) :
    Integrated.sscanf_d_f_d_d (list_ascii_of_string params) = None ->
    Malformed "TAG" params "<ERR:Invalid TAG params>".

Section Configuration.
Import Arduino Integrated.
Context `{Collaborators}.

(** X10. The [SPEED] command keeps the speed limits ordered: after the
    handler, [50 <= MAX_SPEED <= 255] and [30 <= MIN_SPEED <= MAX_SPEED - 5],
    whenever that held before (it holds at boot) or the parameters are two
    integers, whatever their values; the other configuration flags are
    untouched. *)
Theorem speed_command_keeps_limits_ordered (params : string) (s : State) :
  limitsOrdered (config s)
  \/ length (sscanf_d_d (list_ascii_of_string params)) = 2%nat ->
  let c' := config (stateOf (handleSpeed params s)) in
  limitsOrdered c'
  /\ DEBUG_MODE c' = DEBUG_MODE (config s)
  /\ useThreeWheels c' = useThreeWheels (config s)
  /\ enableObstacleAvoidance c' = enableObstacleAvoidance (config s).
Proof.
  intros Hyp c'. subst c'. unfold handleSpeed.
  destruct (sscanf_d_d (list_ascii_of_string params)) as [|a [|b [|c l]]];
    cbn [length] in Hyp;
    try (destruct Hyp as [Hyp|Hyp]; [|discriminate];
         cbn [println emit stateOf fst snd]; tauto).
  repeat (rewrite ?stateOf_bind; cbn [modify print println emit valueOf stateOf fst snd]).
  cbn [config set_config set_speeds MAX_SPEED MIN_SPEED DEBUG_MODE useThreeWheels
       enableObstacleAvoidance].
  split; [|auto]. unfold limitsOrdered. cbn [MAX_SPEED MIN_SPEED set_speeds].
  pose proof (constrain_between a 50 255 ltac:(lia)) as Ha.
  pose proof (constrain_between b 30 (constrain a 50 255 - 5) ltac:(lia)) as Hb.
  lia.
Qed.

Lemma not_in_eqb (command : string) (known : list string) :
  ~ In command known -> Forall (fun v => String.eqb command v = false) known.
Proof.
  intros Hn. apply List.Forall_forall. intros v Hv.
  apply String.eqb_neq. intros ->. now apply Hn.
Qed.

Lemma not_key_eqb (key : ascii) (keys : list ascii) :
  ~ In key keys -> Forall (fun k => Ascii.eqb key k = false) keys.
Proof.
  intros Hn. apply List.Forall_forall. intros k Hk.
  apply Ascii.eqb_neq. intros ->. now apply Hn.
Qed.

Lemma unknown_verb_dispatch (now : Z) (command params : string) (s : State) :
  ~ In command verbs ->
  dispatch now command params s
  = match command with
    | String key EmptyString => handleKey key command s
    | _ => unknownCommand command s
    end.
Proof.
  intros Hn. apply not_in_eqb in Hn. unfold verbs in Hn.
  repeat match goal with
         | F : Forall _ (_ :: _) |- _ => apply Forall_cons_1 in F as [? F]
         end.
  unfold dispatch.
  repeat match goal with
         | E : String.eqb command _ = false |- _ => rewrite E; clear E
         end.
  cbn [orb]. now destruct command as [|key [|c rest]].
Qed.

Lemma unknown_key (key : ascii) (command : string) (s : State) :
  ~ In key teleopKeys -> handleKey key command s = unknownCommand command s.
Proof.
  intros Hn. apply not_key_eqb in Hn. unfold teleopKeys in Hn.
  repeat match goal with
         | F : Forall _ (_ :: _) |- _ => apply Forall_cons_1 in F as [? F]
         end.
  unfold handleKey, bind at 1, get.
  repeat match goal with
         | E : Ascii.eqb key _ = false |- _ => rewrite E; clear E
         end.
  now destruct (unknownCommand command s) as [[u s'] e].
Qed.

(** X11. A command that is turned down changes nothing.  When the
    parameters of [MOV], [ROT], [MODE] or [TAG] do not scan (or the mode is
    neither 0 nor 1), the dispatcher prints the one error line of that verb;
    when the verb is none of the known ones and not a teleoperation key, it
    prints the unknown-command error with the verb; in both cases the
    globals are left exactly as they were and no wheel is commanded. *)
Theorem rejected_command_changes_nothing (now : Z) (command params : string)
  (s : State) :
  (forall reply, Malformed command params reply ->
     dispatch now command params s = (tt, s, [SerialPrintln (AStr reply)]))
  /\ (~ In command verbs ->
      (forall key, command = String key EmptyString -> ~ In key teleopKeys) ->
      dispatch now command params s
      = (tt, s, [SerialPrint (AStr "<ERR:Unknown command ");
                 SerialPrint (AStr command); SerialPrintln (AStr ">")])).
Proof.
  split.
  - intros reply M. destruct M as [p Hp|p Hp|p Hp|p mode Hp H0 H1|p Hp].
    + change (dispatch now "MOV" p s) with (handleMov p s). unfold handleMov.
      destruct (sscanf_d_d (list_ascii_of_string p)) as [|a [|b [|c l]]];
        try reflexivity. now cbn in Hp.
    + change (dispatch now "ROT" p s) with (handleRot p s). unfold handleRot.
      destruct (sscanf_d_d (list_ascii_of_string p)) as [|a [|b [|c l]]];
        try reflexivity. now cbn in Hp.
    + change (dispatch now "MODE" p s) with (handleMode p s). unfold handleMode.
      now rewrite Hp.
    + change (dispatch now "MODE" p s) with (handleMode p s). unfold handleMode.
      rewrite Hp. apply Z.eqb_neq in H0, H1. now rewrite H0, H1.
    + change (dispatch now "TAG" p s) with (handleTag now p s). unfold handleTag.
      now rewrite Hp.
  - intros Hv Hk. rewrite unknown_verb_dispatch by assumption.
    destruct command as [|key [|c rest]]; try reflexivity.
    rewrite unknown_key by (now apply Hk). reflexivity.
Qed.

End Configuration.

(** [SPEED:300,10] from the boot configuration: the limits become 255 and
    30. *)
Lemma speed_command_keeps_limits_ordered_witness :
  limitsOrdered
    (Integrated.config
       (Arduino.stateOf (Integrated.handleSpeed "300,10" Integrated.initState))).
Proof.
  apply (speed_command_keeps_limits_ordered "300,10" Integrated.initState).
  left. unfold limitsOrdered. cbn. lia.
Defined.

(** [MODE:3WHEEL] and [FLY:1] are both turned down. *)
Lemma rejected_command_changes_nothing_witness :
  Arduino.stateOf
    (Integrated.dispatch (H := Integrated.inertCollaborators) 0 "MODE" "3WHEEL"
       Integrated.readyState)
  = Integrated.readyState
  /\ Arduino.stateOf
       (Integrated.dispatch (H := Integrated.inertCollaborators) 0 "FLY" "1"
          Integrated.readyState)
     = Integrated.readyState.
Proof.
  destruct (rejected_command_changes_nothing (H := Integrated.inertCollaborators)
              0 "MODE" "3WHEEL" Integrated.readyState) as [M _].
  destruct (rejected_command_changes_nothing (H := Integrated.inertCollaborators)
              0 "FLY" "1" Integrated.readyState) as [_ U].
  split.
  - rewrite (M "<ERR:Invalid mode value (use 0 or 1)>"%string); [reflexivity|].
    apply (malformed_mode_value "3WHEEL" 3); [reflexivity | lia | lia].
  - rewrite U; [reflexivity | |].
    + cbn. intros K. repeat (destruct K as [K|K]; [discriminate|]). exact K.
    + intros key E. discriminate.
Defined.

(** ** The serial parser: bounds, line mode, time-out *)

(** The parser statics respect the array: 64 cells, the write index inside
    them. *)
Definition withinBuffer (p : Integrated.Parser) : Prop :=
  length (Integrated.buffer p) = Integrated.COMMAND_BUFFER_SIZE
  /\ (Integrated.index p < Integrated.COMMAND_BUFFER_SIZE)%nat.

(** A byte that has no meaning of its own outside a frame: not a line end,
    not the start marker, not the escape character, not NUL. *)
Definition plainByte (c : ascii) : bool :=
  negb (Ascii.eqb c Integrated.LF || Ascii.eqb c Integrated.CR
        || Ascii.eqb c Integrated.START_MARKER
        || Ascii.eqb c Integrated.ESCAPE_CHAR
        || Ascii.eqb c Integrated.NUL).

(** The parser is outside a frame, not after an escape character, with
    [done] in the first [index] cells of its buffer. *)
Definition inLine (done : list ascii) (p : Integrated.Parser) : Prop :=
  Integrated.messageStarted p = false /\ Integrated.escapeNext p = false
  /\ length (Integrated.buffer p) = Integrated.COMMAND_BUFFER_SIZE
  /\ Integrated.index p = length done
  /\ take (Integrated.index p) (Integrated.buffer p) = done.

Section Parser.
Import Arduino Integrated.
Local Open Scope nat_scope.

Lemma c_str_bound (bytes : list ascii) (i : nat) :
  bytes !! i = Some NUL -> length (c_str bytes) <= i.
Proof.
  revert i. induction bytes as [|c bytes IH]; intros i Hi; [discriminate|].
  simpl. destruct (Ascii.eqb_spec c NUL) as [->|Hc]; [simpl; lia|].
  destruct i as [|i]; simpl in Hi.
  - congruence.
  - simpl. apply IH in Hi. lia.
Qed.

Lemma c_str_no_nul (bytes : list ascii) : NUL ∉ c_str bytes.
Proof.
  induction bytes as [|c bytes IH]; simpl; [apply not_elem_of_nil|].
  destruct (Ascii.eqb_spec c NUL) as [->|Hc]; [apply not_elem_of_nil|].
  apply not_elem_of_cons. split; [congruence | exact IH].
Qed.

Lemma c_str_plain (text : list ascii) : NUL ∉ text -> c_str text = text.
Proof.
  intros Hn. rewrite <- (app_nil_r text) at 1.
  induction text as [|c text IH]; [reflexivity|].
  simpl. destruct (Ascii.eqb_spec c NUL) as [->|Hc].
  - exfalso. apply Hn. now left.
  - f_equal. apply IH. intros Hin. apply Hn. now right.
Qed.

Lemma handOver_within (started : bool) (p : Parser) :
  withinBuffer p ->
  withinBuffer (fst (handOver started p))
  /\ length (c_str (snd (handOver started p))) < COMMAND_BUFFER_SIZE.
Proof.
  intros [Hl Hi]. unfold handOver, withinBuffer. cbn [fst snd buffer index].
  rewrite length_insert. split; [split; [exact Hl | unfold COMMAND_BUFFER_SIZE; lia]|].
  assert (K : <[index p := NUL]> (buffer p) !! index p = Some NUL).
  { apply list_lookup_insert_eq. lia. }
  apply c_str_bound in K. lia.
Qed.

Lemma store_within (c : ascii) (p : Parser) :
  withinBuffer p -> index p < COMMAND_BUFFER_SIZE - 1 -> withinBuffer (store c p).
Proof.
  intros [Hl Hi] Hb. unfold store, withinBuffer. cbn [buffer index].
  rewrite length_insert. unfold COMMAND_BUFFER_SIZE in *. lia.
Qed.

Lemma serialStep_within (c : ascii) (p : Parser) :
  withinBuffer p ->
  withinBuffer (fst (serialStep c p))
  /\ forall cmd, snd (serialStep c p) = Some cmd ->
                 length (c_str cmd) < COMMAND_BUFFER_SIZE.
Proof.
  intros Hp. pose proof Hp as [Hl Hi]. unfold serialStep.
  destruct (negb (messageStarted p) && (Ascii.eqb c LF || Ascii.eqb c CR)).
  { destruct (0 <? index p).
    - destruct (handOver_within (messageStarted p) p Hp) as [W L].
      destruct (handOver (messageStarted p) p) as [p' cmd]. cbn [fst snd] in *.
      split; [exact W|]. now intros ? [= <-].
    - cbn [fst snd]. split; [exact Hp | discriminate]. }
  destruct (Ascii.eqb c START_MARKER && negb (escapeNext p)).
  { cbn [fst snd]. split; [|discriminate].
    split; cbn [buffer index]; [exact Hl | unfold COMMAND_BUFFER_SIZE; lia]. }
  destruct (Ascii.eqb c END_MARKER && negb (escapeNext p) && messageStarted p).
  { destruct (handOver_within false p Hp) as [W L].
    destruct (handOver false p) as [p' cmd]. cbn [fst snd] in *.
    split; [exact W|]. now intros ? [= <-]. }
  destruct (Ascii.eqb c ESCAPE_CHAR && negb (escapeNext p)).
  { cbn [fst snd]. split; [|discriminate]. split; cbn [buffer index]; assumption. }
  destruct (index p <? COMMAND_BUFFER_SIZE - 1) eqn:Hb;
    [|cbn [fst snd]; split; [exact Hp | discriminate]].
  apply Nat.ltb_lt in Hb.
  pose proof (store_within c p Hp Hb) as Hs.
  repeat match goal with
         | |- context [if ?b then _ else _] => destruct b
         end;
    cbn [fst snd]; (split; [assumption | discriminate]).
Qed.

Lemma serialLoop_within (input : list ascii) (p : Parser) :
  withinBuffer p ->
  withinBuffer (fst (serialLoop input p))
  /\ Forall (fun cmd => length cmd < COMMAND_BUFFER_SIZE /\ NUL ∉ cmd)
            (snd (serialLoop input p)).
Proof.
  revert p. induction input as [|c input IH]; intros p Hp.
  - split; [exact Hp | constructor].
  - simpl. destruct (serialStep_within c p Hp) as [W L].
    destruct (serialStep c p) as [p1 cmd]. cbn [fst snd] in *.
    destruct (IH p1 W) as [W' L'].
    destruct (serialLoop input p1) as [p2 cmds]. cbn [fst snd] in *.
    split; [exact W'|]. destruct cmd as [b|]; [|exact L'].
    constructor; [|exact L']. split; [now apply L | apply c_str_no_nul].
Qed.

Lemma refreshBuffer_within (now : Z) (p : Parser) :
  withinBuffer p -> withinBuffer (fst (refreshBuffer now p)).
Proof.
  intros [Hl Hi]. unfold refreshBuffer, withinBuffer.
  destruct ((0 <? index p) && (1000 <? elapsed now (bufferStartTime p))%Z);
    cbn [index]; [destruct (0 =? 0) | destruct (index p =? 0)];
    cbn [fst buffer index]; split; auto; unfold COMMAND_BUFFER_SIZE; lia.
Qed.

(** X12. The serial parser never leaves its buffer: from parser statics
    with the write index inside the 64-byte array (as at boot), every call
    of [processSerialInput], on any bytes at any time, ends with the index
    inside the array again, so no byte and no terminator is ever written
    past the end; and every command it hands to the dispatcher is shorter
    than 64 bytes and free of NUL. *)
Theorem parser_stays_within_buffer (now : Z) (input : list ascii) (p : Parser)
  (s : State) :
  withinBuffer p ->
  let r := valueOf (processSerialInput now input p s) in
  withinBuffer (fst r)
  /\ Forall (fun cmd => length cmd < COMMAND_BUFFER_SIZE /\ NUL ∉ cmd) (snd r).
Proof.
  intros Hp r. subst r. rewrite processSerialInput_value.
  apply serialLoop_within. now apply refreshBuffer_within.
Qed.

Lemma plainByte_spec (c : ascii) :
  plainByte c = true ->
  Ascii.eqb c LF = false /\ Ascii.eqb c CR = false
  /\ Ascii.eqb c START_MARKER = false /\ Ascii.eqb c ESCAPE_CHAR = false
  /\ c <> NUL.
Proof.
  unfold plainByte. rewrite negb_true_iff, !orb_false_iff.
  intros ((((A & B) & C) & D) & E). repeat split; auto.
  now apply Ascii.eqb_neq.
Qed.

Lemma line_step (done : list ascii) (c : ascii) (p : Parser) :
  inLine done p -> plainByte c = true ->
  done <> [] \/ c <> SPACE ->
  length done < COMMAND_BUFFER_SIZE - 1 ->
  serialStep c p = (store c p, None) /\ inLine (done ++ [c]) (store c p).
Proof.
  intros (Hm & He & Hl & Hi & Ht) Hc Hfirst Hb.
  destruct (plainByte_spec c Hc) as (C1 & C2 & C3 & C4 & C5).
  split.
  - unfold serialStep. rewrite Hm, He, C1, C2, C3, C4. cbn [negb andb orb].
    rewrite !andb_false_r.
    assert (B : (index p <? COMMAND_BUFFER_SIZE - 1) = true)
      by (apply Nat.ltb_lt; lia).
    rewrite B. destruct (index p =? 0) eqn:Z0.
    + destruct Hfirst as [Hd|Hs].
      * apply Nat.eqb_eq in Z0. destruct done; [congruence | simpl in Hi; lia].
      * apply Ascii.eqb_neq in Hs. now rewrite Hs.
    + apply Nat.eqb_neq in Z0.
      assert (P : (0 <? index p) = true) by (apply Nat.ltb_lt; lia).
      now rewrite P.
  - unfold inLine, store. cbn [messageStarted escapeNext buffer index].
    unfold COMMAND_BUFFER_SIZE in *.
    repeat split; auto.
    + now rewrite length_insert.
    + rewrite length_app. simpl. lia.
    + rewrite (take_S_r _ _ c).
      * rewrite take_insert_ge by lia. now rewrite Ht.
      * apply list_lookup_insert_eq. lia.
Qed.

Lemma line_bytes (rest done : list ascii) (p : Parser) :
  inLine done p ->
  Forall (fun c => plainByte c = true) rest ->
  done <> [] \/ head rest <> Some SPACE ->
  length done + length rest < COMMAND_BUFFER_SIZE ->
  inLine (done ++ rest) (fst (serialLoop rest p))
  /\ snd (serialLoop rest p) = [].
Proof.
  revert done p. induction rest as [|c rest IH]; intros done p Hp Hr Hfirst Hlen.
  - simpl. now rewrite app_nil_r.
  - apply Forall_cons_1 in Hr as [Hc Hr].
    assert (Hf : done <> [] \/ c <> SPACE).
    { destruct Hfirst as [Hd|Hs]; [now left|right]. intros ->. now apply Hs. }
    assert (Hb : length done < COMMAND_BUFFER_SIZE - 1).
    { unfold COMMAND_BUFFER_SIZE in *. simpl in Hlen. lia. }
    destruct (line_step done c p Hp Hc Hf Hb) as [Hs Hi].
    simpl. rewrite Hs.
    replace (done ++ c :: rest) with ((done ++ [c]) ++ rest)
      by now rewrite <- app_assoc.
    assert (Hnext : length (done ++ [c]) + length rest < COMMAND_BUFFER_SIZE).
    { rewrite length_app. simpl in *. lia. }
    assert (Hne : done ++ [c] <> [] \/ head rest <> Some SPACE).
    { left. now destruct done. }
    specialize (IH (done ++ [c]) _ Hi Hr Hne Hnext).
    destruct (serialLoop rest (store c p)) as [p' cmds]. exact IH.
Qed.

Lemma line_end (done : list ascii) (c : ascii) (p : Parser) :
  inLine done p -> done <> [] -> length done < COMMAND_BUFFER_SIZE ->
  c = LF \/ c = CR ->
  exists p' tail,
    serialStep c p = (p', Some (done ++ NUL :: tail)) /\ inLine [] p'.
Proof.
  intros (Hm & He & Hl & Hi & Ht) Hne Hlen Hc.
  assert (P : (0 <? index p) = true).
  { apply Nat.ltb_lt. destruct done; [congruence | simpl in Hi; lia]. }
  unfold serialStep. rewrite Hm.
  assert (T : Ascii.eqb c LF || Ascii.eqb c CR = true)
    by (destruct Hc as [-> | ->]; reflexivity).
  rewrite T, P. cbn [negb andb].
  exists (fst (handOver false p)), (drop (S (index p)) (buffer p)).
  unfold handOver. cbn [fst index messageStarted escapeNext].
  split.
  - f_equal. f_equal. rewrite insert_take_drop by lia. now rewrite Ht.
  - unfold inLine. cbn [messageStarted escapeNext buffer index].
    rewrite length_insert. repeat split; auto.
Qed.

Lemma line_dispatch (line eol : list ascii) (p : Parser) :
  inLine [] p ->
  line <> [] -> head line <> Some SPACE ->
  Forall (fun c => plainByte c = true) line ->
  length line < COMMAND_BUFFER_SIZE ->
  eol = [LF] \/ eol = [CR] \/ eol = [CR; LF] ->
  snd (serialLoop (line ++ eol) p) = [line]
  /\ inLine [] (fst (serialLoop (line ++ eol) p)).
Proof.
  intros Hp Hne Hsp Hplain Hlen Heol.
  assert (Hn : NUL ∉ line).
  { intros Hin. rewrite Forall_forall in Hplain. apply Hplain in Hin.
    apply plainByte_spec in Hin. tauto. }
  rewrite serialLoop_app.
  destruct (line_bytes line [] p Hp Hplain (or_intror Hsp) Hlen) as [L1 L2].
  cbn [app] in L1. rewrite L2. cbn [app].
  set (p1 := fst (serialLoop line p)) in *.
  assert (End1 : forall c, c = LF \/ c = CR ->
                   exists p',
                     serialLoop [c] p1 = (p', [line]) /\ inLine [] p').
  { intros c Hc.
    destruct (line_end line c p1 L1 Hne Hlen Hc) as (p' & tail & Hs & Hi).
    exists p'. cbn [serialLoop]. rewrite Hs.
    now rewrite c_str_terminated by assumption. }
  destruct Heol as [-> | [-> | ->]].
  - destruct (End1 LF) as (p' & -> & Hi); [now left | now split].
  - destruct (End1 CR) as (p' & -> & Hi); [now right | now split].
  - change [CR; LF] with ([CR] ++ [LF]). rewrite serialLoop_app.
    destruct (End1 CR) as (p' & -> & Hi); [now right|]. cbn [fst snd].
    destruct Hi as (Hm & He & Hl & Hi & Ht).
    assert (S2 : serialStep LF p' = (p', None)).
    { unfold serialStep. rewrite Hm, Hi. reflexivity. }
    cbn [serialLoop]. rewrite S2. cbn [fst snd app].
    split; [reflexivity | repeat split; auto].
Qed.

(** X13. Line mode.  A command typed without frame markers and ended by a
    line feed, a carriage return or both is dispatched once, byte for byte:
    for an idle parser and a line of 1 to 63 bytes that does not begin with
    a space and contains no line end, start marker, escape character or
    NUL, [processSerialInput] hands exactly the line to the dispatcher and
    is idle again afterwards. *)
Theorem line_command_round_trip (now : Z) (s : State) (p : Parser)
  (line eol : list ascii) :
  inLine [] p ->
  line <> [] -> head line <> Some SPACE ->
  Forall (fun c => plainByte c = true) line ->
  length line < COMMAND_BUFFER_SIZE ->
  eol = [LF] \/ eol = [CR] \/ eol = [CR; LF] ->
  let r := valueOf (processSerialInput now (line ++ eol) p s) in
  snd r = [line] /\ inLine [] (fst r).
Proof.
  intros Hp Hne Hsp Hplain Hlen Heol r. subst r.
  rewrite processSerialInput_value. apply line_dispatch; auto.
  destruct Hp as (Hm & He & Hl & Hi & Ht).
  unfold refreshBuffer. cbn [length] in Hi. rewrite Hi.
  cbn [Nat.ltb Nat.leb andb fst]. rewrite Hi. cbn [Nat.eqb].
  unfold inLine. cbn [messageStarted escapeNext buffer index length].
  rewrite Hi in Ht. repeat split; auto.
Qed.

(** X14. The buffer time-out.  Bytes that have waited in the buffer for
    more than 1000 ms are discarded with whatever the parser was in the
    middle of (a frame, an escape): the next line that arrives is
    dispatched alone and intact, and the buffer timer restarts at the time
    of the call. *)
Theorem stale_input_is_discarded (now : Z) (s : State) (p : Parser)
  (line eol : list ascii) :
  length (buffer p) = COMMAND_BUFFER_SIZE ->
  0 < index p ->
  (1000 < elapsed now (bufferStartTime p))%Z ->
  line <> [] -> head line <> Some SPACE ->
  Forall (fun c => plainByte c = true) line ->
  length line < COMMAND_BUFFER_SIZE ->
  eol = [LF] \/ eol = [CR] \/ eol = [CR; LF] ->
  let r := valueOf (processSerialInput now (line ++ eol) p s) in
  snd r = [line] /\ inLine [] (fst r)
  /\ bufferStartTime (fst (refreshBuffer now p)) = now.
Proof.
  intros Hl Hi Hold Hne Hsp Hplain Hlen Heol r. subst r.
  rewrite processSerialInput_value.
  assert (R : fst (refreshBuffer now p)
              = {| buffer := buffer p; index := 0; messageStarted := false;
                   escapeNext := false; bufferStartTime := now |}).
  { unfold refreshBuffer. apply Nat.ltb_lt in Hi. apply Z.ltb_lt in Hold.
    rewrite Hi, Hold. reflexivity. }
  rewrite R. cbn [bufferStartTime].
  destruct (line_dispatch line eol
              {| buffer := buffer p; index := 0; messageStarted := false;
                 escapeNext := false; bufferStartTime := now |}) as [A B]; auto.
  repeat split; auto.
Qed.

End Parser.

(** The first bytes of a frame, received by the parser of the boot state. *)
Lemma parser_stays_within_buffer_witness :
  withinBuffer
    (fst (Arduino.valueOf
            (Integrated.processSerialInput 0 (list_ascii_of_string "<MOV:1,80")
               Integrated.initParser Integrated.initState))).
Proof.
  apply (parser_stays_within_buffer 0 (list_ascii_of_string "<MOV:1,80")
           Integrated.initParser Integrated.initState).
  split; [reflexivity | unfold Integrated.COMMAND_BUFFER_SIZE; cbn; lia].
Defined.

(** [PING] ended by a carriage return and a line feed, typed at the idle
    parser of the boot state. *)
Lemma line_command_round_trip_witness :
  snd (Arduino.valueOf
         (Integrated.processSerialInput 0
            (list_ascii_of_string "PING" ++ [Integrated.CR; Integrated.LF])
            Integrated.initParser Integrated.initState))
  = [list_ascii_of_string "PING"].
Proof.
  apply (line_command_round_trip 0 Integrated.initState Integrated.initParser
           (list_ascii_of_string "PING") [Integrated.CR; Integrated.LF]).
  - repeat split; reflexivity.
  - discriminate.
  - discriminate.
  - repeat constructor.
  - cbn. unfold Integrated.COMMAND_BUFFER_SIZE. lia.
  - right. right. reflexivity.
Defined.

(** Half a frame, [<MOV:1], received at time 0; at time 1500 the line
    [STOP] arrives. *)
Lemma stale_input_is_discarded_witness :
  let p :=
    fst (Arduino.valueOf
           (Integrated.processSerialInput 0 (list_ascii_of_string "<MOV:1")
              Integrated.initParser Integrated.initState)) in
  snd (Arduino.valueOf
         (Integrated.processSerialInput 1500
            (list_ascii_of_string "STOP" ++ [Integrated.LF]) p Integrated.initState))
  = [list_ascii_of_string "STOP"].
Proof.
  intros p.
  apply (stale_input_is_discarded 1500 Integrated.initState p
           (list_ascii_of_string "STOP") [Integrated.LF]).
  - reflexivity.
  - cbn. lia.
  - reflexivity.
  - discriminate.
  - discriminate.
  - repeat constructor.
  - cbn. unfold Integrated.COMMAND_BUFFER_SIZE. lia.
  - left. reflexivity.
Defined.

(** ** From the serial port to the handler *)

Section Delivery.
Import Arduino Integrated.
Local Open Scope nat_scope.

Lemma escape_plain (payload : list ascii) :
  Forall (fun c => needsEscape c = false) payload -> escape payload = payload.
Proof.
  induction 1 as [|c payload Hc _ IH]; [reflexivity|].
  simpl. rewrite Hc. now f_equal.
Qed.

(** Once 63 bytes are in the buffer, further bytes of the frame are
    dropped. *)
Lemma frame_overflow (rest done : list ascii) (p : Parser) :
  inFrame done p ->
  rest = [] \/ length done = COMMAND_BUFFER_SIZE - 1 ->
  Forall (fun c => needsEscape c = false) rest ->
  serialLoop rest p = (p, []).
Proof.
  intros (Hm & He & Hl & Hi & Ht) Hfull Hplain.
  induction Hplain as [|c rest Hc _ IH]; [reflexivity|].
  destruct Hfull as [Hnil|Hfull]; [discriminate|].
  unfold needsEscape in Hc.
  apply orb_false_iff in Hc as [Hc H3]. apply orb_false_iff in Hc as [H1 H2].
  cbn [serialLoop].
  assert (S1 : serialStep c p = (p, None)).
  { unfold serialStep. rewrite Hm, He, H1, H2, H3. cbn [negb andb].
    assert (B : (index p <? COMMAND_BUFFER_SIZE - 1) = false)
      by (apply Nat.ltb_ge; lia).
    now rewrite B. }
  rewrite S1, IH by (now right). reflexivity.
Qed.

Lemma truncated_frame (p : Parser) (payload : list ascii) :
  escapeNext p = false -> length (buffer p) = COMMAND_BUFFER_SIZE ->
  Forall (fun c => needsEscape c = false) payload -> NUL ∉ payload ->
  snd (serialLoop (frame payload) p) = [take (COMMAND_BUFFER_SIZE - 1) payload]
  /\ index (fst (serialLoop (frame payload) p)) = 0
  /\ messageStarted (fst (serialLoop (frame payload) p)) = false
  /\ escapeNext (fst (serialLoop (frame payload) p)) = false.
Proof.
  intros He Hl Hplain Hn. unfold frame. rewrite escape_plain by assumption.
  set (kept := take (COMMAND_BUFFER_SIZE - 1) payload).
  set (lost := drop (COMMAND_BUFFER_SIZE - 1) payload).
  assert (Hk : length kept < COMMAND_BUFFER_SIZE).
  { subst kept. rewrite length_take. unfold COMMAND_BUFFER_SIZE. lia. }
  assert (Hkn : NUL ∉ kept).
  { intros Hin. apply Hn. subst kept.
    apply elem_of_take in Hin as (i & Hi & _). now apply list_elem_of_lookup_2 in Hi. }
  replace (START_MARKER :: payload ++ [END_MARKER])
    with ([START_MARKER] ++ escape kept ++ lost ++ [END_MARKER]).
  2:{ rewrite escape_plain by (subst kept; now apply Forall_take).
      cbn [app]. f_equal. rewrite app_assoc. f_equal.
      subst kept lost. apply take_drop. }
  rewrite !serialLoop_app.
  destruct (step_start p He Hl) as [S0 S1].
  cbn [serialLoop]. destruct (serialStep START_MARKER p) as [p0 c0].
  cbn [fst snd] in *. subst c0.
  destruct (escaped_payload kept [] p0 S1 Hk) as [P1 P2].
  rewrite P2. cbn [app] in P1 |- *.
  set (p1 := fst (serialLoop (escape kept) p0)) in *.
  assert (Drop : serialLoop lost p1 = (p1, [])).
  { apply (frame_overflow lost kept p1 P1).
    - destruct (Nat.le_gt_cases (length payload) (COMMAND_BUFFER_SIZE - 1)) as [L|L].
      + left. subst lost. now apply drop_ge.
      + right. subst kept. rewrite length_take. lia.
    - subst lost. now apply Forall_drop. }
  rewrite Drop. cbn [fst snd app].
  destruct (step_end kept _ P1 Hk) as (p' & tail & Hs & Hi & Hm & He').
  rewrite Hs. cbn [fst snd app]. rewrite c_str_terminated by assumption. auto.
Qed.

(** X15. A frame that is too long is cut, not refused: of a framed payload
    without markers, escape characters or NUL, of any length, the parser
    hands the first 63 bytes to the dispatcher (the whole payload when it
    is no longer than that), once, and returns to the idle state. *)
Theorem overlong_frame_is_truncated (now : Z) (s : State) (p : Parser)
  (payload : list ascii) :
  length (buffer p) = COMMAND_BUFFER_SIZE ->
  escapeNext p = false ->
  Forall (fun c => needsEscape c = false) payload ->
  NUL ∉ payload ->
  let r := valueOf (processSerialInput now (frame payload) p s) in
  snd r = [take (COMMAND_BUFFER_SIZE - 1) payload]
  /\ index (fst r) = 0 /\ messageStarted (fst r) = false.
Proof.
  intros Hl He Hplain Hn r. subst r. rewrite processSerialInput_value.
  destruct (refreshBuffer_ready now p He Hl) as [He' Hl'].
  destruct (truncated_frame _ payload He' Hl' Hplain Hn) as (A & B & C & _).
  auto.
Qed.

Lemma colonPos_app (verb rest : list ascii) :
  ":"%char ∉ verb -> colonPos (verb ++ ":"%char :: rest) = Some (length verb).
Proof.
  induction verb as [|c verb IH]; intros Hn; [reflexivity|].
  simpl. destruct (Ascii.eqb_spec c ":") as [->|Hc].
  - exfalso. apply Hn. now left.
  - rewrite IH; [reflexivity|]. intros Hin. apply Hn. now right.
Qed.

Lemma colonPos_none (text : list ascii) : ":"%char ∉ text -> colonPos text = None.
Proof.
  induction text as [|c text IH]; intros Hn; [reflexivity|].
  simpl. destruct (Ascii.eqb_spec c ":") as [->|Hc].
  - exfalso. apply Hn. now left.
  - rewrite IH; [reflexivity|]. intros Hin. apply Hn. now right.
Qed.

(** X16. [parseCommand] splits at the first colon and loses nothing: a
    verb without a colon, shorter than 16 bytes, followed by a colon and a
    parameter text shorter than 48 bytes (which may itself contain colons)
    is split into exactly that verb and that parameter text; the verb alone
    is split into itself and the empty parameter text. *)
Theorem split_at_first_colon (verb params : list ascii) :
  ":"%char ∉ verb ->
  length verb < 16 ->
  length params < COMMAND_BUFFER_SIZE - 16 ->
  splitCommand (verb ++ ":"%char :: params)
  = Some (string_of_list_ascii verb, string_of_list_ascii params)
  /\ splitCommand verb = Some (string_of_list_ascii verb, EmptyString).
Proof.
  intros Hn Hv Hp. unfold splitCommand. split.
  - rewrite colonPos_app by assumption.
    rewrite take_app_length.
    replace (drop (S (length verb)) (verb ++ ":"%char :: params)) with params.
    2:{ change (verb ++ ":"%char :: params) with (verb ++ [":"%char] ++ params).
        rewrite app_assoc.
        replace (S (length verb)) with (length (verb ++ [":"%char]))
          by (rewrite length_app; simpl; lia).
        now rewrite drop_app_length. }
    apply Nat.ltb_lt in Hv, Hp. now rewrite Hv, Hp.
  - rewrite colonPos_none by assumption.
    apply Nat.ltb_lt in Hv. now rewrite Hv.
Qed.

Context `{Collaborators}.

(** X17. From the wire to the handler.  A frame that carries a verb, a
    colon and a parameter text (no NUL, the verb without colon and shorter
    than 16 bytes, the parameters shorter than 48 and free of markers and
    escape characters like the verb), received by the idle parser, makes one
    pass of the serial service run exactly the dispatch of that verb with
    those parameters, after the echo of verbose mode, and leaves the parser
    idle. *)
Theorem framed_command_reaches_its_handler (now : Z) (p : Parser)
  (verb params : list ascii) :
  inLine [] p ->
  ":"%char ∉ verb -> length verb < 16 ->
  length params < COMMAND_BUFFER_SIZE - 16 ->
  let text := verb ++ ":"%char :: params in
  Forall (fun c => needsEscape c = false) text -> NUL ∉ text ->
  exists run,
    serviceSerial now (frame text) p = Some run
    /\ forall s,
         let handler :=
           dispatch now (string_of_list_ascii verb) (string_of_list_ascii params) s in
         stateOf (run s) = stateOf handler
         /\ eventsOf (run s) = echo s text ++ eventsOf handler
         /\ index (valueOf (run s)) = 0
         /\ messageStarted (valueOf (run s)) = false.
Proof.
  intros (Hm & He & Hl & Hi & _) Hc Hv Hp text Hplain Hn.
  cbn [length] in Hi.
  assert (R : refreshBuffer now p
              = ({| buffer := buffer p; index := index p;
                    messageStarted := messageStarted p; escapeNext := escapeNext p;
                    bufferStartTime := now |}, false)).
  { unfold refreshBuffer. rewrite Hi. cbn [Nat.ltb Nat.leb andb].
    rewrite Hi. reflexivity. }
  unfold serviceSerial. rewrite R.
  set (p1 := {| buffer := buffer p; index := index p;
                messageStarted := messageStarted p; escapeNext := escapeNext p;
                bufferStartTime := now |}).
  assert (Hlen : length text < COMMAND_BUFFER_SIZE).
  { subst text. rewrite length_app. simpl. unfold COMMAND_BUFFER_SIZE in *. lia. }
  destruct (truncated_frame p1 text He Hl Hplain Hn) as (A & B & C & _).
  rewrite take_ge in A by lia.
  destruct (serialLoop (frame text) p1) as [p2 cmds]. cbn [fst snd] in A, B, C.
  subst cmds.
  destruct (split_at_first_colon verb params Hc Hv Hp) as [Split _].
  assert (P : parseCommand now text
              = Some (s <- get ;;
                      when (DEBUG_MODE (config s))
                        (print (AStr "Received command: ") ;;
                         println (string_of_list_ascii text)) ;;
                      dispatch now (string_of_list_ascii verb)
                               (string_of_list_ascii params))%monad).
  { unfold parseCommand. rewrite c_str_plain by assumption.
    fold text in Split. rewrite Split. reflexivity. }
  cbn [mapM]. rewrite P. cbn [mbind option_bind mret option_ret foldr].
  eexists. split; [reflexivity|]. intros s.
  repeat (rewrite ?stateOf_bind, ?eventsOf_bind, ?valueOf_bind;
          cbn [when ret get valueOf stateOf eventsOf fst snd app]).
  unfold echo. destruct (DEBUG_MODE (config s)); cbn [when].
  - repeat (rewrite ?stateOf_bind, ?eventsOf_bind, ?valueOf_bind;
            cbn [print println emit ret valueOf stateOf eventsOf fst snd app]).
    rewrite !app_nil_r. auto.
  - cbn [ret valueOf stateOf eventsOf fst snd app]. rewrite !app_nil_r. auto.
Qed.

End Delivery.

(** A frame of 70 letters: the first 63 arrive. *)
Lemma overlong_frame_is_truncated_witness :
  snd (Arduino.valueOf
         (Integrated.processSerialInput 0
            (Integrated.frame (replicate 70 "A"%char))
            Integrated.initParser Integrated.initState))
  = [replicate 63 "A"%char].
Proof.
  apply (overlong_frame_is_truncated 0 Integrated.initState Integrated.initParser
           (replicate 70 "A"%char)).
  - reflexivity.
  - reflexivity.
  - apply Forall_replicate. reflexivity.
  - intros Hin. apply elem_of_replicate in Hin as [Hin _]. discriminate.
Defined.

(** [TAG:5,12.0,3,80]: the verb is [TAG], the parameters are the rest. *)
Lemma split_at_first_colon_witness :
  Integrated.splitCommand (list_ascii_of_string "TAG:5,12.0,3,80")
  = Some ("TAG"%string, "5,12.0,3,80"%string).
Proof.
  apply (split_at_first_colon (list_ascii_of_string "TAG")
           (list_ascii_of_string "5,12.0,3,80")).
  - intros Hin. repeat (apply elem_of_cons in Hin as [Hin|Hin]; [discriminate|]).
    now apply elem_of_nil in Hin.
  - cbn. lia.
  - cbn. unfold Integrated.COMMAND_BUFFER_SIZE. lia.
Defined.

(** The frame [<MODE:1>] switches to three-wheel mode. *)
Lemma framed_command_reaches_its_handler_witness :
  exists run,
    Integrated.serviceSerial (H := Integrated.inertCollaborators) 0
      (Integrated.frame (list_ascii_of_string "MODE:1")) Integrated.initParser
    = Some run
    /\ Integrated.useThreeWheels
         (Integrated.config (Arduino.stateOf (run Integrated.initState))) = true.
Proof.
  destruct (framed_command_reaches_its_handler (H := Integrated.inertCollaborators)
              0 Integrated.initParser (list_ascii_of_string "MODE")
              (list_ascii_of_string "1")) as (run & Hr & K).
  - repeat split; reflexivity.
  - intros Hin. repeat (apply elem_of_cons in Hin as [Hin|Hin]; [discriminate|]).
    now apply elem_of_nil in Hin.
  - cbn. lia.
  - cbn. unfold Integrated.COMMAND_BUFFER_SIZE. lia.
  - repeat constructor.
  - intros Hin. repeat (apply elem_of_cons in Hin as [Hin|Hin]; [discriminate|]).
    now apply elem_of_nil in Hin.
  - exists run. split; [exact Hr|].
    destruct (K Integrated.initState) as (E & _). rewrite E. reflexivity.
Defined.

(** * Further properties of the tag-tracking sketch *)

Section TrackingController.
Import Arduino Tracking.
Local Open Scope Q_scope.






(** X19. Anti-windup: after every call of [calculatePID] the integral
    term lies between [-MAX_SPEED] and [MAX_SPEED], whatever the error,
    the time step and the integral before; the call records the error and
    the time for the next derivative and leaves the tracking state, the
    target and the wheels alone. *)
Theorem pid_integral_is_clamped (now : Z) (error : Q) (t : State) :
  (0 <= MAX_SPEED t)%Z ->
  let t' := stateOf (calculatePID now error t) in
  let c := tagController t in
  let c' := tagController t' in
  - inject_Z (MAX_SPEED t) <= integralError c'
  /\ integralError c' <= inject_Z (MAX_SPEED t)
  /\ lastError c' = error /\ lastPIDUpdate c' = now
  /\ currentState c' = currentState c /\ tagVisible c' = tagVisible c
  /\ eventsOf (calculatePID now error t) = []
  /\ set_tagController c t' = t.
Proof.
  intros Hhi t' c c'. subst t' c c'. unfold calculatePID.
  repeat (rewrite ?stateOf_bind, ?eventsOf_bind;
          cbn [get modify ret valueOf stateOf eventsOf fst snd app]).
  cbn [tagController set_tagController set_pid integralError lastError
       lastPIDUpdate currentState tagVisible].
  pose proof (inject_Z_nonneg _ Hhi) as Hq.
  assert (N : inject_Z (- MAX_SPEED t) == - inject_Z (MAX_SPEED t))
    by (rewrite inject_Z_opp; reflexivity).
  match goal with
  | |- context [constrainf ?x ?lo ?hi] =>
      destruct (constrainf_cases x lo hi) as [[_ ->]|[(_ & _ & ->)|(A & B & ->)]]
  end; repeat split; try lra; now destruct t.
Qed.

Lemma constrainf_range (x lo hi : Q) :
  lo <= hi -> lo <= constrainf x lo hi /\ constrainf x lo hi <= hi.
Proof.
  intros L. destruct (constrainf_cases x lo hi)
    as [[_ ->]|[(_ & _ & ->)|(A & B & ->)]]; lra.
Qed.

Lemma wheelSpeeds_unscaled (vy vx omega : Q) :
  let raw :=
    wheelMix (constrainf vy (-1) 1) (constrainf vx (-1) 1)
             (constrainf omega (-1) 1) in
  maxMagnitude raw <= 1 -> wheelSpeeds vy vx omega = applyDeadband raw.
Proof.
  intros raw Hm. unfold wheelSpeeds. fold raw. unfold scaleToUnit.
  destruct raw as [[l r] b]. apply Qltb_ge in Hm. now rewrite Hm.
Qed.

Lemma absf_le (x bound : Q) : - bound <= x -> x <= bound -> absf x <= bound.
Proof. intros L U. destruct (absf_cases x) as [[_ ->]|[_ ->]]; lra. Qed.

Lemma maxMagnitude_le (l r b bound : Q) :
  absf l <= bound -> absf r <= bound -> absf b <= bound ->
  maxMagnitude (l, r, b) <= bound.
Proof.
  intros L R B. destruct (maxMagnitude_spec l r b) as (_ & _ & _ & [-> | [-> | ->]]);
    assumption.
Qed.

Lemma deadband_compat (x y : Q) : x == y -> deadband x == deadband y.
Proof.
  intros E. unfold deadband, DEADBAND.
  destruct (Qltb (absf x) 0.1) eqn:X, (Qltb (absf y) 0.1) eqn:Y;
    try apply Qltb_lt in X; try apply Qltb_ge in X;
    try apply Qltb_lt in Y; try apply Qltb_ge in Y;
    destruct (absf_cases x) as [[? Ax]|[? Ax]], (absf_cases y) as [[? Ay]|[? Ay]];
    rewrite ?Ax, ?Ay in *; lra.
Qed.

Lemma deadband_opp (x y : Q) : x == - y -> deadband x == - deadband y.
Proof.
  intros E. unfold deadband, DEADBAND.
  destruct (Qltb (absf x) 0.1) eqn:X, (Qltb (absf y) 0.1) eqn:Y;
    try apply Qltb_lt in X; try apply Qltb_ge in X;
    try apply Qltb_lt in Y; try apply Qltb_ge in Y;
    destruct (absf_cases x) as [[? Ax]|[? Ax]], (absf_cases y) as [[? Ay]|[? Ay]];
    rewrite ?Ax, ?Ay in *; lra.
Qed.

(** X20. Pure motions of the holonomic mapper.  A request that only
    rotates gives the three wheels the same speed; a request that only
    moves forward or backward leaves the back wheel at rest and turns the
    two front wheels at opposite speeds; a request that only moves sideways
    gives the two front wheels the same speed; and a request of at most
    0.04 on every axis is swallowed by the deadband: all three wheels get
    speed zero. *)
Theorem pure_motions_of_the_mapper :
  (forall omega, let '(l, r, b) := wheelSpeeds 0 0 omega in l == r /\ r == b)
  /\ (forall vy, let '(l, r, b) := wheelSpeeds vy 0 0 in l == - r /\ b == 0)
  /\ (forall vx, let '(l, r, b) := wheelSpeeds 0 vx 0 in l == r)
  /\ (forall vy vx omega,
        -0.04 <= vy -> vy <= 0.04 -> -0.04 <= vx -> vx <= 0.04 ->
        -0.04 <= omega -> omega <= 0.04 ->
        wheelSpeeds vy vx omega = (0, 0, 0)).
Proof.
  assert (Z0 : constrainf 0 (-1) 1 = 0) by reflexivity.
  repeat split.
  - intros omega.
    destruct (constrainf_range omega (-1) 1) as [L U]; [lra|].
    rewrite wheelSpeeds_unscaled; rewrite Z0; unfold wheelMix.
    + cbn [applyDeadband]. split; apply deadband_compat; lra.
    + apply maxMagnitude_le; apply absf_le; lra.
  - intros vy.
    destruct (constrainf_range vy (-1) 1) as [L U]; [lra|].
    rewrite wheelSpeeds_unscaled; rewrite Z0; unfold wheelMix.
    + cbn [applyDeadband]. split; [apply deadband_opp; lra|].
      destruct (deadband_spec (0 + 0)) as [D _]. rewrite D; [reflexivity|].
      unfold DEADBAND. apply Qle_lt_trans with 0; [apply absf_le; lra | lra].
    + apply maxMagnitude_le; apply absf_le; lra.
  - intros vx.
    destruct (constrainf_range vx (-1) 1) as [L U]; [lra|].
    rewrite wheelSpeeds_unscaled; rewrite Z0; unfold wheelMix.
    + cbn [applyDeadband]. apply deadband_compat; lra.
    + apply maxMagnitude_le; apply absf_le; lra.
  - intros vy vx omega Y0 Y1 X0 X1 W0 W1.
    rewrite !constrainf_inside in * by lra.
    rewrite wheelSpeeds_unscaled; rewrite !constrainf_inside by lra; unfold wheelMix.
    + cbn [applyDeadband].
      assert (D : forall x, -0.095 <= x -> x <= 0.095 -> deadband x = 0).
      { intros x L U. apply deadband_spec. unfold DEADBAND.
        apply Qle_lt_trans with 0.095; [now apply absf_le | lra]. }
      rewrite !D by lra. reflexivity.
    + apply maxMagnitude_le; apply absf_le; lra.
Qed.

Lemma tracking_moveMotor_state (m : MotorId) (d : Direction) (target : Q) (t : State) :
  let current :=
    ramp (MAX_SPEED t) (currentSpeed (motor m t))
         (constrainf target 0 (inject_Z (MAX_SPEED t))) in
  stateOf (moveMotor m d target t)
  = set_motor m {| currentSpeed := match d with STOP => 0 | _ => current end |} t.
Proof.
  unfold moveMotor.
  repeat (rewrite ?stateOf_bind; cbn [emit get modify valueOf stateOf fst snd]).
  destruct d;
    repeat (rewrite ?stateOf_bind; cbn [emit get modify valueOf stateOf fst snd]);
    try reflexivity.
  now destruct m, t.
Qed.

(** X21. Stopping is idempotent: after [stopAllMotors] every wheel of the
    tracking sketch has [currentSpeed] zero and nothing else in the globals
    has changed; a second call writes the same six zero duty cycles and
    leaves that state as it is. *)
Theorem stopping_is_idempotent (t : State) :
  let t' := stateOf (stopAllMotors t) in
  t' = set_motor motorBack {| currentSpeed := 0 |}
         (set_motor motorRight {| currentSpeed := 0 |}
            (set_motor motorLeft {| currentSpeed := 0 |} t))
  /\ stopAllMotors t' = (tt, t', eventsOf (stopAllMotors t))
  /\ duties (eventsOf (stopAllMotors t)) = [0; 0; 0; 0; 0; 0]%Z.
Proof.
  assert (S1 : stateOf (stopAllMotors t)
               = set_motor motorBack {| currentSpeed := 0 |}
                   (set_motor motorRight {| currentSpeed := 0 |}
                      (set_motor motorLeft {| currentSpeed := 0 |} t))).
  { unfold stopAllMotors. rewrite !stateOf_bind, !tracking_moveMotor_state.
    reflexivity. }
  cbn zeta. rewrite S1. split; [reflexivity|]. split; [|apply stopAllMotors_duties].
  now destruct t.
Qed.

End TrackingController.

Section TrackingPhases.
Import Arduino Tracking.
Context `{MathLib}.

Let keeps (a : TrackingState) (t : State) : Prop :=
  currentState (tagController t) = a.
Let any (e : Event) : Prop := True.

Lemma moveMotor_keeps (a : TrackingState) (m : MotorId) (d : Direction) (target : Q)
  (t : State) :
  keeps a t -> safe (keeps a) any (moveMotor m d target) t.
Proof.
  intros K. split; [|apply Forall_forall; intros; exact Logic.I].
  rewrite tracking_moveMotor_state. exact K.
Qed.

Lemma three_keep (a : TrackingState) (ma mb mc : MotorId) (da db dc : Direction)
  (ta tb tc : Q) (t : State) :
  keeps a t ->
  safe (keeps a) any
       (moveMotor ma da ta ;; moveMotor mb db tb ;; moveMotor mc dc tc)%monad t.
Proof.
  intros K. apply safe_bind; [now apply moveMotor_keeps | intros _ t1 K1].
  apply safe_bind; [now apply moveMotor_keeps | intros _ t2 K2].
  now apply moveMotor_keeps.
Qed.

Lemma safeRobotMove_keeps (a : TrackingState) (vy vx omega : Q) (t : State) :
  keeps a t -> safe (keeps a) any (safeRobotMove vy vx omega) t.
Proof.
  intros K. unfold safeRobotMove. apply safe_get.
  destruct (emergencyStop t); [now apply three_keep|].
  unfold moveRobot. apply safe_get.
  destruct (wheelSpeeds _ _ _) as [[l r] b]. now apply three_keep.
Qed.

Lemma calculatePID_keeps (a : TrackingState) (now : Z) (error : Q) (t : State) :
  keeps a t -> safe (keeps a) any (calculatePID now error) t.
Proof.
  intros K. unfold calculatePID. apply safe_get. apply safe_modify.
  now apply safe_ret.
Qed.

Lemma constrainRotationSpeed_keeps (a : TrackingState) (now : Z) (error low high : Q)
  (t : State) :
  keeps a t -> safe (keeps a) any (constrainRotationSpeed now error low high) t.
Proof.
  intros K. unfold constrainRotationSpeed, calculateRotationSpeed.
  apply safe_bind; [now apply calculatePID_keeps | intros x t1 K1].
  destruct (Qltb x low); [now apply safe_ret|].
  apply safe_bind; [now apply calculatePID_keeps | intros y t2 K2].
  destruct (Qltb high y); [now apply safe_ret | now apply calculatePID_keeps].
Qed.

(** X22. The tracking phases follow in order.  While the tag is fresh
    (visible, updated within the last 1000 ms), one step of
    [processMovement] either keeps the tracking state, or makes exactly one
    of the transitions moving-to-tag to aligning, aligning to maintaining,
    maintaining to moving-to-tag; a step that changes the state commands no
    wheel and prints nothing, and no step leaves for, or leaves, [IDLE]. *)
Theorem tracking_phases_follow_in_order (now : Z) (t : State) :
  stale now t = false ->
  let r := processMovement now t in
  let a := currentState (tagController t) in
  let b := currentState (tagController (stateOf r)) in
  b = a
  \/ (eventsOf r = []
      /\ ((a = MOVING_TO_TAG /\ b = ALIGNING_WITH_TAG)
          \/ (a = ALIGNING_WITH_TAG /\ b = MAINTAINING_POSITION)
          \/ (a = MAINTAINING_POSITION /\ b = MOVING_TO_TAG))).
Proof.
  intros Hs r a b. subst r a b. unfold stale in Hs. unfold processMovement.
  rewrite stateOf_bind, eventsOf_bind.
  cbn [get valueOf stateOf eventsOf fst snd app]. rewrite Hs.
  assert (K : keeps (currentState (tagController t)) t) by reflexivity.
  destruct (currentState (tagController t)) eqn:Ea.
  - left. now apply (safeRobotMove_keeps IDLE 0 0 0 t).
  - match goal with |- context [if ?c then _ else _] => destruct c end.
    + right. split; [reflexivity|]. left. split; reflexivity.
    + left. unfold calculateRotationSpeed.
      refine (proj1 (safe_bind (keeps MOVING_TO_TAG) any _ _ t _ _)).
      * now apply calculatePID_keeps.
      * intros omega t1 K1. now apply safeRobotMove_keeps.
  - match goal with |- context [if ?c then _ else _] => destruct c end.
    + right. split; [reflexivity|]. right. left. split; reflexivity.
    + left. unfold calculateRotationSpeed.
      refine (proj1 (safe_bind (keeps ALIGNING_WITH_TAG) any _ _ t _ _)).
      * now apply calculatePID_keeps.
      * intros omega t1 K1. now apply safeRobotMove_keeps.
  - match goal with |- context [if ?c then _ else _] => destruct c end.
    + right. split; [reflexivity|]. right. right. split; reflexivity.
    + left.
      refine (proj1 (safe_bind (keeps MAINTAINING_POSITION) any _ _ t _ _)).
      * now apply constrainRotationSpeed_keeps.
      * intros omega t1 K1. now apply safeRobotMove_keeps.
Qed.

End TrackingPhases.

(** An integral of 140 and an error of 500 held for two seconds, with
    [MAX_SPEED] 150. *)
Lemma pid_integral_is_clamped_witness :
  let t :=
    Tracking.set_tagController
      (Tracking.set_pid 140 0 0 (Tracking.tagController Tracking.initState))
      Tracking.initState in
  (Tracking.integralError
     (Tracking.tagController
        (Arduino.stateOf (Tracking.calculatePID 2000 500 t))) <= inject_Z 150)%Q.
Proof.
  intros t.
  destruct (pid_integral_is_clamped 2000 500 t) as (_ & U & _);
    [cbn; lia | exact U].
Defined.

(** A controller moving to a tag seen 100 ms ago, with a C library that
    reports distance zero: the step switches to aligning. *)
Lemma tracking_phases_follow_in_order_witness :
  let t :=
    Tracking.set_tagController
      (Tracking.set_currentState Tracking.MOVING_TO_TAG
         {| Tracking.currentState := Tracking.IDLE; Tracking.tagVisible := true;
            Tracking.targetX := 100; Tracking.targetY := 0; Tracking.targetYaw := 0;
            Tracking.currentX := 0; Tracking.currentY := 0; Tracking.currentYaw := 0;
            Tracking.integralError := 0; Tracking.lastError := 0;
            Tracking.lastPIDUpdate := 0 |})
      Tracking.initState in
  let r := Tracking.processMovement (H := Tracking.noMath) 100 t in
  Tracking.currentState (Tracking.tagController (Arduino.stateOf r))
  = Tracking.MOVING_TO_TAG
  \/ (Arduino.eventsOf r = []
      /\ ((Tracking.MOVING_TO_TAG = Tracking.MOVING_TO_TAG
           /\ Tracking.currentState (Tracking.tagController (Arduino.stateOf r))
              = Tracking.ALIGNING_WITH_TAG)
          \/ (Tracking.MOVING_TO_TAG = Tracking.ALIGNING_WITH_TAG
              /\ Tracking.currentState (Tracking.tagController (Arduino.stateOf r))
                 = Tracking.MAINTAINING_POSITION)
          \/ (Tracking.MOVING_TO_TAG = Tracking.MAINTAINING_POSITION
              /\ Tracking.currentState (Tracking.tagController (Arduino.stateOf r))
                 = Tracking.MOVING_TO_TAG))).
Proof.
  intros t r.
  apply (tracking_phases_follow_in_order (H := Tracking.noMath) 100 t).
  reflexivity.
Defined.

(** A request of 0.03 forward, 0.02 to the left and 0.01 of rotation. *)
Lemma pure_motions_of_the_mapper_witness :
  Tracking.wheelSpeeds 0.03 (-0.02) 0.01 = (0%Q, 0%Q, 0%Q).
Proof.
  destruct pure_motions_of_the_mapper as (_ & _ & _ & D).
  apply D; unfold Qle; cbn; lia.
Defined.

(** * Sensors, bus and tag data *)

Section SensorReadings.
Import Arduino Integrated Sensing.
Local Open Scope Q_scope.

Lemma attempt_range (pulse : Z) (d : Q) :
  attempt pulse = Some d ->
  2 <= d /\ d <= 400 /\ (0 < pulse)%Z /\ d = inject_Z pulse * 0.0343 / 2.
Proof.
  unfold attempt. destruct (Qltb 0 (inject_Z pulse)) eqn:P; [|discriminate].
  destruct (Qle_bool 2 (inject_Z pulse * 0.0343 / 2)) eqn:L; [|discriminate].
  destruct (Qle_bool (inject_Z pulse * 0.0343 / 2) 400) eqn:U; [|discriminate].
  cbn [andb]. intros [= <-].
  apply Qle_bool_iff in L, U. apply Qltb_lt in P.
  repeat split; auto.
  change 0 with (inject_Z 0) in P. now rewrite <- Zlt_Qlt in P.
Qed.


Lemma reading_range (e : Echo) :
  2 <= readUltrasonicDistance e /\ readUltrasonicDistance e <= 400.
Proof.
  unfold readUltrasonicDistance.
  destruct (attempt (pulse1 e)) as [d|] eqn:A1;
    [apply attempt_range in A1; tauto|].
  destruct (attempt (pulse2 e)) as [d|] eqn:A2;
    [apply attempt_range in A2; tauto|].
  destruct (attempt (pulse3 e)) as [d|] eqn:A3;
    [apply attempt_range in A3; tauto|].
  unfold SAFE_DISTANCE. lra.
Qed.


(** X24. The outlier filter only ever answers with the new reading or the
    previous one.  It accepts the new reading whenever that is at least
    [SAFE_DISTANCE] or differs from the previous one by at most half of
    it; and it falls back to the previous value only after a verifying
    read that is at least as close to the previous value as to the new
    one. *)
Theorem filter_accepts_or_keeps (prevValue newValue : Q) (verify : Echo) :
  let r := filterReading prevValue newValue verify in
  let check := readUltrasonicDistance verify in
  (r = newValue \/ r = prevValue)
  /\ (SAFE_DISTANCE <= newValue -> r = newValue)
  /\ (absf (newValue - prevValue) <= prevValue * 0.5 -> r = newValue)
  /\ (r <> newValue -> absf (check - prevValue) <= absf (check - newValue)).
Proof.
  intros r check. subst r check. unfold filterReading.
  destruct (Qltb (prevValue * 0.5) (absf (newValue - prevValue))) eqn:J;
    destruct (Qltb newValue SAFE_DISTANCE) eqn:S; cbn [andb];
    try apply Qltb_lt in J; try apply Qltb_ge in J;
    try apply Qltb_lt in S; try apply Qltb_ge in S.
  2-4: repeat split; auto; intros; congruence.
  destruct (Qltb (absf (readUltrasonicDistance verify - newValue))
                 (absf (readUltrasonicDistance verify - prevValue))) eqn:V;
    try apply Qltb_lt in V; try apply Qltb_ge in V.
  - repeat split; auto; intros; congruence.
  - split; [now right|]. split; [intros; lra|]. split; [intros; lra|].
    intros _. exact V.
Qed.

(** Every reading of a snapshot is within the range of the sensors. *)
Definition inSensorRange (d : Distances) : Prop :=
  (2 <= distFL d /\ distFL d <= 400) /\ (2 <= distF d /\ distF d <= 400)
  /\ (2 <= distFR d /\ distFR d <= 400) /\ (2 <= distBL d /\ distBL d <= 400)
  /\ (2 <= distB d /\ distB d <= 400) /\ (2 <= distBR d /\ distBR d <= 400).

Lemma filterReading_range (prevValue newValue : Q) (verify : Echo) :
  2 <= prevValue /\ prevValue <= 400 ->
  2 <= newValue /\ newValue <= 400 ->
  2 <= filterReading prevValue newValue verify
  /\ filterReading prevValue newValue verify <= 400.
Proof.
  intros Hp Hn.
  destruct (filter_accepts_or_keeps prevValue newValue verify) as ([-> | ->] & _);
    assumption.
Qed.

(** X25. The distance snapshot stays within the range of the sensors: when
    the remembered readings lie between 2 and 400 cm (they are
    [SAFE_DISTANCE] at boot), then after [updateDistances], whatever the
    sensors answer, all six distances lie between 2 and 400 cm again and
    are the readings remembered for the next call; the configuration, the
    interlocks and the wheels are not touched. *)
Theorem distances_stay_in_sensor_range (now : Z) (w : Sweep) (mem : SensorMemory)
  (s : State) :
  inSensorRange (previous mem) ->
  let r := updateDistances now w mem s in
  inSensorRange (distances (stateOf r))
  /\ previous (valueOf r) = distances (stateOf r)
  /\ stateOf r = set_distances (distances (stateOf r)) s
  /\ actuations (eventsOf r) = [].
Proof.
  intros (PFL & PF & PFR & PBL & PB & PBR) r. subst r. unfold updateDistances.
  rewrite stateOf_bind, valueOf_bind, eventsOf_bind.
  cbn [get valueOf stateOf eventsOf fst snd app].
  rewrite stateOf_bind, valueOf_bind, eventsOf_bind.
  match goal with
  | |- context [when ?c ?m] =>
      assert (Q : silent isTrace (when c m))
        by (apply silent_when, debugPrintArg_silent; intros; reflexivity);
      destruct (Q s) as [Qs Qe]; rewrite Qs
  end.
  rewrite stateOf_bind, valueOf_bind, eventsOf_bind.
  cbn [modify ret valueOf stateOf eventsOf fst snd app distances set_distances
       previous].
  rewrite app_nil_r.
  split; [|split; [reflexivity|split; [reflexivity|
                                        now apply trace_only_no_actuation]]].
  unfold inSensorRange. cbn [distFL distF distFR distBL distB distBR].
  repeat split; apply filterReading_range; auto; apply reading_range.
Qed.

End SensorReadings.


(** A reading that drops from 100 to 20 cm while the verifying read still
    sees 100 cm is not believed. *)
Lemma filter_accepts_or_keeps_witness :
  (Sensing.filterReading 100 20
     {| Sensing.pulse1 := 5831; Sensing.pulse2 := 0; Sensing.pulse3 := 0 |} <> 20
   /\ Arduino.absf
        (Sensing.readUltrasonicDistance
           {| Sensing.pulse1 := 5831; Sensing.pulse2 := 0; Sensing.pulse3 := 0 |}
         - 100)
      <= Arduino.absf
           (Sensing.readUltrasonicDistance
              {| Sensing.pulse1 := 5831; Sensing.pulse2 := 0; Sensing.pulse3 := 0 |}
            - 20))%Q.
Proof.
  assert (N : Sensing.filterReading 100 20
                {| Sensing.pulse1 := 5831; Sensing.pulse2 := 0; Sensing.pulse3 := 0 |}
              <> 20%Q) by (vm_compute; discriminate).
  split; [exact N|].
  destruct (filter_accepts_or_keeps 100 20
              {| Sensing.pulse1 := 5831; Sensing.pulse2 := 0; Sensing.pulse3 := 0 |})
    as (_ & _ & _ & K).
  exact (K N).
Defined.

(** The first sweep after boot, with every echo lost. *)
Lemma distances_stay_in_sensor_range_witness :
  inSensorRange
    (Integrated.distances
       (Arduino.stateOf
          (Sensing.updateDistances 50
             {| Sensing.reading := fun _ =>
                  {| Sensing.pulse1 := 0; Sensing.pulse2 := 0; Sensing.pulse3 := 0 |};
                Sensing.verifying := fun _ =>
                  {| Sensing.pulse1 := 0; Sensing.pulse2 := 0; Sensing.pulse3 := 0 |} |}
             Sensing.initMemory Integrated.initState))).
Proof.
  apply (distances_stay_in_sensor_range 50 _ Sensing.initMemory Integrated.initState).
  unfold inSensorRange, Sensing.initMemory, Integrated.SAFE_DISTANCE.
  cbn. repeat split; unfold Qle; cbn; lia.
Defined.

Section BusProtocol.
Import Arduino Integrated Bus.
Context `{Collaborators}.

Lemma override_set (b : bool) (s : State) :
  masterOverrideActive (interlocks (set_masterOverrideActive b s)) = b
  /\ overridePinLow (interlocks (set_masterOverrideActive b s))
     = overridePinLow (interlocks s).
Proof. split; reflexivity. Qed.

Lemma debugPrint_state (msg : string) (s : State) : stateOf (debugPrint msg s) = s.
Proof.
  now destruct (debugPrint_silent (fun _ => True) (fun _ => I) (fun _ => I) msg s).
Qed.

Lemma stopAllMotors_frame (s : State) :
  (forall s0, interlocks (stateOf (startSmoothDeceleration s0)) = interlocks s0) ->
  interlocks (stateOf (stopAllMotors s)) = interlocks s.
Proof.
  intros Frame. unfold stopAllMotors. rewrite !stateOf_bind.
  cbn [get valueOf stateOf fst snd].
  destruct (_ && _); cbn [when];
    [rewrite debugPrint_state | cbn [ret stateOf fst snd]]; apply Frame.
Qed.

(** X26. Bus addressing.  A byte packs a 3-bit address and a 5-bit
    command, and unpacking gives both back; [receiveEvent] ignores every
    message whose address is not this module's: the globals stay as they
    were, nothing is printed and nothing is written to the bus; and the
    byte it answers a ready query with is the ready command addressed to
    the master. *)
Theorem bus_messages_are_addressed (moduleReady : bool) (s : State) :
  (forall addr cmd, 0 <= addr < 8 -> 0 <= cmd < 32 ->
     destOf (busByte addr cmd) = addr /\ cmdOf (busByte addr cmd) = cmd)
  /\ (forall byte, destOf (uint8 byte) <> MY_ADDR ->
        receiveEvent moduleReady (Some byte) s = ([], s, []))
  /\ (moduleReady = true ->
      valueOf (receiveEvent moduleReady (Some (busByte MY_ADDR ASK_READY_CMD)) s)
      = [busByte MASTER_ADDR TELL_READY_CMD]
      /\ destOf (busByte MASTER_ADDR TELL_READY_CMD) = MASTER_ADDR
      /\ cmdOf (busByte MASTER_ADDR TELL_READY_CMD) = TELL_READY_CMD).
Proof.
  split; [|split].
  - intros addr cmd Ha Hc. unfold busByte, uint8, destOf, cmdOf.
    assert (A : addr = 0 \/ addr = 1 \/ addr = 2 \/ addr = 3 \/ addr = 4
                \/ addr = 5 \/ addr = 6 \/ addr = 7) by lia.
    assert (C : exists n, cmd = Z.of_nat n /\ (n < 32)%nat).
    { exists (Z.to_nat cmd). split; lia. }
    destruct C as (n & -> & Hn).
    do 32 (destruct n as [|n]; [decompose [or] A; subst; split; reflexivity|]).
    lia.
  - intros byte Hd. unfold receiveEvent.
    apply Z.eqb_neq in Hd. now rewrite Hd.
  - intros ->. split; [|split; reflexivity].
    change (uint8 (busByte MY_ADDR ASK_READY_CMD)) with 131.
    unfold receiveEvent. change (uint8 (busByte MY_ADDR ASK_READY_CMD)) with 131.
    change (destOf 131 =? MY_ADDR) with true.
    change (cmdOf 131 =? ASK_READY_CMD) with true. cbn [negb].
    now rewrite valueOf_bind.
Qed.

Lemma goIdle_interlocks (moduleReady : bool) (s : State) :
  (forall s0, interlocks (stateOf (startSmoothDeceleration s0)) = interlocks s0) ->
  interlocks (stateOf (receiveEvent moduleReady
                         (Some (busByte MY_ADDR GO_IDLE_CMD)) s))
  = interlocks (set_masterOverrideActive true s).
Proof.
  intros Frame.
  unfold receiveEvent. change (uint8 (busByte MY_ADDR GO_IDLE_CMD)) with 151.
  change (destOf 151 =? MY_ADDR) with true.
  change (cmdOf 151 =? ASK_READY_CMD) with false.
  change (cmdOf 151 =? GO_IDLE_CMD) with true. cbn [negb].
  repeat (rewrite ?stateOf_bind, ?debugPrint_state;
          cbn [modify ret valueOf stateOf fst snd]).
  now rewrite stopAllMotors_frame by exact Frame.
Qed.

Lemma goActive_interlocks (moduleReady : bool) (s : State) :
  interlocks (stateOf (receiveEvent moduleReady
                         (Some (busByte MY_ADDR GO_ACTIVE_CMD)) s))
  = interlocks (set_masterOverrideActive false s).
Proof.
  unfold receiveEvent. change (uint8 (busByte MY_ADDR GO_ACTIVE_CMD)) with 152.
  change (destOf 152 =? MY_ADDR) with true.
  change (cmdOf 152 =? ASK_READY_CMD) with false.
  change (cmdOf 152 =? GO_IDLE_CMD) with false.
  change (cmdOf 152 =? GO_ACTIVE_CMD) with true. cbn [negb].
  repeat (rewrite ?stateOf_bind, ?debugPrint_state;
          cbn [modify ret valueOf stateOf fst snd]).
  reflexivity.
Qed.

Lemma requestEvent_run (moduleReady : bool) (s : State) :
  valueOf (requestEvent moduleReady s)
  = (if moduleReady && negb (masterOverrideActive (interlocks s))
     then busByte MASTER_ADDR TELL_READY_CMD else 0)
  /\ stateOf (requestEvent moduleReady s) = s
  /\ actuations (eventsOf (requestEvent moduleReady s)) = [].
Proof.
  unfold requestEvent.
  rewrite valueOf_bind, stateOf_bind, eventsOf_bind.
  cbn [get valueOf stateOf eventsOf fst snd app].
  rewrite valueOf_bind, stateOf_bind, eventsOf_bind.
  destruct (debugPrint_silent isTrace (fun _ => eq_refl) (fun _ => eq_refl)
              "I2C:REQUEST_EVENT_HANDLED" s) as [Qs Qe].
  rewrite Qs. cbn [ret valueOf stateOf eventsOf fst snd]. rewrite app_nil_r.
  split; [reflexivity|]. split; [reflexivity|].
  now apply trace_only_no_actuation.
Qed.

(** X27. The override follows the pin.  After [checkOverridePin] the
    master override equals the level of the override pin, whatever it was
    before: an override asserted over the bus with [GO_IDLE] while the pin
    is high is released by the next call, that is, by the next pass of
    [loop()].  While the pin is low, [GO_ACTIVE] is undone the same way.
    (The deceleration routine is taken not to write the interlocks.) *)
Theorem override_follows_the_pin (prev moduleReady : bool) (s : State) :
  (forall s0, interlocks (stateOf (startSmoothDeceleration s0)) = interlocks s0) ->
  let pin := overridePinLow (interlocks s) in
  masterOverrideActive (interlocks (stateOf (checkOverridePin prev s))) = pin
  /\ (let idle :=
        stateOf (receiveEvent moduleReady (Some (busByte MY_ADDR GO_IDLE_CMD)) s) in
      masterOverrideActive (interlocks idle) = true
      /\ masterOverrideActive (interlocks (stateOf (checkOverridePin prev idle))) = pin)
  /\ (let active :=
        stateOf (receiveEvent moduleReady (Some (busByte MY_ADDR GO_ACTIVE_CMD)) s) in
      masterOverrideActive (interlocks active) = false
      /\ masterOverrideActive (interlocks (stateOf (checkOverridePin prev active)))
         = pin).
Proof.
  intros Frame pin.
  assert (Check : forall s0,
             masterOverrideActive (interlocks (stateOf (checkOverridePin prev s0)))
             = overridePinLow (interlocks s0)).
  { intros s0. unfold checkOverridePin. rewrite stateOf_bind.
    cbn [get valueOf stateOf fst snd].
    destruct (overridePinLow (interlocks s0)) eqn:P,
      (masterOverrideActive (interlocks s0)) eqn:M; cbn [Bool.eqb negb];
      try (cbn [ret stateOf fst snd]; assumption);
      repeat (rewrite ?stateOf_bind, ?debugPrint_state;
              cbn [modify ret valueOf stateOf fst snd]);
      rewrite ?stopAllMotors_frame by exact Frame; reflexivity. }
  split; [apply Check|]. split; cbn zeta.
  - rewrite Check, goIdle_interlocks by exact Frame. split; reflexivity.
  - rewrite Check, goActive_interlocks. split; reflexivity.
Qed.

(** X30. What the master is told.  [requestEvent] answers with the ready
    byte addressed to the master exactly when the module is ready and no
    master override is active, and with 0 otherwise; it changes no global
    and moves no wheel.  So after [GO_IDLE] a status request is answered
    with 0 even by a ready module, and after [GO_ACTIVE] a ready module
    answers with the ready byte again. *)
Theorem idle_module_reports_not_ready (moduleReady : bool) (s : State) :
  (forall s0, interlocks (stateOf (startSmoothDeceleration s0)) = interlocks s0) ->
  let idle :=
    stateOf (receiveEvent moduleReady (Some (busByte MY_ADDR GO_IDLE_CMD)) s) in
  let active :=
    stateOf (receiveEvent moduleReady (Some (busByte MY_ADDR GO_ACTIVE_CMD)) s) in
  (valueOf (requestEvent moduleReady s) = busByte MASTER_ADDR TELL_READY_CMD
   <-> moduleReady = true /\ masterOverrideActive (interlocks s) = false)
  /\ (valueOf (requestEvent moduleReady s) = busByte MASTER_ADDR TELL_READY_CMD
      \/ valueOf (requestEvent moduleReady s) = 0)
  /\ stateOf (requestEvent moduleReady s) = s
  /\ actuations (eventsOf (requestEvent moduleReady s)) = []
  /\ valueOf (requestEvent moduleReady idle) = 0
  /\ valueOf (requestEvent true active) = busByte MASTER_ADDR TELL_READY_CMD.
Proof.
  intros Frame idle active.
  destruct (requestEvent_run moduleReady s) as (V & S & A).
  destruct (requestEvent_run moduleReady idle) as (Vi & _).
  destruct (requestEvent_run true active) as (Va & _).
  subst idle active.
  rewrite goIdle_interlocks in Vi by exact Frame.
  rewrite goActive_interlocks in Va.
  cbn [set_masterOverrideActive interlocks masterOverrideActive negb andb] in Vi, Va.
  rewrite andb_false_r in Vi.
  split; [|split; [|split; [|split; [|split]]]]; try assumption.
  - rewrite V. split.
    + destruct moduleReady, (masterOverrideActive (interlocks s));
        cbn [andb negb]; intros R; try discriminate R; now split.
    + now intros [-> ->].
  - rewrite V. destruct (_ && _); auto.
Qed.

End BusProtocol.

(** The master's [GO_IDLE] to this module is byte 151; byte 55, the same
    command to module 1, is ignored. *)
Lemma bus_messages_are_addressed_witness :
  Bus.receiveEvent (H := Integrated.inertCollaborators) true (Some 55)
    Integrated.readyState
  = ([], Integrated.readyState, []).
Proof.
  destruct (bus_messages_are_addressed (H := Integrated.inertCollaborators) true
              Integrated.readyState) as (_ & Ignore & _).
  apply Ignore. discriminate.
Defined.

(** [GO_IDLE] over the bus with the override pin high, then one pass of
    [loop()]. *)
Lemma override_follows_the_pin_witness :
  Integrated.masterOverrideActive
    (Integrated.interlocks
       (Arduino.stateOf
          (Bus.receiveEvent (H := Integrated.inertCollaborators) true
             (Some (Bus.busByte Bus.MY_ADDR Bus.GO_IDLE_CMD))
             Integrated.readyState)))
  = true
  /\ Integrated.masterOverrideActive
       (Integrated.interlocks
          (Arduino.stateOf
             (Bus.checkOverridePin (H := Integrated.inertCollaborators) false
                (Arduino.stateOf
                   (Bus.receiveEvent (H := Integrated.inertCollaborators) true
                      (Some (Bus.busByte Bus.MY_ADDR Bus.GO_IDLE_CMD))
                      Integrated.readyState)))))
     = false.
Proof.
  destruct (override_follows_the_pin (H := Integrated.inertCollaborators) false true
              Integrated.readyState) as (_ & K & _); [reflexivity|].
  exact K.
Defined.

(** A ready module is asked for its status right after [GO_IDLE]. *)
Lemma idle_module_reports_not_ready_witness :
  Arduino.valueOf
    (Bus.requestEvent true
       (Arduino.stateOf
          (Bus.receiveEvent (H := Integrated.inertCollaborators) true
             (Some (Bus.busByte Bus.MY_ADDR Bus.GO_IDLE_CMD)) Integrated.readyState)))
  = 0.
Proof.
  destruct (idle_module_reports_not_ready (H := Integrated.inertCollaborators) true
              Integrated.readyState) as (_ & _ & _ & _ & K & _); [reflexivity|].
  exact K.
Defined.

Section TrackingSensors.
Import Arduino Tracking TrackingIO.
Local Open Scope Q_scope.

Lemma capped_reading_range (pulse : Z) :
  0.1 <= capReading (readDistance pulse) /\ capReading (readDistance pulse) <= 400
  /\ ((pulse <= 0)%Z -> capReading (readDistance pulse) = 400).
Proof.
  unfold capReading, readDistance.
  destruct (pulse <=? 0)%Z eqn:T.
  - change (Qle_bool 400 400) with true. repeat split; lra.
  - apply Z.leb_gt in T.
    destruct (constrainf_range (inject_Z pulse * 0.034 / 2) 0.1 400) as [L U]; [lra|].
    destruct (Qle_bool 400 (constrainf (inject_Z pulse * 0.034 / 2) 0.1 400)) eqn:C.
    + repeat split; try lra; try (intros; lia).
    + repeat split; auto; try (intros; lia).
Qed.

(** X28. The emergency stop of the tracking sketch.  After
    [updateDistances] each of the six distances lies between 0.1 and 400
    cm, a sensor that timed out reads 400, and [emergencyStop] is set
    exactly when one of the six is below [CRITICAL_DISTANCE]; speed limits,
    wheels and tag data are untouched.  Then the control step of [loop()]
    stops all three wheels under the emergency stop, whatever the tag
    controller is doing. *)
Theorem tracking_emergency_stop_tracks_sensors `{MathLib} (now : Z) (p : Pulses)
  (t : State) :
  let t' := stateOf (updateDistances p t) in
  let readings := [distFL t'; distF t'; distFR t'; distBL t'; distB t'; distBR t'] in
  Forall (fun d => 0.1 <= d /\ d <= 400) readings
  /\ (emergencyStop t' = true <-> Exists (fun d => d < CRITICAL_DISTANCE) readings)
  /\ t' = set_sensors (distFL t') (distF t') (distFR t') (distBL t') (distB t')
            (distBR t') (emergencyStop t') t
  /\ (emergencyStop t' = true ->
      controlStep now t' = stopAllMotors t'
      /\ duties (eventsOf (controlStep now t')) = [0; 0; 0; 0; 0; 0]%Z).
Proof.
  intros t' readings.
  assert (E : t' = set_sensors
                     (capReading (readDistance (pulseFL p)))
                     (capReading (readDistance (pulseF p)))
                     (capReading (readDistance (pulseFR p)))
                     (capReading (readDistance (pulseBL p)))
                     (capReading (readDistance (pulseB p)))
                     (capReading (readDistance (pulseBR p)))
                     (Qltb (capReading (readDistance (pulseF p))) CRITICAL_DISTANCE
                      || Qltb (capReading (readDistance (pulseFL p))) CRITICAL_DISTANCE
                      || Qltb (capReading (readDistance (pulseFR p))) CRITICAL_DISTANCE
                      || Qltb (capReading (readDistance (pulseB p))) CRITICAL_DISTANCE
                      || Qltb (capReading (readDistance (pulseBL p))) CRITICAL_DISTANCE
                      || Qltb (capReading (readDistance (pulseBR p))) CRITICAL_DISTANCE)
                     t).
  { subst t'. unfold updateDistances. rewrite stateOf_bind.
    cbn [modify valueOf stateOf fst snd]. now destruct (_ || _). }
  subst readings. rewrite E.
  cbn [set_sensors distFL distF distFR distBL distB distBR emergencyStop].
  split; [|split; [|split]].
  - destruct (capped_reading_range (pulseFL p)) as (? & ? & _);
      destruct (capped_reading_range (pulseF p)) as (? & ? & _);
      destruct (capped_reading_range (pulseFR p)) as (? & ? & _);
      destruct (capped_reading_range (pulseBL p)) as (? & ? & _);
      destruct (capped_reading_range (pulseB p)) as (? & ? & _);
      destruct (capped_reading_range (pulseBR p)) as (? & ? & _).
    repeat (constructor; [split; assumption|]). constructor.
  - rewrite !orb_true_iff, !Qltb_lt, !Exists_cons, Exists_nil. tauto.
  - reflexivity.
  - intros Stop. rewrite <- E.
    assert (S' : emergencyStop t' = true) by (rewrite E; exact Stop).
    assert (C : controlStep now t' = stopAllMotors t').
    { unfold controlStep, bind at 1, get. rewrite S'.
      now destruct (stopAllMotors t') as [[u s'] e]. }
    split; [exact C|]. rewrite C. apply stopAllMotors_duties.
Qed.

(** X29. Fresh tag data activates the controller, and only fresh data:
    [isActive] is the negation of the staleness test of [processMovement];
    right after [updateTagData] the controller is active and not idle, and
    stays active for every time no more than [TAG_TIMEOUT] later; after
    [reset] it is inactive and idle at every time. *)
Theorem tag_data_activates_tracking (now later : Z) (x y yaw : Q) (t : State) :
  isActive later t = negb (stale later t)
  /\ (let t' := stateOf (updateTagData now x y yaw t) in
      currentState (tagController t') <> IDLE
      /\ targetX (tagController t') = x /\ targetY (tagController t') = y
      /\ targetYaw (tagController t') = yaw
      /\ ((elapsed later now <= TAG_TIMEOUT)%Z ->
          isActive later t' = true /\ stale later t' = false))
  /\ (let t' := stateOf (reset now t) in
      isActive later t' = false
      /\ currentState (tagController t') = IDLE
      /\ integralError (tagController t') = 0).
Proof.
  split; [|split].
  - unfold isActive, stale.
    destruct (tagVisible (tagController t)); cbn [andb orb negb]; [|reflexivity].
    rewrite Z.leb_antisym. reflexivity.
  - cbn zeta. unfold updateTagData. cbn [modify stateOf fst snd].
    cbn [set_lastTagUpdate set_tagController tagController currentState targetX
         targetY targetYaw].
    split; [now destruct (currentState (tagController t))|].
    repeat split; unfold isActive, stale;
      cbn [tagController tagVisible lastTagUpdate andb orb negb].
    + now apply Z.leb_le.
    + now apply Z.ltb_ge.
  - cbn zeta. unfold reset, isActive. cbn [modify stateOf fst snd].
    repeat split; reflexivity.
Qed.

End TrackingSensors.

(** An obstacle 8.5 cm in front (an echo of 500 microseconds), nothing else
    in range. *)
Lemma tracking_emergency_stop_tracks_sensors_witness :
  Tracking.emergencyStop
    (Arduino.stateOf
       (TrackingIO.updateDistances
          {| TrackingIO.pulseFL := 0; TrackingIO.pulseF := 500;
             TrackingIO.pulseFR := 0; TrackingIO.pulseBL := 0;
             TrackingIO.pulseB := 0; TrackingIO.pulseBR := 0 |}
          Tracking.initState))
  = true
  /\ Arduino.duties
       (Arduino.eventsOf
          (TrackingIO.controlStep (H := Tracking.noMath) 50
             (Arduino.stateOf
                (TrackingIO.updateDistances
                   {| TrackingIO.pulseFL := 0; TrackingIO.pulseF := 500;
                      TrackingIO.pulseFR := 0; TrackingIO.pulseBL := 0;
                      TrackingIO.pulseB := 0; TrackingIO.pulseBR := 0 |}
                   Tracking.initState))))
     = [0; 0; 0; 0; 0; 0].
Proof.
  split; [reflexivity|].
  destruct (tracking_emergency_stop_tracks_sensors (H := Tracking.noMath) 50
              {| TrackingIO.pulseFL := 0; TrackingIO.pulseF := 500;
                 TrackingIO.pulseFR := 0; TrackingIO.pulseBL := 0;
                 TrackingIO.pulseB := 0; TrackingIO.pulseBR := 0 |}
              Tracking.initState) as (_ & _ & _ & K).
  destruct K as [_ D]; [reflexivity | exact D].
Defined.

(** Tag data received at time 200 is still fresh at time 1200. *)
Lemma tag_data_activates_tracking_witness :
  (Arduino.elapsed 1200 200 <= Tracking.TAG_TIMEOUT)%Z
  /\ TrackingIO.isActive 1200
       (Arduino.stateOf (TrackingIO.updateTagData 200 30 40 0 Tracking.initState))
     = true.
Proof.
  split; [vm_compute; discriminate|].
  destruct (tag_data_activates_tracking 200 1200 30 40 0 Tracking.initState)
    as (_ & (_ & _ & _ & _ & K) & _).
  destruct K as [A _]; [vm_compute; discriminate | exact A].
Defined.
